(** * literate-to-md: a shallow embedding of the literate-source to Markdown
      converter, and the properties of its specification.

    The program is [literate-to-md.js].  JavaScript strings are modelled as
    lists of characters ([jsstring]); each [ascii] stands for one code unit.
    The regular expressions the program builds with [new RegExp] go through
    a model of the pattern syntax ([RegExp]), of the backtracking matcher
    ([rmatch]) and of [String.prototype.replace] ([replace]). *)

From Stdlib Require Import Ascii String List Arith Bool Lia.
Import ListNotations.

Set Implicit Arguments.

Local Open Scope char_scope.
Local Open Scope list_scope.
Local Open Scope nat_scope.

(** ** JavaScript strings *)

Definition jsstring := list ascii.

Definition js (s : string) : jsstring := list_ascii_of_string s.

Definition LF : ascii := ascii_of_nat 10.
Definition CR : ascii := ascii_of_nat 13.

Fixpoint jseqb (a b : jsstring) : bool :=
  match a, b with
  | [], [] => true
  | x :: a', y :: b' => Ascii.eqb x y && jseqb a' b'
  | _, _ => false
  end.

(** [substr s i j] is [s.substring(i, j)] for [i <= j]. *)
Definition substr (s : jsstring) (i j : nat) : jsstring :=
  firstn (j - i) (skipn i s).

(** ** Regular expressions *)

Module JsRegExp.

(** The abstract syntax of the patterns the program uses: characters, the
    assertions [^] and [$] (no [m] flag), capturing groups and the greedy
    quantifiers [*], [+], [?]. *)
Inductive regex : Type :=
| Eps : regex
| Chr : ascii -> regex
| AtStart : regex
| AtEnd : regex
| Cat : regex -> regex -> regex
| Star : regex -> regex
| Plus : regex -> regex
| Opt : regex -> regex
| Group : nat -> regex -> regex.

Fixpoint seq_of (rs : list regex) : regex :=
  match rs with
  | [] => Eps
  | r :: rs' => Cat r (seq_of rs')
  end.

(** *** Pattern syntax: [new RegExp(pattern)] *)

Inductive token : Type :=
| TChar : ascii -> token
| TCaret | TDollar | TStar | TPlus | TQuest | TOpen | TClose
| TOther : ascii -> token.

(** The syntax characters of a pattern. *)
Definition syntax_char (c : ascii) : bool :=
  existsb (Ascii.eqb c)
    ["\"; "^"; "$"; "*"; "+"; "?"; "."; "("; ")"; "|"; "["; "]"; "{"; "}"].

(** What [\c] stands for: a control escape, or the character itself for a
    syntax character or [/].  Class escapes, back references and the like
    are outside this model. *)
Definition escape_token (c : ascii) : option token :=
  if Ascii.eqb c "r" then Some (TChar CR)
  else if Ascii.eqb c "n" then Some (TChar LF)
  else if syntax_char c || Ascii.eqb c "/" then Some (TChar c)
  else None.

Definition plain_token (c : ascii) : token :=
  if Ascii.eqb c "^" then TCaret
  else if Ascii.eqb c "$" then TDollar
  else if Ascii.eqb c "*" then TStar
  else if Ascii.eqb c "+" then TPlus
  else if Ascii.eqb c "?" then TQuest
  else if Ascii.eqb c "(" then TOpen
  else if Ascii.eqb c ")" then TClose
  else if syntax_char c then TOther c
  else TChar c.

Fixpoint lex (p : jsstring) : option (list token) :=
  match p with
  | [] => Some []
  | c :: p' =>
      if Ascii.eqb c "\" then
        match p' with
        | [] => None
        | e :: p'' =>
            match escape_token e, lex p'' with
            | Some t, Some ts => Some (t :: ts)
            | _, _ => None
            end
        end
      else option_map (cons (plain_token c)) (lex p')
  end.

Inductive term_kind : Type := KAtom | KQuantified | KAssertion.

(** The parser state: the index of the next capturing group, the terms of
    the alternative being read (last first), and the enclosing groups. *)
Record pstate : Type := PState {
  next_group : nat;
  current : list (regex * term_kind);
  enclosing : list (nat * list (regex * term_kind))
}.

Definition close_terms (ts : list (regex * term_kind)) : regex :=
  seq_of (map fst (rev ts)).

Definition quantify (q : regex -> regex) (st : pstate) : option pstate :=
  match current st with
  | (r, KAtom) :: ts => Some (PState (next_group st) ((q r, KQuantified) :: ts) (enclosing st))
  | _ => None
  end.

Definition pstep (st : pstate) (t : token) : option pstate :=
  match t with
  | TChar c => Some (PState (next_group st) ((Chr c, KAtom) :: current st) (enclosing st))
  | TCaret => Some (PState (next_group st) ((AtStart, KAssertion) :: current st) (enclosing st))
  | TDollar => Some (PState (next_group st) ((AtEnd, KAssertion) :: current st) (enclosing st))
  | TStar => quantify Star st
  | TPlus => quantify Plus st
  | TQuest => quantify Opt st
  | TOpen => Some (PState (S (next_group st)) [] ((next_group st, current st) :: enclosing st))
  | TClose =>
      match enclosing st with
      | (n, outer) :: rest =>
          Some (PState (next_group st) ((Group n (close_terms (current st)), KAtom) :: outer) rest)
      | [] => None
      end
  | TOther _ => None
  end.

Fixpoint psteps (st : pstate) (ts : list token) : option pstate :=
  match ts with
  | [] => Some st
  | t :: ts' =>
      match pstep st t with
      | Some st' => psteps st' ts'
      | None => None
      end
  end.

Definition pfinish (st : pstate) : option regex :=
  match enclosing st with
  | [] => Some (close_terms (current st))
  | _ :: _ => None
  end.

(** [new RegExp(pattern)]; [None] is a pattern this model does not read
    (a [SyntaxError], or syntax outside the fragment above). *)
Definition parse (pattern : jsstring) : option regex :=
  match lex pattern with
  | Some ts =>
      match psteps (PState 1 [] []) ts with
      | Some st => pfinish st
      | None => None
      end
  | None => None
  end.


(** *** The matcher

    The backtracking matcher of the language specification, in
    continuation-passing style: [rmatch input r k s c] matches [r] at the
    position where [s] is what remains of [input], with captures [c], and
    hands what is left to the continuation [k]; the first alternative that
    makes [k] succeed wins.  Quantifiers are greedy. *)

Definition caps := list (nat * jsstring).

Fixpoint capture (c : caps) (n : nat) : option jsstring :=
  match c with
  | [] => None
  | (m, v) :: c' => if Nat.eqb m n then Some v else capture c' n
  end.

Fixpoint groups (r : regex) : list nat :=
  match r with
  | Eps | Chr _ | AtStart | AtEnd => []
  | Cat r1 r2 => groups r1 ++ groups r2
  | Star r1 | Plus r1 | Opt r1 => groups r1
  | Group n r1 => n :: groups r1
  end.

(** Each iteration of a quantified term starts with the captures of the
    term undefined. *)
Definition clear (gs : list nat) (c : caps) : caps :=
  filter (fun e => negb (existsb (Nat.eqb (fst e)) gs)) c.

Definition mresult := (jsstring * caps)%type.
Definition cont := jsstring -> caps -> option mresult.

(** The iterations of a quantifier once its minimum is reached: one more
    iteration first, which has to consume something, then the rest of the
    pattern; the rest of the pattern alone when that fails.  An iteration
    consumes a character, so [length s] iterations are enough. *)
Fixpoint iterate (step : cont -> cont) (k : cont) (fuel : nat) (s : jsstring) (c : caps)
  {struct fuel} : option mresult :=
  match fuel with
  | 0 => k s c
  | S fuel' =>
      match step (fun s' c' =>
                    if length s' <? length s then iterate step k fuel' s' c' else None) s c with
      | Some res => Some res
      | None => k s c
      end
  end.

Fixpoint rmatch (input : jsstring) (r : regex) (k : cont) (s : jsstring) (c : caps)
  {struct r} : option mresult :=
  match r with
  | Eps => k s c
  | Chr a =>
      match s with
      | x :: s' => if Ascii.eqb x a then k s' c else None
      | [] => None
      end
  | AtStart => if Nat.eqb (length s) (length input) then k s c else None
  | AtEnd => match s with [] => k s c | _ :: _ => None end
  | Cat r1 r2 => rmatch input r1 (fun s' c' => rmatch input r2 k s' c') s c
  | Star r1 =>
      iterate (fun k' s' c' => rmatch input r1 k' s' (clear (groups r1) c')) k (length s) s c
  | Plus r1 =>
      rmatch input r1
        (fun s1 c1 =>
           iterate (fun k' s' c' => rmatch input r1 k' s' (clear (groups r1) c')) k
             (length s1) s1 c1)
        s (clear (groups r1) c)
  | Opt r1 =>
      match rmatch input r1
              (fun s' c' => if length s' <? length s then k s' c' else None)
              s (clear (groups r1) c) with
      | Some res => Some res
      | None => k s c
      end
  | Group n r1 =>
      rmatch input r1
        (fun s' c' => k s' ((n, firstn (length s - length s') s) :: c')) s c
  end.

(** *** [exec], [test] and [replace] *)

(** A match: the text before it, the matched text, the text after it and
    the captures. *)
Record rmatched : Type := Matched {
  before : jsstring;
  matched : jsstring;
  after : jsstring;
  captures : caps
}.

(** The continuation of a whole pattern: the match is found. *)
Definition accept : cont := fun s c => Some (s, c).

(** The first position at or after the one where [s] remains at which the
    pattern matches; [pre] is the text before that position, last
    character first. *)
Fixpoint search (input : jsstring) (r : regex) (pre : jsstring) (s : jsstring)
  : option rmatched :=
  match rmatch input r accept s [] with
  | Some (s', c') => Some (Matched (rev pre) (firstn (length s - length s') s) s' c')
  | None =>
      match s with
      | [] => None
      | x :: s' => search input r (x :: pre) s'
      end
  end.

(** [r.exec(input)] with [lastIndex = 0]. *)
Definition exec (r : regex) (input : jsstring) : option rmatched :=
  search input r [] input.

Definition test (r : regex) (input : jsstring) : bool :=
  match exec r input with Some _ => true | None => false end.

(** The replacement patterns of [String.prototype.replace]. *)
Definition digit (c : ascii) : option nat :=
  let n := nat_of_ascii c in
  if (48 <=? n) && (n <=? 57) then Some (n - 48) else None.

Definition capture_text (c : caps) (n : nat) : jsstring :=
  match capture c n with Some v => v | None => [] end.

(** [GetSubstitution]: [ngroups] is the number of capturing groups of the
    pattern, [pre] the text of the subject before the match. *)
Fixpoint GetSubstitution (ngroups : nat) (m : rmatched) (pre : jsstring)
  (template : jsstring) {struct template} : jsstring :=
  match template with
  | [] => []
  | x :: t =>
      if Ascii.eqb x "$" then
        match t with
        | [] => [x]
        | y :: t' =>
            if Ascii.eqb y "$" then "$" :: GetSubstitution ngroups m pre t'
            else if Ascii.eqb y "&" then matched m ++ GetSubstitution ngroups m pre t'
            else if Ascii.eqb y "`" then pre ++ GetSubstitution ngroups m pre t'
            else if Ascii.eqb y "'" then after m ++ GetSubstitution ngroups m pre t'
            else
              match digit y with
              | None => x :: GetSubstitution ngroups m pre t
              | Some d1 =>
                  let two :=
                    match t' with
                    | z :: t'' =>
                        match digit z with
                        | Some d2 =>
                            let n := 10 * d1 + d2 in
                            if (1 <=? n) && (n <=? ngroups)
                            then Some (capture_text (captures m) n
                                         ++ GetSubstitution ngroups m pre t'')
                            else None
                        | None => None
                        end
                    | [] => None
                    end in
                  match two with
                  | Some out => out
                  | None =>
                      if (1 <=? d1) && (d1 <=? ngroups)
                      then capture_text (captures m) d1 ++ GetSubstitution ngroups m pre t'
                      else x :: GetSubstitution ngroups m pre t
                  end
              end
        end
      else x :: GetSubstitution ngroups m pre t
  end.

(** A regular expression object: the pattern and the [g] flag. *)
Record regexp : Type := MkRegExp {
  source : regex;
  global : bool
}.

Definition RegExp (pattern flags : jsstring) : option regexp :=
  match parse pattern with
  | Some r =>
      if jseqb flags [] then Some (MkRegExp r false)
      else if jseqb flags ["g"] then Some (MkRegExp r true)
      else None
  | None => None
  end.

(** The loop of [replace] for a pattern with the [g] flag: [pre] is the
    text of the subject before [s].  After an empty match the search
    resumes one character further. *)
Fixpoint replace_loop (fuel : nat) (r : regex) (template input pre s : jsstring)
  {struct fuel} : jsstring :=
  match fuel with
  | 0 => s
  | S fuel' =>
      match search input r [] s with
      | None => s
      | Some m =>
          before m ++ GetSubstitution (length (groups r)) m (pre ++ before m) template ++
          match matched m, after m with
          | [], [] => []
          | [], x :: s' => x :: replace_loop fuel' r template input (pre ++ before m ++ [x]) s'
          | _ :: _, s' => replace_loop fuel' r template input (pre ++ before m ++ matched m) s'
          end
      end
  end.

(** [input.replace(re, template)]. *)
Definition replace (re : regexp) (template input : jsstring) : jsstring :=
  if global re then replace_loop (S (length input)) (source re) template input [] input
  else
    match exec (source re) input with
    | None => input
    | Some m =>
        before m ++ GetSubstitution (length (groups (source re))) m (before m) template ++ after m
    end.

End JsRegExp.

(** ** The converter *)

Import JsRegExp.

(** [escape]: every syntax character of the string gets a backslash. *)
Definition escape (str : jsstring) : jsstring :=
  flat_map (fun c => if syntax_char c then ["\"; c] else [c]) str.

Definition fence : jsstring := js "```".

Definition bind {A B : Type} (x : option A) (f : A -> option B) : option B :=
  match x with Some a => f a | None => None end.

Notation "x <- e ;; k" := (bind e (fun x => k))
  (at level 61, e at next level, right associativity).

(** The string rewrites of [literateToMdFile]: [eol] is [os.EOL], [lang]
    the language tag, [open] and [close] the delimiters of the
    configuration. *)
Definition rewrite (eol lang open close contents : jsstring) : option jsstring :=
  let open := escape open in
  let close := escape close in
  startRegex <- RegExp (js "^(\r?\n)*" ++ open ++ js "(\r?\n)+") [] ;;
  let contents :=
    if test (source startRegex) contents then replace startRegex [] contents
    else fence ++ lang ++ eol ++ contents in
  endRegex <- RegExp (js "(\r?\n)+" ++ close ++ js "(\r?\n)*$") [] ;;
  let contents :=
    if test (source endRegex) contents then replace endRegex [] contents
    else contents ++ eol ++ fence in
  closeRegex <- RegExp (js "(\r?\n)+" ++ close ++ js "(\r?\n)+") (js "g") ;;
  let contents := replace closeRegex (eol ++ eol ++ fence ++ lang ++ eol) contents in
  openRegex <- RegExp (js "(\r?\n)+" ++ open ++ js "(\r?\n)+") (js "g") ;;
  Some (replace openRegex (eol ++ fence ++ eol ++ eol) contents).

(** ** Paths: [path.parse], [path.format] and [path.join] of Node.js, POSIX flavour *)

Module Path.

Definition is_slash (c : ascii) : bool := Ascii.eqb c "/".

Fixpoint drop_slashes (p : jsstring) : jsstring :=
  match p with
  | c :: p' => if is_slash c then drop_slashes p' else p
  | [] => []
  end.

(** The segments of a path between its slashes. *)
Fixpoint segments (p : jsstring) : list jsstring :=
  match p with
  | [] => [[]]
  | c :: p' =>
      if is_slash c then [] :: segments p'
      else match segments p' with
           | seg :: segs => (c :: seg) :: segs
           | [] => [[c]]
           end
  end.

(** [split_last c s]: [s] cut at its last [c], as [Some (left, right)]. *)
Fixpoint split_last (c : ascii) (s : jsstring) : option (jsstring * jsstring) :=
  match s with
  | [] => None
  | x :: s' =>
      match split_last c s' with
      | Some (l, r) => Some (x :: l, r)
      | None => if Ascii.eqb x c then Some ([], s') else None
      end
  end.

Record parsed : Type := Parsed {
  dir : jsstring;
  name : jsstring;
  ext : jsstring
}.

(** The name and the extension of a last path component: the extension
    starts at the last dot, unless that dot is the first character or the
    component is [..]. *)
Definition name_ext (base : jsstring) : jsstring * jsstring :=
  match split_last "." base with
  | Some (l, r) =>
      if jseqb l [] || jseqb base (js "..") then (base, [])
      else (l, "." :: r)
  | None => (base, [])
  end.

(** [path.parse(p)], the fields the program reads. *)
Definition parse (p : jsstring) : parsed :=
  let absolute := match p with c :: _ => is_slash c | [] => false end in
  let root := if absolute then ["/"] else [] in
  let body := if absolute then tl p else p in
  let trimmed := rev (drop_slashes (rev body)) in
  match split_last "/" trimmed with
  | Some (d, base) =>
      let (n, e) := name_ext base in Parsed (root ++ d) n e
  | None =>
      let (n, e) := name_ext trimmed in Parsed root n e
  end.

(** [path.format({ dir, name, ext })]. *)
Definition format (d n e : jsstring) : jsstring :=
  match d with
  | [] => n ++ e
  | _ :: _ => d ++ "/" :: n ++ e
  end.

Definition normalize_step (above : bool) (stack : list jsstring) (seg : jsstring)
  : list jsstring :=
  if jseqb seg [] || jseqb seg (js ".") then stack
  else if jseqb seg (js "..") then
    match stack with
    | top :: rest =>
        if jseqb top (js "..") then (if above then seg :: stack else stack) else rest
    | [] => if above then [seg] else []
    end
  else seg :: stack.

Fixpoint unsegments (segs : list jsstring) : jsstring :=
  match segs with
  | [] => []
  | [seg] => seg
  | seg :: segs' => seg ++ "/" :: unsegments segs'
  end.

(** [path.normalize(p)]. *)
Definition normalize (p : jsstring) : jsstring :=
  match p with
  | [] => js "."
  | c :: _ =>
      let absolute := is_slash c in
      let trailing := match rev p with x :: _ => is_slash x | [] => false end in
      let res := unsegments (rev (fold_left (normalize_step (negb absolute)) (segments p) [])) in
      match res with
      | [] => if absolute then js "/" else if trailing then js "./" else js "."
      | _ :: _ =>
          (if absolute then ["/"] else []) ++ res ++ (if trailing then ["/"] else [])
      end
  end.

(** [path.join(a, b)]. *)
Definition join (a b : jsstring) : jsstring :=
  match a, b with
  | [], [] => js "."
  | [], _ => normalize b
  | _, [] => normalize a
  | _, _ => normalize (a ++ "/" :: b)
  end.

End Path.

(** ** The configuration table *)

(** An entry of [literate-to-md.json]. *)
Record LanguageConfig : Type := MkLanguageConfig {
  open : jsstring;
  close : jsstring;
  lang : option jsstring
}.

(** The own properties of the object [require] gives for the table. *)
Definition Config := list (jsstring * LanguageConfig).

Fixpoint own_property (config : Config) (key : jsstring) : option LanguageConfig :=
  match config with
  | [] => None
  | (k, v) :: config' => if jseqb k key then Some v else own_property config' key
  end.

(** The table is an ordinary object: a key it does not have is looked up
    in [Object.prototype]. *)
Definition object_prototype : list jsstring :=
  map js ["constructor"; "__proto__"; "hasOwnProperty"; "isPrototypeOf";
          "propertyIsEnumerable"; "toLocaleString"; "toString"; "valueOf";
          "__defineGetter__"; "__defineSetter__"; "__lookupGetter__";
          "__lookupSetter__"]%string.

(** What [config[key]] evaluates to when it is not [undefined]: an entry
    of the table, or a member of [Object.prototype], which has none of the
    fields [open], [close], [lang]. *)
Inductive property : Type :=
| Entry : LanguageConfig -> property
| Inherited : property.

Definition get (config : Config) (key : jsstring) : option property :=
  match own_property config key with
  | Some v => Some (Entry v)
  | None => if existsb (jseqb key) object_prototype then Some Inherited else None
  end.

(** ** The file system and the run *)

Inductive error : Type :=
| StatFailure : jsstring -> error
| ReaddirFailure : jsstring -> error
| MkdirFailure : jsstring -> error
| ReadFailure : jsstring -> error
| WriteFailure : jsstring -> error
| TypeError : error
| SyntaxError : error.

(** What a call does to the file system and the console, in order. *)
Inductive effect : Type :=
| Stat : jsstring -> effect
| Readdir : jsstring -> effect
| Mkdir : jsstring -> effect
| ReadFile : jsstring -> effect
| WriteFile : jsstring -> jsstring -> effect
| Log : jsstring -> jsstring -> effect.

(** What is under an input path. *)
#[warnings="-register-all"]
Inductive node : Type :=
| File : jsstring -> node
| Unreadable : node
| Absent : node
| Locked : node
| Dir : list (jsstring * node) -> node.

(** What the run depends on besides its arguments: [os.EOL], the table,
    which directories can be made and which files written, and the order
    in which the pending operations complete ([clock] gives each input
    path the time at which its promise is settled). *)
Record environment : Type := MkEnvironment {
  eol : jsstring;
  config : Config;
  can_mkdir : jsstring -> bool;
  can_write : jsstring -> bool;
  clock : jsstring -> nat
}.

(** A settled promise: what was done, and the rejection if any. *)
Record outcome : Type := MkOutcome {
  effects : list effect;
  rejection : option error
}.

Definition substr1 (s : jsstring) : jsstring := tl s.

(** [l || d] for an optional string [l]: the empty string is falsy. *)
Definition lang_or (l : option jsstring) (d : jsstring) : jsstring :=
  match l with
  | Some (x :: l') => x :: l'
  | _ => d
  end.

Definition literateToMdFile (env : environment) (file : node) (input output : jsstring)
  : outcome :=
  let p := Path.parse output in
  match get (config env) (substr1 (Path.ext p)) with
  | None => MkOutcome [] None
  | Some langConfig =>
      if negb (can_mkdir env (Path.dir p)) then
        MkOutcome [] (Some (MkdirFailure (Path.dir p)))
      else
        let output := Path.format (Path.dir p) (Path.name p) (js ".md") in
        match file with
        | File contents =>
            match langConfig with
            | Inherited => MkOutcome [Mkdir (Path.dir p); ReadFile input] (Some TypeError)
            | Entry c =>
                let lang := lang_or (lang c) (substr1 (Path.ext p)) in
                match rewrite (eol env) lang (open c) (close c) contents with
                | None => MkOutcome [Mkdir (Path.dir p); ReadFile input] (Some SyntaxError)
                | Some contents =>
                    if can_write env output then
                      MkOutcome [Mkdir (Path.dir p); ReadFile input;
                                 WriteFile output contents; Log input output] None
                    else
                      MkOutcome [Mkdir (Path.dir p); ReadFile input]
                        (Some (WriteFailure output))
                end
            end
        | _ => MkOutcome [Mkdir (Path.dir p)] (Some (ReadFailure input))
        end
  end.

(** [Promise.all]: fulfilled when every promise is, rejected with the
    first rejection in time otherwise. *)
Definition earlier (a b : option (nat * error)) : option (nat * error) :=
  match a, b with
  | Some (t, e), Some (t', e') => if t' <? t then Some (t', e') else Some (t, e)
  | Some x, None => Some x
  | None, b => b
  end.

Definition Promise_all (settled : list (option (nat * error))) : option (nat * error) :=
  fold_left earlier settled None.

(** The walk: what every call does when all of them are left to settle,
    and the rejection of the promise of the outermost call with its
    time.  The calls for the entries of a directory run concurrently:
    the list gives their effects entry by entry, which is no order in
    time, and it is an upper bound of what a run does, since nobody
    handles the rejection of the outermost call and the run may end
    with it. *)
Fixpoint literateToMd (env : environment) (n : node) (input output : jsstring)
  {struct n} : list effect * option (nat * error) :=
  match n with
  | Absent => ([], Some (clock env input, StatFailure input))
  | Locked => ([Stat input], Some (clock env input, ReaddirFailure input))
  | Dir entries =>
      let children :=
        (fix each (es : list (jsstring * node)) : list (list effect * option (nat * error)) :=
           match es with
           | [] => []
           | (i, child) :: es' =>
               literateToMd env child (Path.join input i) (Path.join output i) :: each es'
           end) entries in
      (Stat input :: Readdir input :: concat (map fst children),
       Promise_all (map snd children))
  | File _ | Unreadable =>
      let o := literateToMdFile env n input output in
      (Stat input :: effects o,
       match rejection o with
       | Some e => Some (clock env input, e)
       | None => None
       end)
  end.

(** The run of the program: the outermost call, whose promise nobody
    handles.  [reported] is what the run has to show for its failures: the
    rejection of that promise. *)
Definition run (env : environment) (tree : node) (input output : jsstring)
  : list effect * option (nat * error) :=
  literateToMd env tree input output.

Definition reported (r : list effect * option (nat * error)) : list error :=
  match snd r with
  | Some (_, e) => [e]
  | None => []
  end.

(** ** Line breaks *)

Definition nl : jsstring := [LF].
Definition crlf : jsstring := [CR; LF].

(** * Properties *)

(** ** The scenario of the specification *)

Definition foo_config : Config :=
  [(js "foo", MkLanguageConfig (js "/*") (js "*/") (Some (js "c")))].

Definition scenario_input (lb1 lb2 lb3 : jsstring) : jsstring :=
  js "/*" ++ lb1 ++ js "Hello prose." ++ lb2 ++ js "*/" ++ lb3 ++ js "int x = 1;".

Definition scenario_output (eol : jsstring) : jsstring :=
  js "Hello prose." ++ eol ++ eol ++ js "```c" ++ eol ++ js "int x = 1;" ++ eol ++ js "```".

Lemma scenario_rewrite (e lb1 lb2 lb3 : jsstring) :
  In e [nl; crlf] -> In lb1 [nl; crlf] -> In lb2 [nl; crlf] -> In lb3 [nl; crlf] ->
  rewrite e (js "c") (js "/*") (js "*/") (scenario_input lb1 lb2 lb3)
  = Some (scenario_output e).
Proof.
  simpl; intros He H1 H2 H3.
  repeat match goal with
         | H : _ \/ _ |- _ => destruct H as [H | H]
         | H : False |- _ => destruct H
         end; subst; vm_compute; reflexivity.
Qed.

(** C1: with [open = "/*"], [close = "*/"], [lang = "c"] for the extension
    [foo], the file made of the open delimiter line, the line
    [Hello prose.], the close delimiter line and the code [int x = 1;] up
    to the end of the file is written as [Hello prose.], a blank line, the
    fence line with the tag [c], the code line and the closing fence line,
    and nothing else. *)
Theorem C1_scenario (env : environment) (input output lb1 lb2 lb3 : jsstring) :
  config env = foo_config ->
  In (eol env) [nl; crlf] ->
  In lb1 [nl; crlf] -> In lb2 [nl; crlf] -> In lb3 [nl; crlf] ->
  Path.ext (Path.parse output) = js ".foo" ->
  can_mkdir env (Path.dir (Path.parse output)) = true ->
  can_write env (Path.format (Path.dir (Path.parse output))
                   (Path.name (Path.parse output)) (js ".md")) = true ->
  literateToMdFile env (File (scenario_input lb1 lb2 lb3)) input output
  = MkOutcome
      [Mkdir (Path.dir (Path.parse output)); ReadFile input;
       WriteFile (Path.format (Path.dir (Path.parse output))
                    (Path.name (Path.parse output)) (js ".md"))
         (scenario_output (eol env));
       Log input (Path.format (Path.dir (Path.parse output))
                    (Path.name (Path.parse output)) (js ".md"))]
      None.
Proof.
  intros Hc He H1 H2 H3 Hx Hm Hw.
  unfold literateToMdFile.
  rewrite Hx, Hc, Hm.
  change (get foo_config (substr1 (js ".foo")))
    with (Some (Entry (MkLanguageConfig (js "/*") (js "*/") (Some (js "c"))))).
  cbn [negb lang open close].
  change (lang_or (Some (js "c")) (substr1 (js ".foo"))) with (js "c").
  rewrite (scenario_rewrite He H1 H2 H3).
  rewrite Hw. reflexivity.
Qed.

Definition posix_env : environment :=
  MkEnvironment nl foo_config (fun _ => true) (fun _ => true) (fun _ => 0).

Lemma C1_scenario_witness :
  literateToMdFile posix_env (File (scenario_input nl nl nl)) (js "src/a.foo") (js "md/a.foo")
  = MkOutcome
      [Mkdir (js "md"); ReadFile (js "src/a.foo");
       WriteFile (js "md/a.md") (scenario_output nl);
       Log (js "src/a.foo") (js "md/a.md")]
      None.
Proof.
  apply (@C1_scenario posix_env (js "src/a.foo") (js "md/a.foo") nl nl nl);
    first [ reflexivity | simpl; auto ].
Defined.

(** ** The patterns of the program *)

(** [\r?\n] *)
Definition line_break : regex := seq_of [Opt (Chr CR); Chr LF].

(** The three shapes of pattern the program builds around a delimiter
    that is matched character by character. *)
Definition start_pattern (d : jsstring) : regex :=
  seq_of ([AtStart; Star (Group 1 line_break)] ++ map Chr d ++ [Plus (Group 2 line_break)]).

Definition end_pattern (d : jsstring) : regex :=
  seq_of ([Plus (Group 1 line_break)] ++ map Chr d ++ [Star (Group 2 line_break); AtEnd]).

Definition interior_pattern (d : jsstring) : regex :=
  seq_of ([Plus (Group 1 line_break)] ++ map Chr d ++ [Plus (Group 2 line_break)]).

(** [starts_with d s]: [d] is at the beginning of [s]. *)
Fixpoint starts_with (d s : jsstring) : bool :=
  match d, s with
  | [], _ => true
  | x :: d', y :: s' => Ascii.eqb y x && starts_with d' s'
  | _ :: _, [] => false
  end.

Section PatternSyntax.

Lemma escape_token_syntax (c : ascii) :
  syntax_char c = true -> escape_token c = Some (TChar c).
Proof.
  destruct c as [[] [] [] [] [] [] [] []]; vm_compute; intros H;
    first [ reflexivity | discriminate H ].
Qed.

Lemma plain_token_literal (c : ascii) :
  syntax_char c = false -> Ascii.eqb c "\" = false /\ plain_token c = TChar c.
Proof.
  destruct c as [[] [] [] [] [] [] [] []]; vm_compute; intros H;
    first [ split; reflexivity | discriminate H ].
Qed.

Lemma lex_escape_app (d rest : jsstring) :
  lex (escape d ++ rest) = option_map (app (map TChar d)) (lex rest).
Proof.
  induction d as [|c d IH]; simpl.
  - destruct (lex rest); reflexivity.
  - destruct (syntax_char c) eqn:Hc.
    + cbn [app lex]. change (Ascii.eqb "\" "\") with true. cbv iota.
      rewrite (escape_token_syntax _ Hc), IH.
      destruct (lex rest); reflexivity.
    + destruct (plain_token_literal _ Hc) as [Hb Hp].
      cbn [app lex]. rewrite Hb, Hp, IH.
      destruct (lex rest); reflexivity.
Qed.

Lemma psteps_app (ts1 ts2 : list token) (st : pstate) :
  psteps st (ts1 ++ ts2) =
  match psteps st ts1 with
  | Some st' => psteps st' ts2
  | None => None
  end.
Proof.
  revert st; induction ts1 as [|t ts1 IH]; intros st; simpl; [reflexivity|].
  destruct (pstep st t); [apply IH | reflexivity].
Qed.

Lemma psteps_chars (d : jsstring) (st : pstate) :
  psteps st (map TChar d) =
  Some (PState (next_group st)
          (rev (map (fun c => (Chr c, KAtom)) d) ++ current st) (enclosing st)).
Proof.
  revert st; induction d as [|c d IH]; intros st; simpl.
  - destruct st; reflexivity.
  - rewrite IH. simpl. rewrite <- app_assoc. reflexivity.
Qed.

Lemma close_terms_chars (d : jsstring) (before after : list (regex * term_kind)) :
  close_terms (after ++ rev (map (fun c => (Chr c, KAtom)) d) ++ before)
  = seq_of (map fst (rev before) ++ map Chr d ++ map fst (rev after)).
Proof.
  unfold close_terms.
  rewrite !rev_app_distr, rev_involutive, !map_app, map_map, <- app_assoc.
  reflexivity.
Qed.

(** A pattern made of [pre], an escaped string and [post] is read as the
    terms of [pre], the characters of the string and the terms of
    [post], when [post] opens with a group. *)
Lemma parse_around (pre post d : jsstring) (tpre tpost : list token)
  (n : nat) (before after : list (regex * term_kind)) :
  lex (pre ++ escape d ++ post) = Some (tpre ++ map TChar d ++ tpost) ->
  psteps (PState 1 [] []) tpre = Some (PState n before []) ->
  (forall cur, psteps (PState n cur []) tpost = Some (PState (S n) (after ++ cur) [])) ->
  parse (pre ++ escape d ++ post)
  = Some (seq_of (map fst (rev before) ++ map Chr d ++ map fst (rev after))).
Proof.
  intros Hlex Hpre Hpost. unfold parse.
  rewrite Hlex, psteps_app, Hpre, psteps_app, psteps_chars. cbn [next_group current enclosing].
  rewrite Hpost. unfold pfinish. cbn [enclosing current].
  apply f_equal, close_terms_chars.
Qed.

End PatternSyntax.

Lemma lex_plus_group (d : jsstring) (tpre : list token) (pre : jsstring) :
  (forall rest, lex (pre ++ rest) = option_map (app tpre) (lex rest)) ->
  lex (pre ++ escape d ++ js "(\r?\n)+")
  = Some (tpre ++ map TChar d ++ [TOpen; TChar CR; TQuest; TChar LF; TClose; TPlus]).
Proof.
  intros H. rewrite H, lex_escape_app. reflexivity.
Qed.

Lemma lex_star_group_end (d : jsstring) (tpre : list token) (pre : jsstring) :
  (forall rest, lex (pre ++ rest) = option_map (app tpre) (lex rest)) ->
  lex (pre ++ escape d ++ js "(\r?\n)*$")
  = Some (tpre ++ map TChar d ++ [TOpen; TChar CR; TQuest; TChar LF; TClose; TStar; TDollar]).
Proof.
  intros H. rewrite H, lex_escape_app. reflexivity.
Qed.

Lemma lex_start_prefix (rest : jsstring) :
  lex (js "^(\r?\n)*" ++ rest)
  = option_map (app [TCaret; TOpen; TChar CR; TQuest; TChar LF; TClose; TStar]) (lex rest).
Proof. cbn. destruct (lex rest); reflexivity. Qed.

Lemma lex_plus_prefix (rest : jsstring) :
  lex (js "(\r?\n)+" ++ rest)
  = option_map (app [TOpen; TChar CR; TQuest; TChar LF; TClose; TPlus]) (lex rest).
Proof. cbn. destruct (lex rest); reflexivity. Qed.

Lemma RegExp_start (d : jsstring) :
  RegExp (js "^(\r?\n)*" ++ escape d ++ js "(\r?\n)+") []
  = Some (MkRegExp (start_pattern d) false).
Proof.
  unfold RegExp.
  rewrite (@parse_around _ _ d _ _ 2
             [(Star (Group 1 line_break), KQuantified); (AtStart, KAssertion)]
             [(Plus (Group 2 line_break), KQuantified)]
             (@lex_plus_group d _ _ lex_start_prefix));
    reflexivity.
Qed.

Lemma RegExp_end (d : jsstring) :
  RegExp (js "(\r?\n)+" ++ escape d ++ js "(\r?\n)*$") []
  = Some (MkRegExp (end_pattern d) false).
Proof.
  unfold RegExp.
  rewrite (@parse_around _ _ d _ _ 2
             [(Plus (Group 1 line_break), KQuantified)]
             [(AtEnd, KAssertion); (Star (Group 2 line_break), KQuantified)]
             (@lex_star_group_end d _ _ lex_plus_prefix));
    reflexivity.
Qed.

Lemma RegExp_interior (d : jsstring) :
  RegExp (js "(\r?\n)+" ++ escape d ++ js "(\r?\n)+") (js "g")
  = Some (MkRegExp (interior_pattern d) true).
Proof.
  unfold RegExp.
  rewrite (@parse_around _ _ d _ _ 2
             [(Plus (Group 1 line_break), KQuantified)]
             [(Plus (Group 2 line_break), KQuantified)]
             (@lex_plus_group d _ _ lex_plus_prefix));
    reflexivity.
Qed.

(** The characters of a string at the head of a pattern match that
    string and nothing else. *)
Lemma rmatch_chars (input d : jsstring) (rs : list regex) (k : cont) (s : jsstring) (c : caps) :
  rmatch input (seq_of (map Chr d ++ rs)) k s c
  = if starts_with d s then rmatch input (seq_of rs) k (skipn (length d) s) c else None.
Proof.
  revert s; induction d as [|x d IH]; intros s; simpl.
  - reflexivity.
  - destruct s as [|y s]; [reflexivity|].
    destruct (Ascii.eqb y x); simpl; [apply IH | reflexivity].
Qed.

(** [rewrite] with its four patterns read. *)
Definition rewrite_with (eol lang open close contents : jsstring) : jsstring :=
  let startRegex := MkRegExp (start_pattern open) false in
  let contents :=
    if test (source startRegex) contents then replace startRegex [] contents
    else fence ++ lang ++ eol ++ contents in
  let endRegex := MkRegExp (end_pattern close) false in
  let contents :=
    if test (source endRegex) contents then replace endRegex [] contents
    else contents ++ eol ++ fence in
  let contents :=
    replace (MkRegExp (interior_pattern close) true) (eol ++ eol ++ fence ++ lang ++ eol)
      contents in
  replace (MkRegExp (interior_pattern open) true) (eol ++ fence ++ eol ++ eol) contents.

Lemma rewrite_total (eol lang open close contents : jsstring) :
  rewrite eol lang open close contents = Some (rewrite_with eol lang open close contents).
Proof.
  unfold rewrite, rewrite_with.
  rewrite RegExp_start, RegExp_end, !RegExp_interior. reflexivity.
Qed.

(** An unescaped delimiter is read as pattern syntax: [/-*] is a slash and
    any number of dashes. *)
Example unescaped_delimiter :
  parse (js "(\r?\n)+" ++ js "/-*" ++ js "(\r?\n)+")
  = Some (seq_of [Plus (Group 1 line_break); Chr "/"; Star (Chr "-"); Plus (Group 2 line_break)]).
Proof. reflexivity. Qed.

(** ** What the patterns match

    The patterns of the program, for a delimiter that does not begin with
    a line-break character, leave the matcher no choice: a run of line
    breaks is taken whole.  The functions below say what is matched; the
    lemmas after them relate them to [rmatch]. *)

Definition is_break_char (c : ascii) : bool := Ascii.eqb c CR || Ascii.eqb c LF.

(** One line break, [\n] or [\r\n], at the head of [s]. *)
Definition eat_break (s : jsstring) : option jsstring :=
  match s with
  | x :: s' =>
      if Ascii.eqb x LF then Some s'
      else if Ascii.eqb x CR then
        match s' with
        | y :: s'' => if Ascii.eqb y LF then Some s'' else None
        | [] => None
        end
      else None
  | [] => None
  end.

(** The longest run of line breaks at the head of [s], with the captures
    of group [n] as its iterations set them. *)
Fixpoint break_run (n : nat) (s : jsstring) (c : caps) {struct s} : jsstring * caps :=
  match s with
  | x :: s' =>
      if Ascii.eqb x LF then break_run n s' ((n, [LF]) :: clear [n] c)
      else if Ascii.eqb x CR then
        match s' with
        | y :: s'' =>
            if Ascii.eqb y LF then break_run n s'' ((n, [CR; LF]) :: clear [n] c) else (s, c)
        | [] => (s, c)
        end
      else (s, c)
  | [] => ([], c)
  end.

Fixpoint skip_breaks (s : jsstring) : jsstring :=
  match s with
  | x :: s' =>
      if Ascii.eqb x LF then skip_breaks s'
      else if Ascii.eqb x CR then
        match s' with
        | y :: s'' => if Ascii.eqb y LF then skip_breaks s'' else s
        | [] => s
        end
      else s
  | [] => []
  end.

(** A delimiter preceded by any number of line breaks and followed by at
    least one: what is left after the line breaks that follow. *)
Definition start_at (d s : jsstring) : option jsstring :=
  let s1 := skip_breaks s in
  if starts_with d s1 then
    match eat_break (skipn (length d) s1) with
    | Some s2 => Some (skip_breaks s2)
    | None => None
    end
  else None.

(** A delimiter with at least one line break on each side. *)
Definition interior_at (d s : jsstring) : option jsstring :=
  match eat_break s with
  | Some s0 => start_at d s0
  | None => None
  end.

(** A delimiter preceded by at least one line break and followed by line
    breaks only, up to the end of the text. *)
Definition end_at (d s : jsstring) : bool :=
  match eat_break s with
  | Some s0 =>
      let s1 := skip_breaks s0 in
      starts_with d s1 &&
      match skip_breaks (skipn (length d) s1) with [] => true | _ :: _ => false end
  | None => false
  end.

(** A delimiter the patterns leave no choice for: it has a first
    character, which is not a line-break character. *)
Definition plain_head (d : jsstring) : bool :=
  match d with
  | x :: _ => negb (is_break_char x)
  | [] => false
  end.

Section Matching.

Variable input : jsstring.

Lemma clear_nil (c : caps) : clear [] c = c.
Proof.
  induction c as [|e c IH]; [reflexivity|].
  unfold clear in *. cbn [filter]. cbn [existsb negb]. now f_equal.
Qed.

Lemma eat_break_shorter (s s' : jsstring) :
  eat_break s = Some s' -> length s' < length s.
Proof.
  destruct s as [|x [|y s]]; simpl; try discriminate.
  - destruct (Ascii.eqb x LF); [intros [= <-]; simpl; lia|].
    destruct (Ascii.eqb x CR); discriminate.
  - destruct (Ascii.eqb x LF); [intros [= <-]; simpl; lia|].
    destruct (Ascii.eqb x CR); [|discriminate].
    destruct (Ascii.eqb y LF); [intros [= <-]; simpl; lia | discriminate].
Qed.

(** [skip_breaks] and [break_run], one line break at a time. *)
Lemma skip_breaks_eq (s : jsstring) :
  skip_breaks s = match eat_break s with Some s' => skip_breaks s' | None => s end.
Proof.
  destruct s as [|x t]; [reflexivity|].
  cbn [skip_breaks eat_break].
  destruct (Ascii.eqb x LF); [reflexivity|].
  destruct (Ascii.eqb x CR); [|reflexivity].
  destruct t as [|y t]; [reflexivity|].
  destruct (Ascii.eqb y LF); reflexivity.
Qed.

Lemma break_run_eq (n : nat) (s : jsstring) (c : caps) :
  break_run n s c
  = match eat_break s with
    | Some s' => break_run n s' ((n, firstn (length s - length s') s) :: clear [n] c)
    | None => (s, c)
    end.
Proof.
  destruct s as [|x t]; [reflexivity|].
  cbn [break_run eat_break].
  destruct (Ascii.eqb x LF) eqn:Hx.
  - apply Ascii.eqb_eq in Hx; subst x.
    replace (length (LF :: t) - length t) with 1 by (cbn [length]; lia). reflexivity.
  - destruct (Ascii.eqb x CR) eqn:Hc; [|reflexivity].
    apply Ascii.eqb_eq in Hc; subst x.
    destruct t as [|y t]; [reflexivity|].
    destruct (Ascii.eqb y LF) eqn:Hy; [|reflexivity].
    apply Ascii.eqb_eq in Hy; subst y.
    replace (length (CR :: LF :: t) - length t) with 2 by (cbn [length]; lia). reflexivity.
Qed.

Lemma skip_breaks_run (n : nat) (s : jsstring) (c : caps) :
  fst (break_run n s c) = skip_breaks s.
Proof.
  revert c. induction s as [s IH] using (induction_ltof1 _ (@length ascii)).
  unfold ltof in IH. intros c.
  rewrite break_run_eq, skip_breaks_eq.
  destruct (eat_break s) as [s'|] eqn:E; [|reflexivity].
  apply IH. now apply eat_break_shorter.
Qed.

(** One line break in group [n]. *)
Lemma rmatch_break (n : nat) (k : cont) (s : jsstring) (c : caps) :
  rmatch input (Group n line_break) k s c
  = match eat_break s with
    | Some s' => k s' ((n, firstn (length s - length s') s) :: c)
    | None => None
    end.
Proof.
  cbn [rmatch line_break seq_of groups]. rewrite clear_nil.
  destruct s as [|x s]; [reflexivity|].
  cbn [eat_break].
  destruct (Ascii.eqb x CR) eqn:Hx.
  - apply Ascii.eqb_eq in Hx; subst x.
    change (Ascii.eqb CR LF) with false. cbv iota.
    change (length s <? length (CR :: s)) with (length s <? S (length s)).
    destruct (Nat.ltb_spec (length s) (S (length s))) as [_|]; [|lia].
    destruct s as [|y s]; [reflexivity|].
    destruct (Ascii.eqb y LF); [|reflexivity].
    destruct (k s _); reflexivity.
  - destruct (Ascii.eqb x LF); reflexivity.
Qed.


(** One or more line breaks in group [n]. *)
Definition after_breaks (n : nat) (s : jsstring) (c : caps) : option (jsstring * caps) :=
  match eat_break s with
  | Some s' => Some (break_run n s' ((n, firstn (length s - length s') s) :: clear [n] c))
  | None => None
  end.

(** A continuation that leaves a run of line breaks no choice: it fails
    in front of a line break, or it never fails. *)
Definition committed (k : cont) : Prop :=
  (forall s c, eat_break s <> None -> k s c = None) \/ (forall s c, k s c <> None).

Lemma iterate_breaks (n : nat) (k : cont) (fuel : nat) (s : jsstring) (c : caps) :
  committed k -> length s <= fuel ->
  iterate (fun k' s' c' => rmatch input (Group n line_break) k' s' (clear [n] c')) k fuel s c
  = k (fst (break_run n s c)) (snd (break_run n s c)).
Proof.
  intros Hk. revert s c. induction fuel as [|fuel IH]; intros s c Hlen.
  - destruct s; [reflexivity | simpl in Hlen; lia].
  - cbn [iterate]. rewrite rmatch_break, break_run_eq.
    destruct (eat_break s) as [s'|] eqn:E; [|reflexivity].
    pose proof (eat_break_shorter _ E) as Hs.
    destruct (Nat.ltb_spec (length s') (length s)) as [_|]; [|lia].
    rewrite IH by lia.
    destruct (k (fst _) (snd _)) eqn:Ek; [reflexivity|].
    destruct Hk as [Hk|Hk].
    + apply Hk. rewrite E. discriminate.
    + now apply Hk in Ek.
Qed.

Lemma rmatch_plus_eq (r : regex) (k : cont) (s : jsstring) (c : caps) :
  rmatch input (Plus r) k s c
  = rmatch input r
      (fun s1 c1 =>
         iterate (fun k' s' c' => rmatch input r k' s' (clear (groups r) c')) k
           (length s1) s1 c1)
      s (clear (groups r) c).
Proof. reflexivity. Qed.

Lemma rmatch_star_break (n : nat) (k : cont) (s : jsstring) (c : caps) :
  committed k ->
  rmatch input (Star (Group n line_break)) k s c
  = k (fst (break_run n s c)) (snd (break_run n s c)).
Proof.
  intros Hk. cbn [rmatch].
  change (groups (Group n line_break)) with [n].
  now apply iterate_breaks.
Qed.

Lemma rmatch_plus_break (n : nat) (k : cont) (s : jsstring) (c : caps) :
  committed k ->
  rmatch input (Plus (Group n line_break)) k s c
  = match after_breaks n s c with
    | Some r => k (fst r) (snd r)
    | None => None
    end.
Proof.
  intros Hk. rewrite rmatch_plus_eq.
  change (groups (Group n line_break)) with [n].
  rewrite rmatch_break. unfold after_breaks.
  destruct (eat_break s) as [s'|]; [|reflexivity].
  now apply iterate_breaks.
Qed.

Lemma committed_accept : committed accept.
Proof. right. discriminate. Qed.

Lemma starts_with_break (d s : jsstring) :
  plain_head d = true -> eat_break s <> None -> starts_with d s = false.
Proof.
  destruct d as [|x d]; [discriminate|].
  destruct s as [|y s]; [reflexivity|].
  cbn [plain_head starts_with eat_break]. unfold is_break_char.
  intros Hx Hs.
  destruct (Ascii.eqb y x) eqn:E; [|reflexivity].
  apply Ascii.eqb_eq in E; subst y.
  destruct (Ascii.eqb x LF); [now rewrite orb_true_r in Hx|].
  destruct (Ascii.eqb x CR); [discriminate Hx | congruence].
Qed.

Lemma committed_chars (d : jsstring) (rs : list regex) (k : cont) :
  plain_head d = true ->
  committed (fun s c => rmatch input (seq_of (map Chr d ++ rs)) k s c).
Proof.
  intros Hd. left. intros s c Hs.
  now rewrite rmatch_chars, starts_with_break.
Qed.

Lemma committed_at_end : committed (fun s c => rmatch input (seq_of [AtEnd]) accept s c).
Proof.
  left. intros [|x s] c Hs; [now destruct Hs | reflexivity].
Qed.

(** The three patterns at a position. *)
Lemma rmatch_start (d s : jsstring) (c : caps) :
  plain_head d = true ->
  rmatch input (start_pattern d) accept s c
  = if Nat.eqb (length s) (length input) then
      let r := break_run 1 s c in
      if starts_with d (fst r) then after_breaks 2 (skipn (length d) (fst r)) (snd r)
      else None
    else None.
Proof.
  intros Hd. unfold start_pattern.
  cbn [app seq_of]. cbn [rmatch]. 
  destruct (Nat.eqb (length s) (length input)); [|reflexivity].
  change (iterate _ _ (length s) s c)
    with (rmatch input (Star (Group 1 line_break))
            (fun s' c' => rmatch input (seq_of (map Chr d ++ [Plus (Group 2 line_break)])) accept s' c')
            s c).
  rewrite rmatch_star_break by now apply committed_chars.
  rewrite rmatch_chars. cbv zeta.
  destruct (starts_with d _); [|reflexivity].
  change (rmatch input (seq_of [Plus (Group 2 line_break)]) accept)
    with (rmatch input (Plus (Group 2 line_break)) accept).
  rewrite rmatch_plus_break by apply committed_accept.
  destruct (after_breaks 2 _ _) as [[? ?]|]; reflexivity.
Qed.

Lemma rmatch_interior (d s : jsstring) (c : caps) :
  plain_head d = true ->
  rmatch input (interior_pattern d) accept s c
  = match after_breaks 1 s c with
    | Some r =>
        if starts_with d (fst r) then after_breaks 2 (skipn (length d) (fst r)) (snd r)
        else None
    | None => None
    end.
Proof.
  intros Hd. unfold interior_pattern.
  cbn [app seq_of].
  change (rmatch input (Cat ?a ?b) accept s c)
    with (rmatch input a (fun s' c' => rmatch input b accept s' c') s c).
  rewrite rmatch_plus_break by now apply committed_chars.
  destruct (after_breaks 1 s c) as [r|]; [|reflexivity].
  rewrite rmatch_chars.
  destruct (starts_with d _); [|reflexivity].
  change (rmatch input (seq_of [Plus (Group 2 line_break)]) accept)
    with (rmatch input (Plus (Group 2 line_break)) accept).
  rewrite rmatch_plus_break by apply committed_accept.
  destruct (after_breaks 2 _ _) as [[? ?]|]; reflexivity.
Qed.

Lemma rmatch_end (d s : jsstring) (c : caps) :
  plain_head d = true ->
  rmatch input (end_pattern d) accept s c
  = match after_breaks 1 s c with
    | Some r =>
        if starts_with d (fst r) then
          let r' := break_run 2 (skipn (length d) (fst r)) (snd r) in
          match fst r' with
          | [] => Some ([], snd r')
          | _ :: _ => None
          end
        else None
    | None => None
    end.
Proof.
  intros Hd. unfold end_pattern.
  cbn [app seq_of].
  change (rmatch input (Cat ?a ?b) accept s c)
    with (rmatch input a (fun s' c' => rmatch input b accept s' c') s c).
  rewrite rmatch_plus_break by now apply committed_chars.
  destruct (after_breaks 1 s c) as [r|]; [|reflexivity].
  rewrite rmatch_chars.
  destruct (starts_with d _); [|reflexivity].
  change (rmatch input (seq_of [Star (Group 2 line_break); AtEnd]) accept ?a ?b)
    with (rmatch input (Star (Group 2 line_break))
            (fun s' c' => rmatch input (seq_of [AtEnd]) accept s' c') a b).
  rewrite rmatch_star_break by apply committed_at_end.
  cbv zeta. destruct (fst (break_run 2 _ _)); reflexivity.
Qed.

Lemma rmatch_start_at (d s : jsstring) (c : caps) :
  plain_head d = true ->
  option_map fst (rmatch input (start_pattern d) accept s c)
  = if Nat.eqb (length s) (length input) then start_at d s else None.
Proof.
  intros Hd. rewrite rmatch_start by assumption.
  destruct (Nat.eqb _ _); [|reflexivity].
  unfold start_at, after_breaks. cbv zeta. rewrite skip_breaks_run.
  destruct (starts_with d _); [|reflexivity].
  destruct (eat_break _); [|reflexivity].
  cbn [option_map]. now rewrite skip_breaks_run.
Qed.

Lemma rmatch_interior_at (d s : jsstring) (c : caps) :
  plain_head d = true ->
  option_map fst (rmatch input (interior_pattern d) accept s c) = interior_at d s.
Proof.
  intros Hd. rewrite rmatch_interior by assumption.
  unfold interior_at, start_at, after_breaks.
  destruct (eat_break s); [|reflexivity].
  cbn [fst snd]. rewrite skip_breaks_run.
  destruct (starts_with d _); [|reflexivity].
  destruct (eat_break _); [|reflexivity].
  cbn [option_map]. now rewrite skip_breaks_run.
Qed.

Lemma rmatch_end_at (d s : jsstring) (c : caps) :
  plain_head d = true ->
  option_map fst (rmatch input (end_pattern d) accept s c)
  = if end_at d s then Some [] else None.
Proof.
  intros Hd. rewrite rmatch_end by assumption.
  unfold end_at, after_breaks.
  destruct (eat_break s); [|reflexivity].
  cbn [fst snd]. rewrite skip_breaks_run.
  destruct (starts_with d _); [|reflexivity].
  cbv zeta. rewrite skip_breaks_run. cbn [andb].
  destruct (skip_breaks _); reflexivity.
Qed.

End Matching.

(** The first position of [s] at which [at_] gives something: the text
    before that position and what [at_] gives there. *)
Fixpoint find (at_ : jsstring -> option jsstring) (s : jsstring)
  : option (jsstring * jsstring) :=
  match at_ s with
  | Some rest => Some ([], rest)
  | None =>
      match s with
      | [] => None
      | x :: s' =>
          match find at_ s' with
          | Some (u, rest) => Some (x :: u, rest)
          | None => None
          end
      end
  end.

Section Searching.

Variables (input : jsstring) (r : regex) (at_ : jsstring -> option jsstring).

Hypothesis rmatch_at :
  forall s, option_map fst (rmatch input r accept s []) = at_ s.

Lemma rmatch_at_none (s : jsstring) :
  at_ s = None -> rmatch input r accept s [] = None.
Proof.
  rewrite <- rmatch_at. now destruct (rmatch input r accept s []).
Qed.

Lemma rmatch_at_some (s rest : jsstring) :
  at_ s = Some rest -> exists c, rmatch input r accept s [] = Some (rest, c).
Proof.
  rewrite <- rmatch_at. destruct (rmatch input r accept s []) as [[s' c]|]; [|discriminate].
  intros [= <-]. now exists c.
Qed.

Lemma search_none (pre s : jsstring) :
  find at_ s = None -> search input r pre s = None.
Proof.
  revert pre. induction s as [|x s IH]; intros pre; cbn [find search].
  - destruct (at_ []) eqn:E; [discriminate|]. intros _.
    now rewrite (rmatch_at_none E).
  - destruct (at_ (x :: s)) eqn:E; [discriminate|].
    rewrite (rmatch_at_none E).
    destruct (find at_ s) as [[u rest]|]; [discriminate|].
    intros _. now apply IH.
Qed.

Lemma search_some (pre s u rest : jsstring) :
  find at_ s = Some (u, rest) ->
  exists c,
    search input r pre s
    = Some (Matched (rev pre ++ u)
              (firstn (length (skipn (length u) s) - length rest) (skipn (length u) s))
              rest c).
Proof.
  revert pre u. induction s as [|x s IH]; intros pre u; cbn [find search].
  - destruct (at_ []) eqn:E; [|discriminate].
    intros [= <- <-]. destruct (rmatch_at_some E) as [c ->].
    exists c. now rewrite app_nil_r.
  - destruct (at_ (x :: s)) eqn:E.
    + intros [= <- <-]. destruct (rmatch_at_some E) as [c ->].
      exists c. now rewrite app_nil_r.
    + rewrite (rmatch_at_none E).
      destruct (find at_ s) as [[u' rest']|] eqn:F; [|discriminate].
      intros [= <- <-].
      destruct (IH (x :: pre) u' eq_refl) as [c ->].
      exists c. cbn [rev length skipn]. now rewrite <- app_assoc.
Qed.

End Searching.

(** ** The steps of [rewrite], one by one *)

Definition end_here (d s : jsstring) : option jsstring :=
  if end_at d s then Some [] else None.

(** The text before the close delimiter that ends the text, if there is
    one. *)
Definition end_strip (d s : jsstring) : option jsstring :=
  option_map fst (find (end_here d) s).

Definition no_dollar (t : jsstring) : bool :=
  forallb (fun c => negb (Ascii.eqb c "$")) t.

(** The substitution of every delimiter that has line breaks on both
    sides by [t], from left to right. *)
Fixpoint replace_interior (fuel : nat) (d t s : jsstring) {struct fuel} : jsstring :=
  match fuel with
  | 0 => s
  | S fuel' =>
      match find (interior_at d) s with
      | Some (u, rest) => u ++ t ++ replace_interior fuel' d t rest
      | None => s
      end
  end.

Section Steps.

Variable d : jsstring.
Hypothesis plain : plain_head d = true.

Lemma find_start_later (n : nat) (s : jsstring) :
  length s < n ->
  find (fun s' => if Nat.eqb (length s') n then start_at d s' else None) s = None.
Proof.
  induction s as [|x s IH]; intros Hn; cbn [find].
  - destruct (Nat.eqb_spec (length (@nil ascii)) n) as [E|_]; [simpl in *; lia | reflexivity].
  - destruct (Nat.eqb_spec (length (x :: s)) n) as [E|_]; [lia|].
    rewrite IH by (simpl in Hn; lia). reflexivity.
Qed.

Lemma find_start (s : jsstring) :
  find (fun s' => if Nat.eqb (length s') (length s) then start_at d s' else None) s
  = match start_at d s with Some rest => Some ([], rest) | None => None end.
Proof.
  destruct s as [|x s]; cbn [find]; rewrite Nat.eqb_refl.
  - destruct (start_at d []); reflexivity.
  - destruct (start_at d (x :: s)); [reflexivity|].
    rewrite find_start_later by (simpl; lia). reflexivity.
Qed.

Lemma exec_start (s : jsstring) :
  match start_at d s with
  | Some rest => exists m c, exec (start_pattern d) s = Some (Matched [] m rest c)
  | None => exec (start_pattern d) s = None
  end.
Proof.
  unfold exec.
  pose proof (fun s' => @rmatch_start_at s d s' [] plain) as H.
  pose proof (find_start s) as F.
  destruct (start_at d s) as [rest|].
  - destruct (@search_some _ _ _ H [] _ _ _ F) as [c Hc]. eauto.
  - now apply (@search_none _ _ _ H).
Qed.

Lemma test_start (s : jsstring) :
  test (start_pattern d) s = match start_at d s with Some _ => true | None => false end.
Proof.
  unfold test. pose proof (exec_start s) as H.
  destruct (start_at d s); [destruct H as (m & c & ->) | rewrite H]; reflexivity.
Qed.

Lemma replace_start (s rest : jsstring) :
  start_at d s = Some rest -> replace (MkRegExp (start_pattern d) false) [] s = rest.
Proof.
  intros E. unfold replace. cbn [global source].
  pose proof (exec_start s) as H. rewrite E in H.
  destruct H as (m & c & ->). reflexivity.
Qed.

Lemma exec_end (s : jsstring) :
  match end_strip d s with
  | Some u => exists m c, exec (end_pattern d) s = Some (Matched u m [] c)
  | None => exec (end_pattern d) s = None
  end.
Proof.
  unfold exec, end_strip.
  pose proof (fun s' => @rmatch_end_at s d s' [] plain) as H.
  destruct (find (end_here d) s) as [[u rest]|] eqn:F; cbn [option_map fst].
  - destruct (@search_some _ _ _ H [] _ _ _ F) as [c Hc].
    assert (rest = []) as ->.
    { clear Hc H. revert u F. induction s as [|x s IH]; intros u; cbn [find]; unfold end_here.
      - destruct (end_at d []); [now intros [= _ <-] | discriminate].
      - destruct (end_at d (x :: s)); [now intros [= _ <-]|].
        fold (end_here d). destruct (find (end_here d) s) as [[u' rest']|]; [|discriminate].
        intros [= _ <-]. now apply (IH u'). }
    eauto.
  - now apply (@search_none _ _ _ H).
Qed.

Lemma test_end (s : jsstring) :
  test (end_pattern d) s = match end_strip d s with Some _ => true | None => false end.
Proof.
  unfold test. pose proof (exec_end s) as H.
  destruct (end_strip d s); [destruct H as (m & c & ->) | rewrite H]; reflexivity.
Qed.

Lemma replace_end (s u : jsstring) :
  end_strip d s = Some u -> replace (MkRegExp (end_pattern d) false) [] s = u.
Proof.
  intros E. unfold replace. cbn [global source].
  pose proof (exec_end s) as H. rewrite E in H.
  destruct H as (m & c & ->). cbn [before after GetSubstitution]. now rewrite app_nil_r.
Qed.

Lemma replace_interior_none (t s : jsstring) :
  find (interior_at d) s = None ->
  replace (MkRegExp (interior_pattern d) true) t s = s.
Proof.
  intros F. unfold replace. cbn [global source replace_loop].
  now rewrite (@search_none _ _ _ (fun s' => @rmatch_interior_at s d s' [] plain) [] _ F).
Qed.

End Steps.

(** ** Where a delimiter can be matched *)

Definition break_free (d : jsstring) : bool :=
  forallb (fun c => negb (is_break_char c)) d.

Definition lf_free (t : jsstring) : bool :=
  forallb (fun c => negb (Ascii.eqb c LF)) t.

(** [u] ends where a line starts, [v] starts where a line ends. *)
Definition line_start (u : jsstring) : bool := is_break_char (last u LF).

Definition line_end (v : jsstring) : bool :=
  match v with
  | [] => true
  | c :: _ => is_break_char c
  end.

Definition starts_break (v : jsstring) : bool :=
  match v with
  | [] => false
  | c :: _ => is_break_char c
  end.

(** The occurrence of a delimiter between [u] and [v] has its line to
    itself. *)
Definition own_line (u v : jsstring) : bool := line_start u && line_end v.

Section Shapes.

Lemma eat_break_shape (s s' : jsstring) :
  eat_break s = Some s' -> exists b, s = b ++ LF :: s' /\ (b = [] \/ b = [CR]).
Proof.
  destruct s as [|x t]; [discriminate|]. cbn [eat_break].
  destruct (Ascii.eqb x LF) eqn:Hx.
  - apply Ascii.eqb_eq in Hx; subst. intros [= <-]. exists []. auto.
  - destruct (Ascii.eqb x CR) eqn:Hc; [|discriminate].
    apply Ascii.eqb_eq in Hc; subst.
    destruct t as [|y t]; [discriminate|].
    destruct (Ascii.eqb y LF) eqn:Hy; [|discriminate].
    apply Ascii.eqb_eq in Hy; subst. intros [= <-]. exists [CR]. auto.
Qed.

Lemma eat_break_starts (s s' : jsstring) :
  eat_break s = Some s' -> starts_break s = true.
Proof.
  intros H. destruct (eat_break_shape _ H) as (b & -> & [-> | ->]); reflexivity.
Qed.

(** What [skip_breaks] skips ends with a line feed. *)
Lemma skip_breaks_shape (s : jsstring) :
  exists l, s = l ++ skip_breaks s /\ (l = [] \/ exists l', l = l' ++ [LF]).
Proof.
  induction s as [s IH] using (induction_ltof1 _ (@length ascii)). unfold ltof in IH.
  rewrite skip_breaks_eq.
  destruct (eat_break s) as [s'|] eqn:E.
  - destruct (eat_break_shape _ E) as (b & -> & Hb).
    destruct (IH s' (eat_break_shorter _ E)) as (l & Hl & Hl').
    exists (b ++ LF :: l). split.
    + rewrite <- app_assoc. cbn [app]. now rewrite <- Hl.
    + right. destruct Hl' as [-> | (l' & ->)].
      * now exists b.
      * exists (b ++ LF :: l'). now rewrite <- app_assoc.
  - exists []. auto.
Qed.

Lemma starts_with_shape (d s : jsstring) :
  starts_with d s = true -> s = d ++ skipn (length d) s.
Proof.
  revert s. induction d as [|x d IH]; intros [|y s]; cbn [starts_with]; try discriminate;
    try reflexivity.
  intros H. apply andb_prop in H as [Hx Hd]. apply Ascii.eqb_eq in Hx; subst.
  cbn [length skipn app]. now rewrite <- IH.
Qed.

Lemma starts_with_app (d s : jsstring) : starts_with d (d ++ s) = true.
Proof.
  induction d as [|x d IH]; [reflexivity|]. cbn [app starts_with].
  now rewrite Ascii.eqb_refl.
Qed.

Lemma skipn_app_length (d s : jsstring) : skipn (length d) (d ++ s) = s.
Proof. induction d; [reflexivity | assumption]. Qed.

(** The shape of a match of each pattern. *)
Lemma start_at_shape (d s rest : jsstring) :
  start_at d s = Some rest ->
  exists l z, s = l ++ d ++ z /\ (l = [] \/ exists l', l = l' ++ [LF]) /\ starts_break z = true.
Proof.
  unfold start_at. destruct (skip_breaks_shape s) as (l & Hs & Hl).
  destruct (starts_with d (skip_breaks s)) eqn:Hd; [|discriminate].
  destruct (eat_break _) as [s2|] eqn:E; [|discriminate]. intros _.
  exists l, (skipn (length d) (skip_breaks s)). repeat split; try assumption.
  - now rewrite <- (starts_with_shape _ _ Hd).
  - eapply eat_break_starts, E.
Qed.

Lemma interior_at_shape (d s rest : jsstring) :
  interior_at d s = Some rest ->
  exists y z, s = y ++ LF :: d ++ z /\ starts_break z = true.
Proof.
  unfold interior_at. destruct (eat_break s) as [s0|] eqn:E; [|discriminate].
  intros H. destruct (start_at_shape _ _ H) as (l & z & -> & Hl & Hz).
  destruct (eat_break_shape _ E) as (b & -> & _).
  destruct Hl as [-> | (l' & ->)].
  - exists b, z. auto.
  - exists (b ++ LF :: l'), z. split; [|assumption].
    rewrite <- !app_assoc. reflexivity.
Qed.

Lemma skip_breaks_nil_line_end (s : jsstring) : skip_breaks s = [] -> line_end s = true.
Proof.
  rewrite skip_breaks_eq. destruct (eat_break s) eqn:E.
  - intros _. apply eat_break_starts in E. destruct s; [reflexivity | assumption].
  - now intros ->.
Qed.

Lemma end_at_shape (d s : jsstring) :
  end_at d s = true ->
  exists y z, s = y ++ LF :: d ++ z /\ line_end z = true.
Proof.
  unfold end_at. destruct (eat_break s) as [s0|] eqn:E; [|discriminate].
  destruct (skip_breaks_shape s0) as (l & Hs & Hl).
  intros H. apply andb_prop in H as [Hd Hz].
  destruct (eat_break_shape _ E) as (b & -> & _).
  assert (line_end (skipn (length d) (skip_breaks s0)) = true) as Hend.
  { apply skip_breaks_nil_line_end. destruct (skip_breaks (skipn _ _)); [reflexivity | discriminate]. }
  rewrite (starts_with_shape _ _ Hd) in Hs.
  destruct Hl as [-> | (l' & ->)].
  - exists b. eexists. split; [|exact Hend]. now rewrite Hs at 1.
  - exists (b ++ LF :: l'). eexists. split; [|exact Hend].
    rewrite Hs at 1. rewrite <- !app_assoc. reflexivity.
Qed.

Lemma find_shape (at_ : jsstring -> option jsstring) (s u rest : jsstring) :
  find at_ s = Some (u, rest) -> exists s', s = u ++ s' /\ at_ s' = Some rest.
Proof.
  revert u. induction s as [|x s IH]; intros u; cbn [find].
  - destruct (at_ []) eqn:E; [|discriminate]. intros [= <- <-]. now exists [].
  - destruct (at_ (x :: s)) eqn:E.
    + intros [= <- <-]. now exists (x :: s).
    + destruct (find at_ s) as [[u' rest']|]; [|discriminate].
      intros [= <- <-]. destruct (IH u' eq_refl) as (s' & -> & H). now exists s'.
Qed.

End Shapes.

Section Occurrences.

Lemma split_occurrence (a b y d z : jsstring) :
  a ++ b = y ++ d ++ z ->
  (exists m, a = y ++ d ++ m /\ z = m ++ b) \/
  (exists d1 d2, d = d1 ++ d2 /\ a = y ++ d1 /\ b = d2 ++ z) \/
  (exists m, y = a ++ m /\ b = m ++ d ++ z).
Proof.
  intros H. apply app_eq_app in H as (l & [[Ha Hl] | [Hy Hb]]).
  - symmetry in Hl. apply app_eq_app in Hl as (l2 & [[Hl Hz] | [Hd Hb]]).
    + left. exists l2. subst. auto.
    + right; left. exists l, l2. now subst.
  - right; right. now exists l.
Qed.

Lemma break_free_app (a b : jsstring) :
  break_free (a ++ b) = true -> break_free a = true /\ break_free b = true.
Proof. unfold break_free. rewrite forallb_app. apply andb_prop. Qed.

Lemma break_free_last (a : jsstring) (c : ascii) :
  break_free (a ++ [c]) = true -> is_break_char c = false.
Proof.
  intros H. apply break_free_app in H as [_ H]. cbn in H.
  now destruct (is_break_char c).
Qed.

Lemma break_free_head (a : jsstring) (c : ascii) :
  break_free (c :: a) = true -> is_break_char c = false.
Proof. cbn. now destruct (is_break_char c). Qed.

Lemma lf_free_no_lf (a b : jsstring) : lf_free (a ++ LF :: b) = false.
Proof.
  unfold lf_free. rewrite forallb_app. cbn. apply andb_false_r.
Qed.

Lemma line_start_lf (m : jsstring) : line_start (m ++ [LF]) = true.
Proof. unfold line_start. now rewrite last_last. Qed.

Lemma line_end_app (m b : jsstring) :
  line_end (m ++ b) = true -> line_end b = true -> line_end m = true.
Proof. destruct m; [reflexivity | auto]. Qed.

Variables (d : jsstring).
Hypothesis d_free : break_free d = true.
Hypothesis d_some : d <> [].

(** A delimiter that follows a line feed and is followed as [ok] wants,
    in a text [q], a line feed, [s] and [t], lies in [s] or in [t]: it
    cannot lie in [q], which has no line feed, nor across the line breaks
    at the ends of [s]. *)
Lemma occurrence_between (ok : jsstring -> bool) (q s t y z : jsstring) :
  (forall z, ok z = true -> line_end z = true) ->
  lf_free q = true ->
  line_end t = true ->
  (forall u v, s = u ++ d ++ v -> own_line u v = false) ->
  (forall m z', t = m ++ d ++ z' -> ok z' = true -> False) ->
  q ++ LF :: s ++ t = y ++ LF :: d ++ z ->
  ok z = true -> False.
Proof.
  intros Hok Hq Ht Hs Hts E Hz.
  assert (exists m, (m = [] \/ exists m', m = m' ++ [LF]) /\ s ++ t = m ++ d ++ z)
    as (m & Hm & E').
  { assert ((q ++ [LF]) ++ s ++ t = (y ++ [LF]) ++ d ++ z) as E2
      by (rewrite <- !app_assoc; exact E).
    clear E. rename E2 into E.
    apply split_occurrence in E as [(m & Ha & _) | [(d1 & d2 & Hd & Ha & Hb) | (m & Hy & Hb)]].
    - exfalso. destruct (exists_last (l := d ++ m)) as (w & c & Hw).
      { destruct d; [now destruct d_some | discriminate]. }
      rewrite Hw, !app_assoc in Ha. apply app_inj_tail in Ha as [Ha _].
      rewrite Ha, <- !app_assoc in Hq. cbn [app] in Hq.
      now rewrite lf_free_no_lf in Hq.
    - destruct d1 as [|x d1].
      + exists []. split; [now left|]. cbn [app] in Hd. now subst d2.
      + exfalso. destruct (exists_last (l := x :: d1)) as (w & c & Hw); [discriminate|].
        rewrite Hw, app_assoc in Ha. apply app_inj_tail in Ha as [_ <-].
        rewrite Hd, Hw in d_free. apply break_free_app in d_free as [H _].
        apply break_free_last in H. discriminate H.
    - exists m. split; [|assumption].
      destruct m as [|x m0]; [now left | right].
      destruct (exists_last (l := x :: m0)) as (w & c & Hw); [discriminate|].
      exists w. rewrite Hw, app_assoc in Hy.
      apply app_inj_tail in Hy as [_ <-]. assumption. }
  apply split_occurrence in E' as [(m2 & Ha & Hz') | [(d1 & d2 & Hd & Ha & Hb) | (m' & Hy & Hb)]].
  - specialize (Hs _ _ Ha). unfold own_line in Hs.
    assert (line_start m = true) as Hls.
    { destruct Hm as [-> | (m' & ->)]; [reflexivity | apply line_start_lf]. }
    rewrite Hls, (line_end_app m2 t) in Hs; [discriminate | | assumption].
    rewrite <- Hz'. now apply Hok.
  - destruct d2 as [|x d2].
    + rewrite app_nil_r in Hd. subst d1.
      rewrite <- (app_nil_r d) in Ha. specialize (Hs _ _ Ha). unfold own_line in Hs.
      assert (line_start m = true) as Hls.
      { destruct Hm as [-> | (m' & ->)]; [reflexivity | apply line_start_lf]. }
      rewrite Hls in Hs. discriminate.
    + rewrite Hb in Ht. cbn in Ht.
      rewrite Hd in d_free. apply break_free_app in d_free as [_ H].
      apply break_free_head in H. congruence.
  - eapply Hts; eassumption.
Qed.

End Occurrences.

(** ** A text without a delimiter line *)

(** [contents] between an opening and a closing fence. *)
Definition wrapped (eol lang contents : jsstring) : jsstring :=
  fence ++ lang ++ eol ++ contents ++ eol ++ fence.

(** No occurrence of [d] in [s] has its line to itself. *)
Definition never_own_line (d s : jsstring) : Prop :=
  forall u v, s = u ++ d ++ v -> own_line u v = false.

Section Quiet.

Lemma plain_head_break_free (d : jsstring) :
  break_free d = true -> d <> [] -> plain_head d = true.
Proof.
  destruct d as [|x d]; [congruence|]. cbn. intros H _.
  now destruct (is_break_char x).
Qed.

Lemma text_then_break (e f x z : jsstring) (c b : ascii) :
  forallb is_break_char e = true -> break_free f = true ->
  e ++ f = x ++ c :: b :: z ->
  is_break_char c = false -> is_break_char b = true -> False.
Proof.
  intros He Hf E Hc Hb.
  apply app_eq_app in E as (l & [[E1 E2] | [E1 E2]]).
  - destruct l as [|c' l].
    + cbn [app] in E2. subst f. cbn in Hf. rewrite Hb in Hf.
      cbn in Hf. now rewrite andb_false_r in Hf.
    + injection E2 as <- E2. subst e. rewrite forallb_app in He. cbn in He.
      rewrite Hc in He. cbn in He. now rewrite andb_false_r in He.
  - subst f. apply break_free_app in Hf as [_ Hf]. cbn in Hf. rewrite Hb in Hf.
    cbn in Hf. now rewrite andb_false_r in Hf.
Qed.

Lemma fence_tail (eol d m z : jsstring) :
  eol = nl \/ eol = crlf -> break_free d = true -> d <> [] ->
  eol ++ fence = m ++ d ++ z -> starts_break z = true -> False.
Proof.
  intros He Hd Hn E Hz.
  destruct (exists_last Hn) as (w & c & ->).
  destruct z as [|b z]; [discriminate|]. cbn in Hz.
  rewrite <- app_assoc, app_assoc in E. cbn [app] in E.
  apply (@text_then_break eol fence (m ++ w) z c b); try assumption.
  - destruct He as [-> | ->]; reflexivity.
  - reflexivity.
  - now apply break_free_last in Hd.
Qed.

Variables (eol lang open close : jsstring).
Hypothesis eol_native : eol = nl \/ eol = crlf.
Hypothesis lang_line : lf_free lang = true.
Hypothesis open_free : break_free open = true.
Hypothesis open_some : open <> [].
Hypothesis close_free : break_free close = true.
Hypothesis close_some : close <> [].

Lemma eol_shape : exists e, eol = e ++ [LF] /\ lf_free (fence ++ lang ++ e) = true.
Proof.
  destruct eol_native as [-> | ->]; [exists [] | exists [CR]]; split; try reflexivity;
    unfold lf_free in *; rewrite !forallb_app, lang_line; reflexivity.
Qed.

Lemma line_end_eol_fence : line_end (eol ++ fence) = true.
Proof. destruct eol_native as [-> | ->]; reflexivity. Qed.

(** A text in which no delimiter has its line to itself is wrapped in a
    fence as it is. *)
Lemma rewrite_quiet (s : jsstring) :
  never_own_line open s -> never_own_line close s ->
  rewrite_with eol lang open close s = wrapped eol lang s.
Proof.
  intros Ho Hc. unfold rewrite_with, wrapped.
  pose proof (plain_head_break_free open_free open_some) as Po.
  pose proof (plain_head_break_free close_free close_some) as Pc.
  destruct eol_shape as (e & He & Hq).
  cbn [source].
  (* the start of the text *)
  rewrite (@test_start _ Po).
  destruct (start_at open s) as [rest|] eqn:E.
  { exfalso. apply start_at_shape in E as (l & z & -> & Hl & Hz).
    specialize (Ho _ _ eq_refl). unfold own_line in Ho.
    assert (line_start l = true) as Hls
      by (destruct Hl as [-> | (l' & ->)]; [reflexivity | apply line_start_lf]).
    rewrite Hls in Ho. destruct z; [discriminate|]. cbn in Ho, Hz. congruence. }
  (* the end of the text *)
  rewrite (@test_end _ Pc).
  destruct (end_strip close _) as [u|] eqn:E2.
  { exfalso. unfold end_strip in E2.
    destruct (find (end_here close) _) as [[u' rest]|] eqn:F; [|discriminate].
    apply find_shape in F as (s' & Hs' & Hat). unfold end_here in Hat.
    destruct (end_at close s') eqn:Hend; [|discriminate].
    apply end_at_shape in Hend as (y & z & -> & Hz).
    apply (@occurrence_between close close_free close_some line_end
             (fence ++ lang ++ e) s [] (u' ++ y) z); auto.
    - intros m z' Hm _. destruct m; [|discriminate]. destruct close; [now apply close_some | discriminate].
    - etransitivity; [|rewrite <- app_assoc; exact Hs'].
      rewrite app_nil_r, He, <- !app_assoc. reflexivity. }
  (* the delimiters in between *)
  assert (forall d, break_free d = true -> d <> [] -> never_own_line d s ->
                    find (interior_at d) ((fence ++ lang ++ eol ++ s) ++ eol ++ fence) = None)
    as Hquiet.
  { intros d Hd Hn Hs.
    destruct (find (interior_at d) _) as [[u rest]|] eqn:F; [exfalso | reflexivity].
    apply find_shape in F as (s' & Hs' & Hat).
    apply interior_at_shape in Hat as (y & z & -> & Hz).
    apply (@occurrence_between d Hd Hn starts_break
             (fence ++ lang ++ e) s (eol ++ fence) (u ++ y) z); auto.
    - intros [|c v]; [discriminate | auto].
    - apply line_end_eol_fence.
    - intros m z' Hm Hz'. eapply fence_tail; eassumption.
    - etransitivity; [|rewrite <- app_assoc; exact Hs'].
      rewrite He, <- !app_assoc. reflexivity. }
  rewrite (@replace_interior_none _ Pc), (@replace_interior_none _ Po);
    try (apply Hquiet; assumption).
  now rewrite <- !app_assoc.
Qed.

End Quiet.

(** ** Deciding where a delimiter occurs *)

Fixpoint occursb (d s : jsstring) : bool :=
  starts_with d s ||
  match s with
  | [] => false
  | _ :: s' => occursb d s'
  end.

(** An occurrence of [d] in [s] that has its line to itself, [pre] being
    the text before [s], last character first. *)
Fixpoint own_line_in (d pre s : jsstring) : bool :=
  (starts_with d s && line_start (rev pre) && line_end (skipn (length d) s)) ||
  match s with
  | [] => false
  | x :: s' => own_line_in d (x :: pre) s'
  end.

Lemma occursb_false (d s u v : jsstring) : occursb d s = false -> s <> u ++ d ++ v.
Proof.
  revert s. induction u as [|x u IH]; intros s H ->.
  - cbn [app] in H. destruct (d ++ v) eqn:E; cbn [occursb] in H;
      apply orb_false_elim in H as [H _]; rewrite <- E, starts_with_app in H; discriminate.
  - cbn [app occursb] in H. apply orb_false_elim in H as [_ H].
    exact (IH _ H eq_refl).
Qed.

Lemma own_line_in_false (d pre s u v : jsstring) :
  own_line_in d pre s = false -> s = u ++ d ++ v -> own_line (rev pre ++ u) v = false.
Proof.
  revert pre s. induction u as [|x u IH]; intros pre s H ->.
  - cbn [app] in H. rewrite app_nil_r.
    assert ((starts_with d (d ++ v) && line_start (rev pre)
             && line_end (skipn (length d) (d ++ v))) = false) as H'.
    { destruct (d ++ v); cbn [own_line_in] in H; now apply orb_false_elim in H as [H _]. }
    now rewrite starts_with_app, skipn_app_length in H'.
  - cbn [app own_line_in] in H. apply orb_false_elim in H as [_ H].
    specialize (IH _ _ H eq_refl). cbn [rev] in IH.
    now rewrite <- app_assoc in IH.
Qed.

(** ** Files without delimiters *)

Definition occurs (d s : jsstring) : Prop := exists u v, s = u ++ d ++ v.

Lemma never_own_line_absent (d s : jsstring) : ~ occurs d s -> never_own_line d s.
Proof. intros H u v E. destruct H. now exists u, v. Qed.

Lemma absent_some (d s : jsstring) : ~ occurs d s -> d <> [].
Proof. intros H ->. apply H. now exists [], s. Qed.

(** The path the output of a file goes to. *)
Definition md_path (output : jsstring) : jsstring :=
  Path.format (Path.dir (Path.parse output)) (Path.name (Path.parse output)) (js ".md").

(** What a conversion that succeeds does. *)
Definition converted (input output contents : jsstring) : outcome :=
  MkOutcome
    [Mkdir (Path.dir (Path.parse output)); ReadFile input;
     WriteFile (md_path output) contents; Log input (md_path output)]
    None.

Lemma literateToMdFile_entry (env : environment) (c : LanguageConfig)
  (input output contents : jsstring) :
  get (config env) (substr1 (Path.ext (Path.parse output))) = Some (Entry c) ->
  can_mkdir env (Path.dir (Path.parse output)) = true ->
  can_write env (md_path output) = true ->
  literateToMdFile env (File contents) input output
  = converted input output
      (rewrite_with (eol env) (lang_or (lang c) (substr1 (Path.ext (Path.parse output))))
         (open c) (close c) contents).
Proof.
  intros Hg Hm Hw. unfold literateToMdFile, converted.
  rewrite Hg, Hm. cbn [negb]. rewrite rewrite_total.
  fold (md_path output). now rewrite Hw.
Qed.

(** C3, as the code has it: for a configured extension whose delimiters
    hold no line-break character and whose language tag holds no line
    feed, a file in which neither delimiter occurs is written as its
    contents between one opening fence and one closing fence; the tag of
    the opening fence is the [lang] of the entry when there is one and it
    is not empty, the extension otherwise. *)
Theorem C3_no_delimiters (env : environment) (c : LanguageConfig)
  (input output contents : jsstring) :
  eol env = nl \/ eol env = crlf ->
  get (config env) (substr1 (Path.ext (Path.parse output))) = Some (Entry c) ->
  break_free (open c) = true -> break_free (close c) = true ->
  lf_free (lang_or (lang c) (substr1 (Path.ext (Path.parse output)))) = true ->
  ~ occurs (open c) contents -> ~ occurs (close c) contents ->
  can_mkdir env (Path.dir (Path.parse output)) = true ->
  can_write env (md_path output) = true ->
  literateToMdFile env (File contents) input output
  = converted input output
      (wrapped (eol env) (lang_or (lang c) (substr1 (Path.ext (Path.parse output)))) contents)
  /\ (forall x l, lang c = Some (x :: l) ->
        lang_or (lang c) (substr1 (Path.ext (Path.parse output))) = x :: l)
  /\ (lang c = None \/ lang c = Some [] ->
        lang_or (lang c) (substr1 (Path.ext (Path.parse output)))
        = substr1 (Path.ext (Path.parse output))).
Proof.
  intros He Hg Ho Hc Hl Hno Hnc Hm Hw. split; [|split].
  - rewrite (@literateToMdFile_entry _ _ input _ contents Hg Hm Hw). f_equal.
    apply rewrite_quiet; eauto using absent_some, never_own_line_absent.
  - intros x l ->. reflexivity.
  - intros [-> | ->]; reflexivity.
Qed.

Lemma occursb_absent (d s : jsstring) : occursb d s = false -> ~ occurs d s.
Proof. intros H (u & v & E). exact (@occursb_false d s u v H E). Qed.

Lemma own_line_in_never (d s : jsstring) : own_line_in d [] s = false -> never_own_line d s.
Proof. intros H u v E. exact (@own_line_in_false d [] s u v H E). Qed.

Lemma C3_no_delimiters_witness :
  literateToMdFile posix_env (File (js "int x = 1;")) (js "src/a.foo") (js "md/a.foo")
  = converted (js "src/a.foo") (js "md/a.foo") (wrapped nl (js "c") (js "int x = 1;")).
Proof.
  refine (proj1 (@C3_no_delimiters posix_env
            (MkLanguageConfig (js "/*") (js "*/") (Some (js "c")))
            (js "src/a.foo") (js "md/a.foo") (js "int x = 1;")
            (or_introl eq_refl) eq_refl eq_refl eq_refl eq_refl _ _ eq_refl eq_refl));
    apply occursb_absent; reflexivity.
Defined.

Definition env_with (e : jsstring) (table : Config) : environment :=
  MkEnvironment e table (fun _ => true) (fun _ => true) (fun _ => 0).

Lemma x_has_no_delimiter : ~ occurs (js "/*") (js "x") /\ ~ occurs (js "*/") (js "x").
Proof.
  split; apply occursb_absent; reflexivity.
Qed.

(** C3, as the specification has it, fails twice.  An entry whose [lang]
    is the empty string is present, and the tag is the extension; and a
    tag with a line break and the open delimiter in it is rewritten by the
    last step, so that the output is not the input between two fences. *)
Lemma C3_counterexample :
  (~ occurs (js "/*") (js "x") /\ ~ occurs (js "*/") (js "x")) /\
  (let c := MkLanguageConfig (js "/*") (js "*/") (Some []) in
   literateToMdFile (env_with nl [(js "foo", c)]) (File (js "x")) (js "src/a.foo") (js "md/a.foo")
   = converted (js "src/a.foo") (js "md/a.foo") (wrapped nl (js "foo") (js "x")) /\
   wrapped nl (js "foo") (js "x") <> wrapped nl [] (js "x")) /\
  (let tag := js "c" ++ nl ++ js "/*" in
   let c := MkLanguageConfig (js "/*") (js "*/") (Some tag) in
   literateToMdFile (env_with nl [(js "foo", c)]) (File (js "x")) (js "src/a.foo") (js "md/a.foo")
   = converted (js "src/a.foo") (js "md/a.foo")
       (js "```c" ++ nl ++ js "```" ++ nl ++ nl ++ js "x" ++ nl ++ js "```") /\
   js "```c" ++ nl ++ js "```" ++ nl ++ nl ++ js "x" ++ nl ++ js "```" <> wrapped nl tag (js "x")).
Proof.
  split; [exact x_has_no_delimiter|].
  split; (split; [vm_compute; reflexivity | vm_compute; discriminate]).
Qed.

(** ** Delimiters and line breaks *)


(** ** Files that are not converted *)


(** C4 fails for an extension that names a member of [Object.prototype]:
    [constructor] is no key of the table, yet [config["constructor"]] is
    an object, the directory is made, the file is read, and the call ends
    in a [TypeError]. *)
Theorem C4_inherited_key :
  own_property foo_config (js "constructor") = None /\
  literateToMdFile (env_with nl foo_config) (File (js "x"))
    (js "src/a.constructor") (js "md/a.constructor")
  = MkOutcome [Mkdir (js "md"); ReadFile (js "src/a.constructor")] (Some TypeError).
Proof. split; reflexivity. Qed.

(** ** Determinism *)

(** The texts a call writes. *)
Definition written (o : outcome) : list jsstring :=
  flat_map (fun e => match e with WriteFile _ c => [c] | _ => [] end) (effects o).

(** C8: two conversions of the same text under the same configuration
    (the same table, the same [os.EOL], the same extension) write the same
    bytes, wherever the files are and whatever else the environment
    does. *)
Theorem C8_deterministic (env env' : environment) (contents input output input' output' : jsstring)
  (c1 c2 : jsstring) :
  config env = config env' -> eol env = eol env' ->
  Path.ext (Path.parse output) = Path.ext (Path.parse output') ->
  In c1 (written (literateToMdFile env (File contents) input output)) ->
  In c2 (written (literateToMdFile env' (File contents) input' output')) ->
  c1 = c2.
Proof.
  intros Hc He Hx. unfold literateToMdFile. rewrite Hc, He, Hx.
  destruct (get (config env') _) as [[c|]|]; cbn; try tauto.
  - destruct (can_mkdir env _), (can_mkdir env' _); cbn; try tauto.
    destruct (rewrite _ _ _ _ _); cbn; try tauto.
    destruct (can_write env _), (can_write env' _); cbn; try tauto.
    intros [<- | []] [<- | []]. reflexivity.
  - destruct (can_mkdir env _), (can_mkdir env' _); cbn; tauto.
Qed.

Lemma C8_deterministic_witness :
  In (scenario_output nl)
    (written (literateToMdFile posix_env (File (scenario_input nl nl nl))
                (js "src/a.foo") (js "md/a.foo"))) /\
  In (scenario_output nl)
    (written (literateToMdFile (env_with nl foo_config) (File (scenario_input nl nl nl))
                (js "b.foo") (js "out/deep/b.foo"))) /\
  scenario_output nl = scenario_output nl.
Proof.
  assert (In (scenario_output nl)
            (written (literateToMdFile posix_env (File (scenario_input nl nl nl))
                        (js "src/a.foo") (js "md/a.foo")))) as H1
    by (vm_compute; left; reflexivity).
  assert (In (scenario_output nl)
            (written (literateToMdFile (env_with nl foo_config) (File (scenario_input nl nl nl))
                        (js "b.foo") (js "out/deep/b.foo")))) as H2
    by (vm_compute; left; reflexivity).
  split; [exact H1 | split; [exact H2 |]].
  exact (@C8_deterministic posix_env (env_with nl foo_config) (scenario_input nl nl nl)
           (js "src/a.foo") (js "md/a.foo") (js "b.foo") (js "out/deep/b.foo")
           (scenario_output nl) (scenario_output nl) eq_refl eq_refl eq_refl H1 H2).
Defined.

(** ** The walk *)

Section NodeInduction.

Variable P : node -> Prop.
Hypothesis P_file : forall c, P (File c).
Hypothesis P_unreadable : P Unreadable.
Hypothesis P_absent : P Absent.
Hypothesis P_locked : P Locked.
Hypothesis P_dir : forall es, Forall (fun e => P (snd e)) es -> P (Dir es).

Fixpoint node_induction (n : node) : P n :=
  match n with
  | File c => P_file c
  | Unreadable => P_unreadable
  | Absent => P_absent
  | Locked => P_locked
  | Dir es =>
      P_dir
        ((fix each (es : list (jsstring * node)) : Forall (fun e => P (snd e)) es :=
            match es with
            | [] => Forall_nil _
            | e :: es' => Forall_cons e (node_induction (snd e)) (each es')
            end) es)
  end.

End NodeInduction.

Definition walk_child (env : environment) (input output : jsstring) (e : jsstring * node)
  : list effect * option (nat * error) :=
  literateToMd env (snd e) (Path.join input (fst e)) (Path.join output (fst e)).

Lemma literateToMd_dir (env : environment) (es : list (jsstring * node))
  (input output : jsstring) :
  literateToMd env (Dir es) input output
  = (Stat input :: Readdir input :: concat (map fst (map (walk_child env input output) es)),
     Promise_all (map snd (map (walk_child env input output) es))).
Proof.
  cbn [literateToMd].
  assert ((fix each (es0 : list (jsstring * node)) :=
             match es0 with
             | [] => []
             | (i, child) :: es' =>
                 literateToMd env child (Path.join input i) (Path.join output i) :: each es'
             end) es = map (walk_child env input output) es) as ->; [|reflexivity].
  induction es as [|[i child] es IH]; [reflexivity|]. cbn [map]. now rewrite IH.
Qed.

(** The path [names] lead to from [root], one [path.join] per name. *)
Definition descend (root : jsstring) (names : list jsstring) : jsstring :=
  fold_left Path.join names root.

Definition ends_with (suffix s : jsstring) : Prop := exists pre, s = pre ++ suffix.

Lemma md_path_ends (output : jsstring) : ends_with (js ".md") (md_path output).
Proof.
  unfold md_path, Path.format.
  destruct (Path.dir (Path.parse output)) as [|x d].
  - now exists (Path.name (Path.parse output)).
  - exists ((x :: d) ++ "/" :: Path.name (Path.parse output)).
    rewrite <- app_assoc. reflexivity.
Qed.

Definition overlap_tree : node :=
  Dir [(js "a.foo", File (js "x")); (js "a.md", File (js "old"))].

(** The regular files under an input path, with their contents. *)
Fixpoint input_files (n : node) (input : jsstring) {struct n} : list (jsstring * jsstring) :=
  match n with
  | File c => [(input, c)]
  | Dir es =>
      (fix each (es : list (jsstring * node)) : list (jsstring * jsstring) :=
         match es with
         | [] => []
         | (i, child) :: es' => input_files child (Path.join input i) ++ each es'
         end) es
  | _ => []
  end.

(** The first part of C9 fails when the output tree is the input tree: the
    output of [a.foo] goes to [a.md], which is a file of the input. *)
Lemma C9_counterexample :
  In (js "d/a.md", js "old") (input_files overlap_tree (js "d")) /\
  In (WriteFile (js "d/a.md") (wrapped nl (js "c") (js "x")))
    (fst (run posix_env overlap_tree (js "d") (js "d"))) /\
  wrapped nl (js "c") (js "x") <> js "old".
Proof.
  repeat split; vm_compute; auto 10. discriminate.
Qed.

(** ** Failures *)

(** The failures of the calls of a walk, one per file or directory that
    fails. *)
Fixpoint failures (env : environment) (n : node) (input output : jsstring) {struct n}
  : list error :=
  match n with
  | Absent => [StatFailure input]
  | Locked => [ReaddirFailure input]
  | Dir es =>
      (fix each (es : list (jsstring * node)) : list error :=
         match es with
         | [] => []
         | (i, child) :: es' =>
             failures env child (Path.join input i) (Path.join output i) ++ each es'
         end) es
  | File _ | Unreadable =>
      match rejection (literateToMdFile env n input output) with
      | Some e => [e]
      | None => []
      end
  end.

Lemma failures_dir (env : environment) (es : list (jsstring * node)) (input output : jsstring) :
  failures env (Dir es) input output
  = flat_map (fun e => failures env (snd e) (Path.join input (fst e)) (Path.join output (fst e)))
      es.
Proof.
  cbn [failures]. induction es as [|[i child] es IH]; [reflexivity|].
  cbn [flat_map fst snd]. now rewrite IH.
Qed.

Lemma fold_earlier_none (l : list (option (nat * error))) (a : option (nat * error)) :
  fold_left earlier l a = None <-> a = None /\ Forall (fun x => x = None) l.
Proof.
  revert a. induction l as [|x l IH]; intros a; cbn [fold_left].
  - split; [auto | now intros [-> _]].
  - rewrite IH. split.
    + intros [Ha Hl]. destruct a as [[t e]|], x as [[t' e']|]; unfold earlier in Ha;
        try discriminate; try (destruct (t' <? t); discriminate). auto.
    + intros [-> H]. inversion H; subst. auto.
Qed.

Lemma fold_earlier_some (l : list (option (nat * error))) (a : option (nat * error))
  (t : nat) (e : error) :
  fold_left earlier l a = Some (t, e) -> a = Some (t, e) \/ In (Some (t, e)) l.
Proof.
  revert a. induction l as [|x l IH]; intros a; cbn [fold_left]; [auto|].
  intros H. apply IH in H as [H | H]; [|right; now right].
  destruct a as [[ta ea]|], x as [[tx ex]|]; unfold earlier in H; try discriminate; auto.
  - destruct (tx <? ta); injection H as <- <-; [right; left | left]; reflexivity.
  - right; left; assumption.
Qed.

Lemma flat_map_nil {A B : Type} (f : A -> list B) (l : list A) :
  flat_map f l = [] <-> Forall (fun x => f x = []) l.
Proof.
  induction l as [|x l IH]; cbn [flat_map].
  - split; auto.
  - split.
    + intros H. apply app_eq_nil in H as [Hx Hl]. constructor; [assumption | now apply IH].
    + intros H. inversion H; subst. rewrite (proj2 IH) by assumption.
      now rewrite app_nil_r.
Qed.

Lemma walk_rejection (env : environment) (tree : node) (input output : jsstring) :
  (forall t e, snd (literateToMd env tree input output) = Some (t, e) ->
               In e (failures env tree input output)) /\
  (snd (literateToMd env tree input output) = None <-> failures env tree input output = []).
Proof.
  revert input output.
  induction tree as [c| | | |es IH] using node_induction; intros input output.
  - cbn [literateToMd failures snd].
    destruct (rejection _) as [e|]; split; try split; try discriminate; auto.
    intros t e' [= _ <-]. now left.
  - cbn [literateToMd failures snd].
    destruct (rejection _) as [e|]; split; try split; try discriminate; auto.
    intros t e' [= _ <-]. now left.
  - cbn. split; [|split; discriminate]. intros t e [= _ <-]. now left.
  - cbn. split; [|split; discriminate]. intros t e [= _ <-]. now left.
  - rewrite literateToMd_dir, failures_dir. cbn [snd]. unfold Promise_all.
    rewrite Forall_forall in IH. split.
    + intros t e H. apply fold_earlier_some in H as [H | H]; [discriminate|].
      apply in_map_iff in H as (r & Hr & Hin).
      apply in_map_iff in Hin as (child & <- & Hc).
      apply in_flat_map. exists child. split; [assumption|].
      exact (proj1 (IH _ Hc _ _) _ _ Hr).
    + rewrite fold_earlier_none, flat_map_nil, !Forall_forall. split.
      * intros [_ H] child Hc. apply (IH _ Hc). apply H.
        apply in_map, (in_map (walk_child env input output)), Hc.
      * intros H. split; [reflexivity|]. intros x Hx.
        apply in_map_iff in Hx as (r & <- & Hin).
        apply in_map_iff in Hin as (child & <- & Hc).
        apply (IH _ Hc). now apply H.
Qed.

Definition two_unreadable : node :=
  Dir [(js "a.foo", Unreadable); (js "b.foo", Unreadable)].

(** C5, as the specification has it, fails: of two files that cannot be
    read, the failure of one is all the run has to show, whichever
    settles first. *)
Lemma C5_counterexample :
  failures posix_env two_unreadable (js "src") (js "md")
  = [ReadFailure (js "src/a.foo"); ReadFailure (js "src/b.foo")] /\
  reported (run posix_env two_unreadable (js "src") (js "md"))
  = [ReadFailure (js "src/a.foo")] /\
  ~ In (ReadFailure (js "src/b.foo"))
      (reported (run posix_env two_unreadable (js "src") (js "md"))) /\
  (forall clock,
     length (reported (run (MkEnvironment nl foo_config (fun _ => true) (fun _ => true) clock)
                         two_unreadable (js "src") (js "md"))) = 1).
Proof.
  repeat split.
  - vm_compute. intros [H | []]. discriminate H.
  - intros clock. unfold reported, run. cbn.
    destruct (clock _) as [|m]; [reflexivity|]. destruct (_ <=? m); reflexivity.
Qed.

(** ** The substitution of the delimiters in between *)

Section Substitution.

Lemma GetSubstitution_plain (n : nat) (m : rmatched) (pre t : jsstring) :
  no_dollar t = true -> GetSubstitution n m pre t = t.
Proof.
  induction t as [|x t IH]; [reflexivity|]. cbn [no_dollar forallb GetSubstitution].
  intros H. apply andb_prop in H as [Hx Ht].
  destruct (Ascii.eqb x "$"); [discriminate|]. now rewrite (IH Ht).
Qed.

Lemma skip_breaks_length (s : jsstring) : length (skip_breaks s) <= length s.
Proof.
  destruct (skip_breaks_shape s) as (l & Hs & _).
  rewrite Hs at 2. rewrite length_app. lia.
Qed.

Lemma start_at_length (d s rest : jsstring) :
  start_at d s = Some rest -> length rest < length s.
Proof.
  unfold start_at. destruct (starts_with d (skip_breaks s)); [|discriminate].
  destruct (eat_break _) as [s2|] eqn:E; [|discriminate]. intros [= <-].
  apply eat_break_shorter in E.
  pose proof (skip_breaks_length s2). pose proof (skip_breaks_length s).
  rewrite length_skipn in E. lia.
Qed.

Lemma interior_at_length (d s rest : jsstring) :
  interior_at d s = Some rest -> length rest < length s.
Proof.
  unfold interior_at. destruct (eat_break s) as [s0|] eqn:E; [|discriminate].
  intros H. apply start_at_length in H. apply eat_break_shorter in E. lia.
Qed.

Variable d : jsstring.
Hypothesis plain : plain_head d = true.

Lemma replace_loop_interior (t input : jsstring) (fuel : nat) (pre s : jsstring) :
  no_dollar t = true ->
  replace_loop fuel (interior_pattern d) t input pre s = replace_interior fuel d t s.
Proof.
  intros Ht. revert pre s. induction fuel as [|fuel IH]; intros pre s; [reflexivity|].
  cbn [replace_loop replace_interior].
  pose proof (fun s' => @rmatch_interior_at input d s' [] plain) as H.
  destruct (find (interior_at d) s) as [[u rest]|] eqn:F.
  - destruct (@search_some _ _ _ H [] _ _ _ F) as [c ->].
    cbn [before matched after rev app]. rewrite GetSubstitution_plain by assumption.
    apply find_shape in F as (s' & -> & Hat).
    rewrite skipn_app_length.
    apply interior_at_length in Hat.
    destruct s' as [|x s']; [simpl in Hat; lia|].
    destruct (length (x :: s') - length rest) eqn:El; [lia|].
    cbn [firstn]. now rewrite IH.
  - now rewrite (@search_none _ _ _ H [] _ F).
Qed.

Lemma replace_interior_spec (t s : jsstring) :
  no_dollar t = true ->
  replace (MkRegExp (interior_pattern d) true) t s = replace_interior (S (length s)) d t s.
Proof.
  intros Ht. unfold replace. cbn [global source]. now apply replace_loop_interior.
Qed.

End Substitution.

Unset Implicit Arguments.

(** ** Line breaks of either kind *)

(** A text as the patterns see it: its line breaks, [\n] or [\r\n]
    alike ([None]), and its other characters. *)
Fixpoint tokens (s : jsstring) : list (option ascii) :=
  match s with
  | [] => []
  | x :: s' =>
      if Ascii.eqb x LF then None :: tokens s'
      else if Ascii.eqb x CR then
        match s' with
        | y :: s'' => if Ascii.eqb y LF then None :: tokens s'' else Some x :: tokens s'
        | [] => [Some x]
        end
      else Some x :: tokens s'
  end.

(** Two texts that differ by the kind of some of their line breaks. *)
Definition same_lines (s s' : jsstring) : Prop := tokens s = tokens s'.

Fixpoint drop_nones (ts : list (option ascii)) : list (option ascii) :=
  match ts with
  | None :: ts' => drop_nones ts'
  | _ => ts
  end.

Fixpoint tstarts (d : jsstring) (ts : list (option ascii)) : bool :=
  match d, ts with
  | [], _ => true
  | x :: d', Some y :: ts' => Ascii.eqb y x && tstarts d' ts'
  | _ :: _, _ => false
  end.

Definition tstart_at (d : jsstring) (ts : list (option ascii)) : option (list (option ascii)) :=
  let ts1 := drop_nones ts in
  if tstarts d ts1 then
    match skipn (length d) ts1 with
    | None :: ts2 => Some (drop_nones ts2)
    | _ => None
    end
  else None.

Definition tinterior_at (d : jsstring) (ts : list (option ascii))
  : option (list (option ascii)) :=
  match ts with
  | None :: ts0 => tstart_at d ts0
  | _ => None
  end.

Definition tend_here (d : jsstring) (ts : list (option ascii)) : option (list (option ascii)) :=
  match ts with
  | None :: ts0 =>
      let ts1 := drop_nones ts0 in
      if tstarts d ts1 &&
         match drop_nones (skipn (length d) ts1) with [] => true | _ :: _ => false end
      then Some [] else None
  | _ => None
  end.

Fixpoint tfind (at_ : list (option ascii) -> option (list (option ascii)))
  (ts : list (option ascii)) : option (list (option ascii) * list (option ascii)) :=
  match at_ ts with
  | Some rest => Some ([], rest)
  | None =>
      match ts with
      | [] => None
      | x :: ts' =>
          match tfind at_ ts' with
          | Some (u, rest) => Some (x :: u, rest)
          | None => None
          end
      end
  end.

Section Tokens.

Lemma tokens_eq (s : jsstring) :
  tokens s
  = match eat_break s with
    | Some r => None :: tokens r
    | None => match s with [] => [] | x :: s' => Some x :: tokens s' end
    end.
Proof.
  destruct s as [|x t]; [reflexivity|]. cbn [tokens eat_break].
  destruct (Ascii.eqb x LF); [reflexivity|].
  destruct (Ascii.eqb x CR); [|reflexivity].
  destruct t as [|y t]; [reflexivity|].
  destruct (Ascii.eqb y LF); reflexivity.
Qed.

Lemma tokens_nil (s : jsstring) : tokens s = [] -> s = [].
Proof.
  rewrite tokens_eq. destruct (eat_break s); [discriminate|].
  destruct s; [reflexivity | discriminate].
Qed.

Lemma eat_break_tokens (s : jsstring) :
  option_map tokens (eat_break s)
  = match tokens s with None :: ts => Some ts | _ => None end.
Proof.
  rewrite (tokens_eq s). destruct (eat_break s); [reflexivity|].
  destruct s; reflexivity.
Qed.

Lemma skip_breaks_tokens (s : jsstring) : tokens (skip_breaks s) = drop_nones (tokens s).
Proof.
  induction s as [s IH] using (induction_ltof1 _ (@length ascii)). unfold ltof in IH.
  rewrite skip_breaks_eq, (tokens_eq s).
  destruct (eat_break s) as [r|] eqn:E.
  - cbn [drop_nones]. apply IH. now apply eat_break_shorter.
  - rewrite (tokens_eq s), E. destruct s; reflexivity.
Qed.

Lemma eat_break_head (x : ascii) (s : jsstring) :
  is_break_char x = false -> eat_break (x :: s) = None.
Proof.
  unfold is_break_char. cbn [eat_break].
  destruct (Ascii.eqb x LF); [now rewrite orb_true_r|].
  destruct (Ascii.eqb x CR); [discriminate | reflexivity].
Qed.

Lemma eat_break_first (x : ascii) (s r : jsstring) :
  eat_break (x :: s) = Some r -> is_break_char x = true.
Proof.
  intros H. destruct (is_break_char x) eqn:E; [reflexivity|].
  now rewrite (eat_break_head x s E) in H.
Qed.

Lemma starts_with_tokens (d s : jsstring) :
  break_free d = true ->
  starts_with d s = tstarts d (tokens s) /\
  (starts_with d s = true -> tokens (skipn (length d) s) = skipn (length d) (tokens s)).
Proof.
  revert s. induction d as [|x d IH]; intros s Hd; [split; reflexivity|].
  pose proof (@break_free_head d x Hd) as Hx.
  apply (@break_free_app [x] d) in Hd as [_ Hd].
  destruct s as [|y s]; [split; [reflexivity | discriminate]|].
  rewrite (tokens_eq (y :: s)).
  destruct (eat_break (y :: s)) as [r|] eqn:E.
  - apply eat_break_first in E. cbn [starts_with tstarts].
    destruct (Ascii.eqb y x) eqn:Hy; [|split; [reflexivity | discriminate]].
    apply Ascii.eqb_eq in Hy; subst. congruence.
  - cbn [starts_with tstarts length skipn]. destruct (IH s Hd) as [H1 H2].
    rewrite H1. split; [reflexivity|].
    intros H. apply andb_prop in H as [_ H]. rewrite <- H1 in H. auto.
Qed.

Lemma start_at_tokens (d s : jsstring) :
  break_free d = true ->
  option_map tokens (start_at d s) = tstart_at d (tokens s).
Proof.
  intros Hd. unfold start_at, tstart_at. cbv zeta.
  rewrite <- skip_breaks_tokens.
  destruct (starts_with_tokens d (skip_breaks s) Hd) as [H1 H2]. rewrite <- H1.
  destruct (starts_with d (skip_breaks s)); [|reflexivity].
  rewrite <- (H2 eq_refl).
  pose proof (eat_break_tokens (skipn (length d) (skip_breaks s))) as He.
  destruct (eat_break _) as [r|]; cbn [option_map] in *.
  - destruct (tokens (skipn _ _)) as [|[c|] ts]; try discriminate.
    injection He as <-. now rewrite skip_breaks_tokens.
  - destruct (tokens (skipn _ _)) as [|[c|] ts]; try discriminate; reflexivity.
Qed.

Lemma interior_at_tokens (d s : jsstring) :
  break_free d = true ->
  option_map tokens (interior_at d s) = tinterior_at d (tokens s).
Proof.
  intros Hd. unfold interior_at, tinterior_at.
  pose proof (eat_break_tokens s) as He.
  destruct (eat_break s) as [r|]; cbn [option_map] in He.
  - destruct (tokens s) as [|[c|] ts]; try discriminate.
    injection He as <-. now apply start_at_tokens.
  - destruct (tokens s) as [|[c|] ts]; try discriminate; reflexivity.
Qed.

Lemma end_here_tokens (d s : jsstring) :
  break_free d = true ->
  option_map tokens (end_here d s) = tend_here d (tokens s).
Proof.
  intros Hd. unfold end_here, end_at, tend_here.
  pose proof (eat_break_tokens s) as He.
  destruct (eat_break s) as [r|]; cbn [option_map] in He.
  - destruct (tokens s) as [|[c|] ts]; try discriminate.
    injection He as <-. cbv zeta. rewrite <- skip_breaks_tokens.
    destruct (starts_with_tokens d (skip_breaks r) Hd) as [H1 H2]. rewrite <- H1.
    destruct (starts_with d (skip_breaks r)); [|reflexivity].
    rewrite <- (H2 eq_refl), <- skip_breaks_tokens. cbn [andb].
    destruct (skip_breaks (skipn _ _)) as [|z zs] eqn:Ez; [reflexivity|].
    destruct (tokens (z :: zs)) eqn:Et; [|reflexivity].
    now apply tokens_nil in Et.
  - destruct (tokens s) as [|[c|] ts]; try discriminate; reflexivity.
Qed.

End Tokens.

Section TokenSearch.

Variable at_ : jsstring -> option jsstring.
Variable tat : list (option ascii) -> option (list (option ascii)).

Hypothesis at_tokens : forall s, option_map tokens (at_ s) = tat (tokens s).
Hypothesis at_break : forall s, at_ (LF :: s) = at_ (CR :: LF :: s).

Definition token_pair (p : jsstring * jsstring) : list (option ascii) * list (option ascii) :=
  (tokens (fst p), tokens (snd p)).

Lemma tokens_cons_text (x : ascii) (u v : jsstring) :
  eat_break (x :: u ++ v) = None -> tokens (x :: u) = Some x :: tokens u.
Proof.
  intros H. rewrite (tokens_eq (x :: u)).
  assert (eat_break (x :: u) = None) as ->; [|reflexivity].
  cbn [eat_break] in *.
  destruct (Ascii.eqb x LF); [discriminate|].
  destruct (Ascii.eqb x CR); [|reflexivity].
  destruct u as [|y u]; [reflexivity|]. cbn [app] in H.
  destruct (Ascii.eqb y LF); [discriminate | reflexivity].
Qed.

Lemma find_prefix (s u rest : jsstring) :
  find at_ s = Some (u, rest) -> exists v, s = u ++ v.
Proof.
  intros H. apply (@find_shape at_) in H as (s' & -> & _). now exists s'.
Qed.

Lemma find_tokens (s : jsstring) :
  option_map token_pair (find at_ s) = tfind tat (tokens s).
Proof.
  induction s as [s IH] using (induction_ltof1 _ (@length ascii)). unfold ltof in IH.
  destruct s as [|x s'].
  - pose proof (at_tokens []) as H0. cbn [tokens] in H0.
    cbn [find tokens tfind]. rewrite <- H0.
    destruct (at_ []); reflexivity.
  - cbn [find].
    assert (forall ts, tfind tat ts
              = match tat ts with
                | Some rest => Some ([], rest)
                | None =>
                    match ts with
                    | [] => None
                    | t :: ts' =>
                        match tfind tat ts' with
                        | Some (u, rest) => Some (t :: u, rest)
                        | None => None
                        end
                    end
                end) as Hun by (intros [|? ?]; reflexivity).
    rewrite Hun, <- (at_tokens (x :: s')).
    destruct (at_ (x :: s')) as [rest|] eqn:Hat; [reflexivity|].
    cbn [option_map]. rewrite (tokens_eq (x :: s')).
    destruct (eat_break (x :: s')) as [r|] eqn:E.
    + destruct (@eat_break_shape _ _ E) as (b & Hs & [-> | ->]); cbn [app] in Hs;
        injection Hs as -> ->.
      * rewrite <- (IH r) by (cbn; lia).
        destruct (find at_ r) as [[u rest]|]; reflexivity.
      * cbn [find]. rewrite at_break, Hat.
        rewrite <- (IH r) by (cbn; lia).
        destruct (find at_ r) as [[u rest]|]; reflexivity.
    + rewrite <- (IH s') by (cbn; lia).
      destruct (find at_ s') as [[u rest]|] eqn:F; [|reflexivity].
      destruct (find_prefix _ _ _ F) as (v & ->).
      cbn [option_map]. unfold token_pair. cbn [fst snd].
      now rewrite (tokens_cons_text x u v E).
Qed.

End TokenSearch.

Section TokenAppend.

(** The tokens of [u ++ w], from those of [u]. *)
Fixpoint tapp (ts : list (option ascii)) (w : jsstring) : list (option ascii) :=
  match ts with
  | [] => tokens w
  | t :: ts' =>
      match ts', t with
      | [], Some c => tokens (c :: w)
      | _, _ => t :: tapp ts' w
      end
  end.

Lemma tokens_some (s : jsstring) : s <> [] -> tokens s <> [].
Proof. intros H E. now apply tokens_nil in E. Qed.

Lemma tapp_cons (t : option ascii) (ts : list (option ascii)) (w : jsstring) :
  ts <> [] -> tapp (t :: ts) w = t :: tapp ts w.
Proof. destruct ts; [congruence|]. now destruct t. Qed.

Lemma tokens_app (u w : jsstring) : tokens (u ++ w) = tapp (tokens u) w.
Proof.
  induction u as [u IH] using (induction_ltof1 _ (@length ascii)). unfold ltof in IH.
  destruct u as [|x u]; [reflexivity|].
  destruct u as [|y u].
  - cbn [app]. destruct (Ascii.eqb x LF) eqn:Hl.
    + apply Ascii.eqb_eq in Hl; subst. reflexivity.
    + assert (tokens [x] = [Some x]) as ->; [|reflexivity].
      cbn [tokens]. rewrite Hl. destruct (Ascii.eqb x CR); reflexivity.
  - rewrite (tokens_eq (x :: y :: u)), (tokens_eq ((x :: y :: u) ++ w)).
    cbn [app eat_break].
    change (y :: u ++ w) with ((y :: u) ++ w).
    destruct (Ascii.eqb x LF).
    + rewrite (IH (y :: u)) by (cbn; lia).
      destruct (tokens (y :: u)); reflexivity.
    + destruct (Ascii.eqb x CR).
      * destruct (Ascii.eqb y LF).
        -- rewrite (IH u) by (cbn; lia). destruct (tokens u); reflexivity.
        -- rewrite tapp_cons by (apply tokens_some; discriminate).
           f_equal. apply (IH (y :: u)). cbn; lia.
      * rewrite tapp_cons by (apply tokens_some; discriminate).
        f_equal. apply (IH (y :: u)). cbn; lia.
Qed.

(** The kind of the line breaks of [u] does not matter to what follows. *)
Lemma same_lines_app_r (u u' w : jsstring) :
  same_lines u u' -> same_lines (u ++ w) (u' ++ w).
Proof. unfold same_lines. intros H. now rewrite !tokens_app, H. Qed.

Lemma tapp_lf (ts : list (option ascii)) :
  exists pre, forall x, tapp ts (LF :: x) = pre ++ tokens x.
Proof.
  induction ts as [|t ts IH].
  - exists [None]. reflexivity.
  - destruct IH as (pre & Hpre). destruct ts as [|t' ts].
    + destruct t as [c|].
      * cbn [tapp tokens]. destruct (Ascii.eqb c LF); [now exists [None; None]|].
        change (Ascii.eqb LF LF) with true. cbv iota.
        destruct (Ascii.eqb c CR); [now exists [None] | now exists [Some c; None]].
      * exists [None; None]. reflexivity.
    + exists (t :: pre). intros x. rewrite tapp_cons by discriminate.
      now rewrite Hpre.
Qed.

(** After a line feed, a text counts by its tokens only. *)
Lemma same_lines_after_lf (a x x' : jsstring) :
  same_lines x x' -> same_lines (a ++ LF :: x) (a ++ LF :: x').
Proof.
  unfold same_lines. intros H. rewrite !tokens_app.
  destruct (tapp_lf (tokens a)) as (pre & Hpre). now rewrite !Hpre, H.
Qed.

End TokenAppend.

Section Variants.

Lemma find_interior_length (d s u rest : jsstring) :
  find (interior_at d) s = Some (u, rest) -> length rest < length s.
Proof.
  intros H. apply (@find_shape (interior_at d)) in H as (s' & -> & Hat).
  apply interior_at_length in Hat. rewrite length_app. lia.
Qed.

Lemma replace_interior_fuel (d t : jsstring) (fuel fuel' : nat) (s : jsstring) :
  length s < fuel -> length s < fuel' ->
  replace_interior fuel d t s = replace_interior fuel' d t s.
Proof.
  revert fuel' s. induction fuel as [|fuel IH]; intros fuel' s H H'; [lia|].
  destruct fuel' as [|fuel']; [lia|]. cbn [replace_interior].
  destruct (find (interior_at d) s) as [[u rest]|] eqn:F; [|reflexivity].
  apply find_interior_length in F.
  rewrite (IH fuel' rest) by lia. reflexivity.
Qed.

Lemma interior_at_break (d s : jsstring) :
  interior_at d (LF :: s) = interior_at d (CR :: LF :: s).
Proof. reflexivity. Qed.

Lemma end_here_break (d s : jsstring) : end_here d (LF :: s) = end_here d (CR :: LF :: s).
Proof. reflexivity. Qed.

(** The same delimiters are found in two texts that differ by the kind of
    their line breaks, with the same text before and after. *)
Lemma find_same_lines (at_ : jsstring -> option jsstring)
  (tat : list (option ascii) -> option (list (option ascii))) (s s' : jsstring) :
  (forall s, option_map tokens (at_ s) = tat (tokens s)) ->
  (forall s, at_ (LF :: s) = at_ (CR :: LF :: s)) ->
  same_lines s s' ->
  match find at_ s, find at_ s' with
  | Some (u, rest), Some (u', rest') => same_lines u u' /\ same_lines rest rest'
  | None, None => True
  | _, _ => False
  end.
Proof.
  intros H1 H2 Hs.
  pose proof (find_tokens at_ tat H1 H2 s) as F.
  pose proof (find_tokens at_ tat H1 H2 s') as F'.
  rewrite <- Hs, <- F in F'.
  destruct (find at_ s) as [[u rest]|], (find at_ s') as [[u' rest']|]; cbn in F';
    try discriminate; [|exact I].
  injection F' as Hu Hr. split; [symmetry; exact Hu | symmetry; exact Hr].
Qed.

Lemma replace_interior_same_lines (d a : jsstring) (fuel : nat) (s s' : jsstring) :
  break_free d = true ->
  same_lines s s' -> length s < fuel -> length s' < fuel ->
  same_lines (replace_interior fuel d (a ++ [LF]) s) (replace_interior fuel d (a ++ [LF]) s').
Proof.
  intros Hd. revert s s'. induction fuel as [|fuel IH]; intros s s' Hs Hl Hl'; [lia|].
  cbn [replace_interior].
  pose proof (find_same_lines (interior_at d) (tinterior_at d) s s'
                (fun x => interior_at_tokens d x Hd) (interior_at_break d) Hs) as F.
  destruct (find (interior_at d) s) as [[u rest]|] eqn:E,
           (find (interior_at d) s') as [[u' rest']|] eqn:E'; try contradiction; [|exact Hs].
  destruct F as [Hu Hr].
  apply find_interior_length in E, E'.
  specialize (IH rest rest' Hr ltac:(lia) ltac:(lia)).
  unfold same_lines in *.
  rewrite <- !app_assoc. cbn [app].
  transitivity (tokens (u ++ a ++ LF :: replace_interior fuel d (a ++ [LF]) rest')).
  - rewrite !(app_assoc u a). now apply same_lines_after_lf.
  - now apply same_lines_app_r.
Qed.

End Variants.

(** The text after the first step of [rewrite], and after the second. *)
Definition after_start (eol lang open s : jsstring) : jsstring :=
  if test (start_pattern open) s then replace (MkRegExp (start_pattern open) false) [] s
  else fence ++ lang ++ eol ++ s.

Definition after_end (eol close c : jsstring) : jsstring :=
  if test (end_pattern close) c then replace (MkRegExp (end_pattern close) false) [] c
  else c ++ eol ++ fence.

Lemma rewrite_with_steps (eol lang open close s : jsstring) :
  rewrite_with eol lang open close s
  = replace (MkRegExp (interior_pattern open) true) (eol ++ fence ++ eol ++ eol)
      (replace (MkRegExp (interior_pattern close) true) (eol ++ eol ++ fence ++ lang ++ eol)
         (after_end eol close (after_start eol lang open s))).
Proof. reflexivity. Qed.

Section VariantsOfRewrite.

Variables (eol lang open close : jsstring).
Hypothesis eol_native : eol = nl \/ eol = crlf.
Hypothesis open_free : break_free open = true.
Hypothesis open_some : open <> [].
Hypothesis close_free : break_free close = true.
Hypothesis close_some : close <> [].
Hypothesis lang_plain : no_dollar lang = true.

Let Po := plain_head_break_free open_free open_some.
Let Pc := plain_head_break_free close_free close_some.

Lemma after_start_spec (s : jsstring) :
  after_start eol lang open s
  = match start_at open s with Some r => r | None => fence ++ lang ++ eol ++ s end.
Proof.
  unfold after_start. rewrite (@test_start open Po).
  destruct (start_at open s) eqn:E; [|reflexivity]. now apply (@replace_start open Po).
Qed.

Lemma after_end_spec (c : jsstring) :
  after_end eol close c
  = match end_strip close c with Some u => u | None => c ++ eol ++ fence end.
Proof.
  unfold after_end. rewrite (@test_end close Pc).
  destruct (end_strip close c) eqn:E; [|reflexivity]. now apply (@replace_end close Pc).
Qed.

Lemma eol_lf : exists e, eol = e ++ [LF].
Proof. destruct eol_native as [-> | ->]; [now exists [] | now exists [CR]]. Qed.

Lemma no_dollar_eol : no_dollar eol = true.
Proof. destruct eol_native as [-> | ->]; reflexivity. Qed.

Lemma start_same_lines (s s' : jsstring) :
  same_lines s s' ->
  test (start_pattern open) s = test (start_pattern open) s' /\
  same_lines (after_start eol lang open s) (after_start eol lang open s').
Proof.
  intros Hs. rewrite !after_start_spec, !(@test_start open Po).
  pose proof (start_at_tokens open s open_free) as H.
  pose proof (start_at_tokens open s' open_free) as H'.
  rewrite <- Hs, <- H in H'.
  destruct (start_at open s) as [r|], (start_at open s') as [r'|]; cbn in H';
    try discriminate.
  - injection H' as H'. split; [reflexivity | now symmetry].
  - split; [reflexivity|]. destruct eol_lf as (e & ->).
    rewrite <- !app_assoc, !(app_assoc fence), !(app_assoc (fence ++ lang)).
    now apply same_lines_after_lf.
Qed.

Lemma end_same_lines (c c' : jsstring) :
  same_lines c c' ->
  test (end_pattern close) c = test (end_pattern close) c' /\
  same_lines (after_end eol close c) (after_end eol close c').
Proof.
  intros Hc. rewrite !after_end_spec, !(@test_end close Pc). unfold end_strip.
  pose proof (find_same_lines (end_here close) (tend_here close) c c'
                (fun x => end_here_tokens close x close_free) (end_here_break close) Hc) as F.
  destruct (find (end_here close) c) as [[u r]|], (find (end_here close) c') as [[u' r']|];
    try contradiction; cbn [option_map fst].
  - split; [reflexivity | apply F].
  - split; [reflexivity | now apply same_lines_app_r].
Qed.

Lemma pass_same_lines (d a c c' : jsstring) :
  break_free d = true -> d <> [] -> no_dollar (a ++ [LF]) = true ->
  same_lines c c' ->
  same_lines (replace (MkRegExp (interior_pattern d) true) (a ++ [LF]) c)
             (replace (MkRegExp (interior_pattern d) true) (a ++ [LF]) c').
Proof.
  intros Hd Hn Ha Hc.
  rewrite !(@replace_interior_spec d (plain_head_break_free Hd Hn)) by assumption.
  rewrite (replace_interior_fuel d (a ++ [LF]) (S (length c)) (S (length c + length c')) c)
    by lia.
  rewrite (replace_interior_fuel d (a ++ [LF]) (S (length c')) (S (length c + length c')) c')
    by lia.
  apply replace_interior_same_lines; auto; lia.
Qed.

Lemma rewrite_same_lines (s s' : jsstring) :
  same_lines s s' ->
  same_lines (rewrite_with eol lang open close s) (rewrite_with eol lang open close s').
Proof.
  intros Hs. rewrite !rewrite_with_steps.
  destruct (start_same_lines s s' Hs) as [_ H1].
  destruct (end_same_lines _ _ H1) as [_ H2].
  destruct eol_lf as (e & He).
  assert (no_dollar (eol ++ eol ++ fence ++ lang ++ eol) = true) as D1.
  { unfold no_dollar in *. rewrite !forallb_app, lang_plain.
    fold (no_dollar eol). now rewrite no_dollar_eol. }
  assert (no_dollar (eol ++ fence ++ eol ++ eol) = true) as D2.
  { unfold no_dollar in *. rewrite !forallb_app.
    fold (no_dollar eol). now rewrite no_dollar_eol. }
  assert (eol ++ eol ++ fence ++ lang ++ eol = (eol ++ eol ++ fence ++ lang ++ e) ++ [LF]) as E1
    by (rewrite He at 3; now rewrite <- !app_assoc).
  assert (eol ++ fence ++ eol ++ eol = (eol ++ fence ++ eol ++ e) ++ [LF]) as E2
    by (rewrite He at 3; now rewrite <- !app_assoc).
  rewrite E1, E2 in *.
  apply pass_same_lines; auto.
  apply pass_same_lines; auto.
Qed.

End VariantsOfRewrite.



(** ** Literate files *)

(** The two kinds of line break, and runs of them. *)
Inductive variant : Type := Unix | Dos.

Definition break_of (v : variant) : jsstring :=
  match v with Unix => nl | Dos => crlf end.

Definition brk (vs : list variant) : jsstring := flat_map break_of vs.

Section Runs.

Lemma eat_break_brk (v : variant) (vs : list variant) (rest : jsstring) :
  eat_break (brk (v :: vs) ++ rest) = Some (brk vs ++ rest).
Proof. destruct v; reflexivity. Qed.

Lemma skip_breaks_brk (vs : list variant) (rest : jsstring) :
  eat_break rest = None -> skip_breaks (brk vs ++ rest) = rest.
Proof.
  intros H. induction vs as [|v vs IH].
  - cbn [brk flat_map app]. now rewrite skip_breaks_eq, H.
  - now rewrite skip_breaks_eq, eat_break_brk.
Qed.

Lemma skip_breaks_brk_nil (vs : list variant) : skip_breaks (brk vs) = [].
Proof.
  rewrite <- (app_nil_r (brk vs)). now apply skip_breaks_brk.
Qed.

Lemma brk_breaks (vs : list variant) : forallb is_break_char (brk vs) = true.
Proof.
  induction vs as [|v vs IH]; [reflexivity|].
  cbn [brk flat_map]. rewrite forallb_app. fold (brk vs). rewrite IH.
  now destruct v.
Qed.

Lemma brk_starts (v : variant) (vs : list variant) (rest : jsstring) :
  starts_break (brk (v :: vs) ++ rest) = true.
Proof. destruct v; reflexivity. Qed.

Lemma brk_some (v : variant) (vs : list variant) : brk (v :: vs) <> [].
Proof. destruct v; discriminate. Qed.

Lemma eat_break_plain (d rest : jsstring) :
  plain_head d = true -> eat_break (d ++ rest) = None.
Proof.
  destruct d as [|x d]; [discriminate|]. cbn [plain_head app]. intros H.
  apply eat_break_head. now destruct (is_break_char x).
Qed.

(** A delimiter line is matched whole. *)
Lemma start_at_line (d : jsstring) (vs1 : list variant) (v : variant) (vs2 : list variant)
  (rest : jsstring) :
  plain_head d = true -> eat_break rest = None ->
  start_at d (brk vs1 ++ d ++ brk (v :: vs2) ++ rest) = Some rest.
Proof.
  intros Hd Hr. unfold start_at.
  rewrite skip_breaks_brk by now apply eat_break_plain.
  rewrite starts_with_app, skipn_app_length, eat_break_brk.
  now rewrite skip_breaks_brk.
Qed.

Lemma interior_at_line (d : jsstring) (v1 : variant) (vs1 : list variant)
  (v2 : variant) (vs2 : list variant) (rest : jsstring) :
  plain_head d = true -> eat_break rest = None ->
  interior_at d (brk (v1 :: vs1) ++ d ++ brk (v2 :: vs2) ++ rest) = Some rest.
Proof.
  intros Hd Hr. unfold interior_at. rewrite eat_break_brk.
  now apply start_at_line.
Qed.

Lemma end_at_line (d : jsstring) (v1 : variant) (vs1 vs2 : list variant) :
  plain_head d = true ->
  end_at d (brk (v1 :: vs1) ++ d ++ brk vs2) = true.
Proof.
  intros Hd. unfold end_at. rewrite eat_break_brk.
  rewrite skip_breaks_brk by now apply eat_break_plain.
  rewrite starts_with_app, skipn_app_length, skip_breaks_brk_nil. reflexivity.
Qed.

End Runs.

Section RunShapes.

Lemma skip_breaks_breaks (s : jsstring) :
  exists l, s = l ++ skip_breaks s /\ forallb is_break_char l = true.
Proof.
  induction s as [s IH] using (induction_ltof1 _ (@length ascii)). unfold ltof in IH.
  rewrite skip_breaks_eq.
  destruct (eat_break s) as [s'|] eqn:E.
  - destruct (@eat_break_shape _ _ E) as (b & -> & Hb).
    destruct (IH s' (@eat_break_shorter _ _ E)) as (l & Hl & Hl').
    exists (b ++ LF :: l). split.
    + rewrite <- app_assoc. cbn [app]. now rewrite <- Hl.
    + rewrite forallb_app. cbn [forallb]. rewrite Hl'.
      destruct Hb as [-> | ->]; reflexivity.
  - now exists [].
Qed.

Lemma skip_breaks_nil_breaks (s : jsstring) :
  skip_breaks s = [] -> forallb is_break_char s = true.
Proof.
  intros H. destruct (skip_breaks_breaks s) as (l & Hs & Hl).
  rewrite H, app_nil_r in Hs. now subst.
Qed.

Lemma start_at_run (d s rest : jsstring) :
  start_at d s = Some rest ->
  exists l z, s = l ++ d ++ z /\ forallb is_break_char l = true /\ starts_break z = true.
Proof.
  unfold start_at. destruct (skip_breaks_breaks s) as (l & Hs & Hl).
  destruct (starts_with d (skip_breaks s)) eqn:Hd; [|discriminate].
  destruct (eat_break _) as [s2|] eqn:E; [|discriminate]. intros _.
  exists l, (skipn (length d) (skip_breaks s)). repeat split; try assumption.
  - now rewrite <- (@starts_with_shape _ _ Hd).
  - now apply (@eat_break_starts _ s2).
Qed.

Lemma eat_break_run (s s0 : jsstring) :
  eat_break s = Some s0 ->
  exists b, s = b ++ s0 /\ b <> [] /\ forallb is_break_char b = true.
Proof.
  intros E. destruct (@eat_break_shape _ _ E) as (b & -> & Hb).
  exists (b ++ [LF]). rewrite <- app_assoc. repeat split.
  - destruct b; discriminate.
  - destruct Hb as [-> | ->]; reflexivity.
Qed.

Lemma interior_at_run (d s rest : jsstring) :
  interior_at d s = Some rest ->
  exists l z, s = l ++ d ++ z /\ l <> [] /\ forallb is_break_char l = true /\
              starts_break z = true.
Proof.
  unfold interior_at. destruct (eat_break s) as [s0|] eqn:E; [|discriminate].
  intros H. apply start_at_run in H as (l & z & -> & Hl & Hz).
  destruct (eat_break_run _ _ E) as (b & -> & Hb & Hb').
  exists (b ++ l), z. rewrite <- app_assoc. repeat split; try assumption.
  - destruct b; [congruence | discriminate].
  - rewrite forallb_app. now rewrite Hb', Hl.
Qed.

Lemma end_at_run (d s : jsstring) :
  end_at d s = true ->
  exists l z, s = l ++ d ++ z /\ l <> [] /\ forallb is_break_char l = true /\
              forallb is_break_char z = true.
Proof.
  unfold end_at. destruct (eat_break s) as [s0|] eqn:E; [|discriminate].
  destruct (skip_breaks_breaks s0) as (l & Hs & Hl).
  intros H. apply andb_prop in H as [Hd Hz].
  destruct (eat_break_run _ _ E) as (b & -> & Hb & Hb').
  exists (b ++ l), (skipn (length d) (skip_breaks s0)).
  rewrite <- app_assoc, <- (@starts_with_shape _ _ Hd), <- Hs. repeat split.
  - destruct b; [congruence | discriminate].
  - rewrite forallb_app. now rewrite Hb', Hl.
  - apply skip_breaks_nil_breaks. destruct (skip_breaks (skipn _ _)); [reflexivity | discriminate].
Qed.

(** [find] skips a text none of whose positions starts a match. *)
Lemma find_skip (at_ : jsstring -> option jsstring) (x rest : jsstring) :
  (forall x1 x2, x = x1 ++ x2 -> x2 <> [] -> at_ (x2 ++ rest) = None) ->
  find at_ (x ++ rest)
  = match find at_ rest with
    | Some (u, r) => Some (x ++ u, r)
    | None => None
    end.
Proof.
  induction x as [|c x IH]; intros H.
  - cbn [app]. destruct (find at_ rest) as [[u r]|]; reflexivity.
  - pose proof (H [] (c :: x) eq_refl ltac:(discriminate)) as H0.
    cbn [app] in *. cbn [find]. rewrite H0, IH.
    + destruct (find at_ rest) as [[u r]|]; reflexivity.
    + intros x1 x2 -> Hx2. now apply (H (c :: x1) x2).
Qed.

Lemma last_break (l : jsstring) (c : ascii) :
  l <> [] -> forallb is_break_char l = true -> is_break_char (last l c) = true.
Proof.
  intros Hn Hl. destruct (exists_last Hn) as (w & k & ->).
  rewrite last_last. rewrite forallb_app in Hl. apply andb_prop in Hl as [_ Hl].
  cbn in Hl. now destruct (is_break_char k).
Qed.

Lemma last_app_some (a b : jsstring) (c : ascii) : b <> [] -> last (a ++ b) c = last b c.
Proof.
  intros Hn. destruct (exists_last Hn) as (w & k & ->).
  now rewrite app_assoc, !last_last.
Qed.

Lemma line_start_app (a b : jsstring) : b <> [] -> line_start (a ++ b) = line_start b.
Proof. intros H. unfold line_start. now rewrite last_app_some. Qed.

End RunShapes.

Section Calm.

Variable d : jsstring.
Hypothesis d_free : break_free d = true.
Hypothesis d_some : d <> [].

Lemma d_head_text (m m' : jsstring) : d = m ++ m' -> m' <> [] -> starts_break (m' ++ []) = false.
Proof.
  intros Hd Hm. rewrite app_nil_r. destruct m' as [|c m']; [congruence|].
  rewrite Hd in d_free. apply break_free_app in d_free as [_ H].
  apply break_free_head in H. exact H.
Qed.

Lemma line_start_run (x l : jsstring) :
  l <> [] -> forallb is_break_char l = true -> line_start (x ++ l) = true.
Proof. intros Hn Hl. rewrite line_start_app by assumption. now apply last_break. Qed.

(** No match starts in a text that ends a line only where [d] is not. *)
Lemma interior_skip (x rest : jsstring) :
  never_own_line d x -> line_start x = false -> line_end rest = true ->
  find (interior_at d) (x ++ rest)
  = match find (interior_at d) rest with
    | Some (u, r) => Some (x ++ u, r)
    | None => None
    end.
Proof.
  intros Hx Hl Hr. apply find_skip. intros x1 x2 -> Hx2.
  destruct (interior_at d (x2 ++ rest)) as [r|] eqn:E; [exfalso | reflexivity].
  apply interior_at_run in E as (l & z & E & Hln & Hlb & Hz).
  apply app_eq_app in E as (m & [[E1 E2] | [E1 E2]]).
  - destruct m as [|c m].
    + rewrite app_nil_r in E1. subst x2.
      now rewrite line_start_run in Hl.
    + symmetry in E2. apply app_eq_app in E2 as (m' & [[E3 E4] | [E3 E4]]).
      * subst x2. specialize (Hx (x1 ++ l) m'). rewrite E3, <- !app_assoc in Hx.
        specialize (Hx eq_refl). unfold own_line in Hx.
        rewrite line_start_run in Hx by assumption.
        destruct m' as [|c' m']; [discriminate|].
        subst z. cbn in Hz, Hx. congruence.
      * (* the delimiter reaches into [rest] *)
        destruct m' as [|c' m'].
        -- rewrite app_nil_r in E3. subst x2.
           specialize (Hx (x1 ++ l) []). rewrite <- E3, app_nil_r, <- app_assoc in Hx.
           specialize (Hx eq_refl). unfold own_line in Hx.
           now rewrite line_start_run in Hx.
        -- pose proof (d_head_text _ _ E3 ltac:(discriminate)) as Hc.
           rewrite app_nil_r in Hc. subst rest. cbn in Hr, Hc. congruence.
  - subst l. rewrite forallb_app in Hlb. apply andb_prop in Hlb as [Hb _].
    rewrite line_start_app in Hl by assumption.
    unfold line_start in Hl. now rewrite last_break in Hl.
Qed.

(** A text without a line of [d] holds no match. *)
Lemma interior_quiet (s : jsstring) :
  never_own_line d s -> find (interior_at d) s = None.
Proof.
  intros Hs. destruct (find (interior_at d) s) as [[u r]|] eqn:F; [exfalso | reflexivity].
  apply (@find_shape (interior_at d)) in F as (s' & -> & Hat).
  apply interior_at_run in Hat as (l & z & -> & Hln & Hlb & Hz).
  specialize (Hs (u ++ l) z). rewrite <- app_assoc in Hs. specialize (Hs eq_refl).
  unfold own_line in Hs. rewrite line_start_run in Hs by assumption.
  destruct z; [discriminate|]. cbn in Hs, Hz. congruence.
Qed.

Lemma never_own_line_nil : never_own_line d [].
Proof.
  intros u v E. symmetry in E. apply app_eq_nil in E as [_ E].
  apply app_eq_nil in E as [E _]. congruence.
Qed.

(** Another line is no line of [d]. *)
Lemma never_own_line_other (b : jsstring) :
  break_free b = true -> b <> d -> never_own_line d b.
Proof.
  intros Hb Hne u v E. unfold own_line.
  destruct u as [|c u].
  - cbn [app] in E.
    destruct v as [|c v]; [rewrite app_nil_r in E; congruence|].
    rewrite E in Hb. apply break_free_app in Hb as [_ Hb].
    apply break_free_head in Hb. cbn [line_end]. rewrite Hb. apply andb_false_r.
  - destruct (exists_last (l := c :: u)) as (w & k & Hw); [discriminate|].
    rewrite Hw in *. unfold line_start. rewrite last_last.
    rewrite E, <- app_assoc in Hb. apply break_free_app in Hb as [_ Hb].
    cbn [app] in Hb. apply break_free_head in Hb. now rewrite Hb.
Qed.

(** Two texts with a run of line breaks between them. *)
Lemma never_own_line_join (a l b : jsstring) :
  l <> [] -> forallb is_break_char l = true ->
  never_own_line d a -> never_own_line d b -> never_own_line d (a ++ l ++ b).
Proof.
  intros Hln Hlb Ha Hb u v E. unfold own_line.
  assert (forall m m', d = m ++ m' -> m' <> [] -> forall t, starts_break (m' ++ t) = false)
    as Hhead.
  { intros m m' Hd Hm t. pose proof (d_head_text _ _ Hd Hm) as H.
    destruct m'; [congruence|]. exact H. }
  assert (forall m m', d = m ++ m' -> m <> [] -> forall t, line_start (t ++ m) = false)
    as Hlast.
  { intros m m' Hd Hm t. rewrite line_start_app by assumption.
    destruct (exists_last Hm) as (w & k & ->). unfold line_start. rewrite last_last.
    rewrite Hd, <- app_assoc in d_free. apply break_free_app in d_free as [_ H].
    cbn [app] in H. now apply break_free_head in H. }
  assert (starts_break l = true) as Hls.
  { destruct l as [|c l']; [congruence|]. cbn in Hlb. cbn.
    now apply andb_prop in Hlb as [-> _]. }
  apply split_occurrence in E as [(m & E1 & E2) | [(d1 & d2 & Hd & E1 & E2) | (m & E1 & E2)]].
  - (* in [a] *)
    specialize (Ha _ _ E1). unfold own_line in Ha.
    destruct (line_start u); [|reflexivity]. cbn [andb] in *.
    destruct m as [|c m]; [discriminate Ha|]. subst v. exact Ha.
  - destruct d2 as [|c d2].
    + rewrite app_nil_r in Hd. subst d1. cbn [app] in E2.
      rewrite <- (app_nil_r d) in E1. specialize (Ha _ _ E1). unfold own_line in Ha.
      rewrite andb_true_r in Ha. now rewrite Ha.
    + exfalso. pose proof (Hhead _ _ Hd ltac:(discriminate) v) as H.
      rewrite <- E2 in H. destruct l; [congruence|]. cbn in H, Hls. congruence.
  - apply split_occurrence in E2 as [(m2 & E3 & _) | [(d1 & d2 & Hd & E3 & E4) | (m2 & E3 & E4)]].
    + (* in [l] *)
      exfalso. destruct d as [|c d']; [congruence|].
      subst l. rewrite !forallb_app in Hlb. cbn in Hlb.
      apply break_free_head in d_free. rewrite d_free in Hlb.
      cbn in Hlb. now rewrite andb_false_r in Hlb.
    + destruct d1 as [|c d1].
      * cbn [app] in Hd. subst d2. rewrite app_nil_r in E3. subst m.
        specialize (Hb [] v E4). unfold own_line in Hb. cbn in Hb.
        rewrite Hb. apply andb_false_r.
      * exfalso. pose proof (Hlast _ _ Hd ltac:(discriminate) m) as H.
        rewrite <- E3 in H. unfold line_start in H. now rewrite last_break in H.
    + specialize (Hb _ _ E4). unfold own_line in Hb.
      destruct (line_end v); [|apply andb_false_r]. rewrite andb_true_r in *.
      destruct m2 as [|c m2]; [discriminate Hb|].
      subst u m. rewrite !app_assoc. now rewrite line_start_app by discriminate.
Qed.

End Calm.

(** A line that holds nothing but [body], with the line breaks before and
    after it, and the text that follows. *)
Record piece : Type := Piece {
  above : list variant;
  body : jsstring;
  below : list variant;
  text : jsstring
}.

Definition piece_text (g : piece) : jsstring :=
  brk (above g) ++ body g ++ brk (below g) ++ text g.

(** A text and the pieces after it. *)
Definition flat (t0 : jsstring) (gs : list piece) : jsstring :=
  t0 ++ flat_map piece_text gs.

(** The lines of [d] become the line [rb] between the line breaks [r1]
    and [r2]. *)
Definition retarget (d : jsstring) (r1 : list variant) (rb : jsstring) (r2 : list variant)
  (g : piece) : piece :=
  if jseqb (body g) d then Piece r1 rb r2 (text g) else g.

(** A text that neither begins nor ends with a line-break character. *)
Definition solid (x : jsstring) : Prop := starts_break x = false /\ line_start x = false.

Definition good (d : jsstring) (g : piece) : Prop :=
  above g <> [] /\ below g <> [] /\ break_free (body g) = true /\ body g <> [] /\
  solid (text g) /\ never_own_line d (text g).

Section Pass.

Lemma jseqb_eq (a b : jsstring) : jseqb a b = true <-> a = b.
Proof.
  revert b. induction a as [|x a IH]; intros [|y b]; cbn; try (split; congruence).
  rewrite andb_true_iff, Ascii.eqb_eq, IH. split; [intros [-> ->] | intros [= -> ->]]; auto.
Qed.

Lemma find_here (at_ : jsstring -> option jsstring) (s r : jsstring) :
  at_ s = Some r -> find at_ s = Some ([], r).
Proof. intros H. destruct s; cbn [find]; now rewrite H. Qed.

Lemma eat_break_text (s : jsstring) : starts_break s = false -> eat_break s = None.
Proof.
  intros H. destruct (eat_break s) eqn:E; [|reflexivity].
  apply eat_break_starts in E. congruence.
Qed.

Lemma starts_break_app (x y : jsstring) :
  x <> [] -> starts_break (x ++ y) = starts_break x.
Proof. destruct x; [congruence | reflexivity]. Qed.

Lemma solid_some (x : jsstring) : solid x -> x <> [].
Proof. intros [_ H] ->. discriminate H. Qed.

Lemma flat_cons (t0 : jsstring) (g : piece) (gs : list piece) :
  flat t0 (g :: gs) = t0 ++ brk (above g) ++ body g ++ brk (below g) ++ flat (text g) gs.
Proof. unfold flat, piece_text. cbn [flat_map]. now rewrite <- !app_assoc. Qed.

Lemma flat_shift (t0 : jsstring) (g : piece) (gs : list piece) :
  flat t0 (g :: gs) = flat (t0 ++ piece_text g) gs.
Proof. unfold flat. cbn [flat_map]. now rewrite <- !app_assoc. Qed.

Lemma flat_starts (x : jsstring) (gs : list piece) :
  solid x -> starts_break (flat x gs) = false.
Proof.
  intros Hx. unfold flat. rewrite starts_break_app by now apply solid_some. apply Hx.
Qed.

Lemma brk_line_end (vs : list variant) (rest : jsstring) :
  vs <> [] -> line_end (brk vs ++ rest) = true.
Proof. destruct vs as [|[|] vs]; [congruence | reflexivity | reflexivity]. Qed.

Lemma brk_nonempty (vs : list variant) : vs <> [] -> brk vs <> [].
Proof. destruct vs as [|v vs]; [congruence | intros _; apply brk_some]. Qed.

Variable d : jsstring.
Hypothesis d_free : break_free d = true.
Hypothesis d_some : d <> [].
Variables (r1 : list variant) (rb : jsstring) (r2 : list variant).

Let t := brk r1 ++ rb ++ brk r2.

(** What ends the text, after the last piece: nothing that makes a line
    of [d]. *)
Variable w : jsstring.
Hypothesis w_quiet :
  forall x, never_own_line d x -> x = [] \/ line_start x = false -> never_own_line d (x ++ w).

Lemma pass (gs : list piece) :
  forall (t0 : jsstring) (fuel : nat),
    never_own_line d t0 -> t0 = [] \/ line_start t0 = false ->
    Forall (good d) gs -> length gs < fuel ->
    replace_interior fuel d t (flat t0 gs ++ w) = flat t0 (map (retarget d r1 rb r2) gs) ++ w.
Proof.
  pose proof (plain_head_break_free d_free d_some) as Hp.
  induction gs as [|g gs IH]; intros t0 fuel Ht0 Hl0 Hgs Hfuel.
  - destruct fuel as [|fuel]; [cbn in Hfuel; lia|].
    unfold flat. cbn [flat_map map replace_interior]. rewrite app_nil_r.
    now rewrite (interior_quiet d (t0 ++ w) (w_quiet t0 Ht0 Hl0)).
  - inversion Hgs as [|? ? Hg Hgs']; subst.
    destruct Hg as (Ha & Hb & Hbf & Hbn & Hx & Hxd).
    destruct (jseqb (body g) d) eqn:E.
    + pose proof (proj1 (jseqb_eq _ _) E) as E'.
      destruct fuel as [|fuel]; [cbn in Hfuel; lia|].
      cbn [map].
      change (retarget d r1 rb r2 g)
        with (if jseqb (body g) d then Piece r1 rb r2 (text g) else g).
      rewrite E, flat_cons, E'. cbn [replace_interior]. rewrite <- !app_assoc.
      assert (find (interior_at d)
                (t0 ++ brk (above g) ++ d ++ brk (below g) ++ flat (text g) gs ++ w)
              = Some (t0, flat (text g) gs ++ w)) as ->.
      { assert (find (interior_at d)
                  (brk (above g) ++ d ++ brk (below g) ++ flat (text g) gs ++ w)
                = Some ([], flat (text g) gs ++ w)) as F.
        { apply find_here.
          destruct (above g) as [|v1 vs1]; [congruence|].
          destruct (below g) as [|v2 vs2]; [congruence|].
          apply interior_at_line; [assumption|].
          apply eat_break_text. unfold flat. rewrite <- app_assoc.
          rewrite starts_break_app by now apply solid_some. apply Hx. }
        destruct Hl0 as [-> | Hl0]; [exact F|].
        rewrite (interior_skip d d_free) by
          (try assumption; now apply brk_line_end).
        rewrite F. now rewrite app_nil_r. }
      rewrite (IH (text g) fuel Hxd (or_intror (proj2 Hx)) Hgs') by (cbn in Hfuel; lia).
      rewrite flat_cons. cbn [above body below text]. subst t.
      now rewrite <- !app_assoc.
    + assert (body g <> d) as Hne by (intros H; apply jseqb_eq in H; congruence).
      cbn [map].
      change (retarget d r1 rb r2 g)
        with (if jseqb (body g) d then Piece r1 rb r2 (text g) else g).
      rewrite E, !flat_shift. apply IH; try assumption; [| |cbn in Hfuel; lia].
      * unfold piece_text. apply never_own_line_join; try assumption.
        -- now apply brk_nonempty.
        -- apply brk_breaks.
        -- apply never_own_line_join; try assumption.
           ++ now apply brk_nonempty.
           ++ apply brk_breaks.
           ++ now apply never_own_line_other.
      * right. unfold piece_text. rewrite !app_assoc.
        rewrite line_start_app by now apply solid_some. apply Hx.
Qed.

End Pass.


Section Ends.

Variable d : jsstring.
Hypothesis d_free : break_free d = true.
Hypothesis d_some : d <> [].

Lemma d_part_text (m m' : jsstring) (c : ascii) :
  d = m ++ c :: m' -> is_break_char c = false.
Proof.
  intros E. rewrite E in d_free. apply break_free_app in d_free as [_ H].
  now apply break_free_head in H.
Qed.

(** The delimiter is not at the start of a text that begins with a text
    without a line of it. *)
Lemma start_quiet (x rest : jsstring) :
  solid x -> never_own_line d x -> line_end rest = true -> start_at d (x ++ rest) = None.
Proof.
  intros [Hx1 Hx2] Hx Hr.
  destruct (start_at d (x ++ rest)) as [r|] eqn:E; [exfalso | reflexivity].
  apply start_at_run in E as (l & z & E & Hl & Hz).
  destruct l as [|c l].
  - cbn [app] in E. apply app_eq_app in E as (m & [[E1 E2] | [E1 E2]]).
    + specialize (Hx [] m E1). unfold own_line in Hx. cbn [line_start last] in Hx.
      destruct m as [|c m]; [discriminate Hx|].
      subst z. cbn in Hx, Hz. congruence.
    + destruct m as [|c m].
      * rewrite app_nil_r in E1.
        specialize (Hx [] []). rewrite app_nil_r in Hx. cbn [app] in Hx.
        symmetry in E1. specialize (Hx E1). discriminate Hx.
      * pose proof (d_part_text _ _ _ E1) as Hc.
        subst rest. cbn in Hr. congruence.
  - destruct x as [|c' x]; [discriminate Hx2|].
    cbn [app] in E. injection E as <- _. cbn in Hl, Hx1.
    apply andb_prop in Hl as [Hc _]. congruence.
Qed.

(** Two texts that end with the same delimiter and line breaks. *)
Lemma same_tail (p p' q q' : jsstring) (k k' : ascii) :
  forallb is_break_char p = true -> forallb is_break_char p' = true ->
  is_break_char k = false -> is_break_char k' = false ->
  p ++ k :: q = p' ++ k' :: q' -> p = p' /\ k = k' /\ q = q'.
Proof.
  revert p'. induction p as [|c p IH]; intros [|c' p'] Hp Hp' Hk Hk' E; cbn [app] in E.
  - injection E as -> ->. auto.
  - injection E as -> _. cbn in Hp'. apply andb_prop in Hp' as [H _]. congruence.
  - injection E as -> _. cbn in Hp. apply andb_prop in Hp as [H _]. congruence.
  - injection E as -> E. cbn in Hp, Hp'.
    apply andb_prop in Hp as [_ Hp]. apply andb_prop in Hp' as [_ Hp'].
    destruct (IH p' Hp Hp' Hk Hk' E) as (-> & -> & ->). auto.
Qed.

Lemma forallb_rev (f : ascii -> bool) (l : jsstring) : forallb f (rev l) = forallb f l.
Proof.
  induction l as [|c l IH]; [reflexivity|].
  cbn [rev forallb]. rewrite forallb_app, IH. cbn. rewrite andb_true_r. apply andb_comm.
Qed.

(** What comes before a delimiter that ends a text, up to line breaks. *)
Lemma before_final_line (a a' z z' : jsstring) :
  forallb is_break_char z = true -> forallb is_break_char z' = true ->
  a ++ d ++ z = a' ++ d ++ z' -> a = a'.
Proof.
  intros Hz Hz' E.
  destruct (exists_last d_some) as (w & k & Hd).
  assert (is_break_char k = false) as Hk.
  { pose proof d_free as H. rewrite Hd in H. now apply break_free_last in H. }
  apply (f_equal (@rev ascii)) in E.
  rewrite Hd, !rev_app_distr in E. cbn [rev app] in E. rewrite <- !app_assoc in E.
  cbn [app] in E.
  apply same_tail in E as (_ & _ & E); try assumption; try (now rewrite forallb_rev).
  apply app_inv_head in E. apply (f_equal (@rev ascii)) in E.
  now rewrite !rev_involutive in E.
Qed.

(** The close delimiter that ends a text, with the line breaks around it,
    is found after a text that ends with a text character. *)
Lemma end_strip_line (x : jsstring) (v : variant) (vs1 vs2 : list variant) :
  line_start x = false ->
  end_strip d (x ++ brk (v :: vs1) ++ d ++ brk vs2) = Some x.
Proof.
  intros Hx. unfold end_strip.
  pose proof (plain_head_break_free d_free d_some) as Hp.
  rewrite find_skip.
  - rewrite (find_here (end_here d) _ []).
    + cbn [option_map fst]. now rewrite app_nil_r.
    + unfold end_here. now rewrite end_at_line.
  - intros x1 x2 -> Hx2. unfold end_here.
    destruct (end_at d (x2 ++ brk (v :: vs1) ++ d ++ brk vs2)) eqn:E; [exfalso | reflexivity].
    apply end_at_run in E as (l & z & E & Hln & Hl & Hz).
    rewrite app_assoc in E.
    apply before_final_line in E; [|apply brk_breaks | assumption].
    subst l. rewrite forallb_app in Hl. apply andb_prop in Hl as [Hl _].
    rewrite line_start_app in Hx by assumption.
    unfold line_start in Hx. now rewrite last_break in Hx.
Qed.

(** A text that ends with a text without a line of the delimiter does not
    end with the delimiter line. *)
Lemma end_quiet (b x : jsstring) :
  line_start b = true -> solid x -> never_own_line d x -> end_strip d (b ++ x) = None.
Proof.
  intros Hb [Hx1 Hx2] Hx. unfold end_strip.
  destruct (find (end_here d) (b ++ x)) as [[u r]|] eqn:F; [exfalso | reflexivity].
  apply (@find_shape (end_here d)) in F as (s' & E & Hat). unfold end_here in Hat.
  destruct (end_at d s') eqn:He; [|discriminate].
  apply end_at_run in He as (l & z & -> & Hln & Hl & Hz).
  assert (z = []) as ->.
  { destruct z as [|c z]; [reflexivity | exfalso].
    assert (line_start (b ++ x) = true) as H.
    { rewrite E, !app_assoc. apply line_start_run; [discriminate | assumption]. }
    rewrite line_start_app in H by (intros ->; discriminate Hx2). congruence. }
  rewrite app_nil_r, app_assoc in E.
  assert (line_start (u ++ l) = true) as Hul by now apply line_start_run.
  rewrite <- (app_nil_r d) in E.
  apply split_occurrence in E as [(m & E1 & E2) | [(d1 & d2 & Hd & E1 & E2) | (m & E1 & E2)]].
  - symmetry in E2. apply app_eq_nil in E2 as [_ ->]. discriminate Hx2.
  - destruct d1 as [|c d1].
    + cbn [app] in Hd. subst d2. rewrite app_nil_r in E2.
      specialize (Hx [] []). cbn [app] in Hx. rewrite app_nil_r in Hx.
      specialize (Hx E2). discriminate Hx.
    + destruct (exists_last (l := c :: d1)) as (w & k & Hw); [discriminate|].
      rewrite Hw in *. rewrite <- app_assoc in Hd. cbn [app] in Hd.
      pose proof (d_part_text _ _ _ Hd) as Hk.
      rewrite E1, app_assoc in Hb. unfold line_start in Hb. rewrite last_last in Hb.
      congruence.
  - specialize (Hx m []). rewrite app_nil_r in *. specialize (Hx E2).
    unfold own_line in Hx. rewrite andb_true_r in Hx.
    destruct m as [|c m]; [discriminate Hx|].
    rewrite E1, line_start_app in Hul by discriminate. congruence.
Qed.

End Ends.


(** ** Literate files and their Markdown *)

(** A block of text after a delimiter line: prose after an open
    delimiter, code after a close delimiter. *)
Record block : Type := Block {
  is_prose : bool;
  upper : list variant;
  lower : list variant;
  content : jsstring
}.

(** How a file ends: with the close delimiter line, or with its last
    text and the line breaks after it. *)
Inductive ending : Type :=
| Closed (a1 a2 : list variant)
| Unclosed (z : list variant).

(** A literate file: the open delimiter line it may start with (with the
    blank lines before it), its first text, the blocks after it, and its
    ending. *)
Record literate : Type := Literate {
  lead : option (list variant * list variant);
  first : jsstring;
  blocks : list block;
  trail : ending
}.

Definition starts_in_prose (f : literate) : bool :=
  match lead f with Some _ => true | None => false end.

Definition ends_in_prose (f : literate) : bool :=
  match trail f with Closed _ _ => true | Unclosed _ => false end.

(** The line breaks after the last text of a file that does not end with
    the close delimiter line. *)
Definition last_breaks (f : literate) : jsstring :=
  match trail f with Closed _ _ => [] | Unclosed z => brk z end.

(** The kinds of the texts take turns. *)
Fixpoint alternates (k : bool) (bs : list block) (e : bool) : Prop :=
  match bs with
  | [] => k = e
  | b :: bs' => is_prose b = negb k /\ alternates (is_prose b) bs' e
  end.

Fixpoint join (sep : jsstring) (l : list jsstring) : jsstring :=
  match l with
  | [] => []
  | x :: l' =>
      match l' with
      | [] => x
      | _ :: _ => x ++ sep ++ join sep l'
      end
  end.

Lemma join_cons (sep x : jsstring) (l : list jsstring) :
  l <> [] -> join sep (x :: l) = x ++ sep ++ join sep l.
Proof. destruct l; [congruence | reflexivity]. Qed.

(** The regions of a file, prose ([true]) or code: [z] is what follows
    the last of them. *)
Fixpoint close_last (z : jsstring) (r : bool * jsstring) (rs : list (bool * jsstring))
  : list (bool * jsstring) :=
  match rs with
  | [] => [(fst r, snd r ++ z)]
  | r' :: rs' => r :: close_last z r' rs'
  end.

Definition regions (f : literate) : list (bool * jsstring) :=
  close_last (last_breaks f) (starts_in_prose f, first f)
    (map (fun b => (is_prose b, content b)) (blocks f)).

Section Literate.

Variables (eol open close : jsstring).

Definition piece_of (b : block) : piece :=
  Piece (upper b) (if is_prose b then open else close) (lower b) (content b).

Definition lead_line (f : literate) : jsstring :=
  match lead f with
  | Some (b1, b2) => brk b1 ++ open ++ brk b2
  | None => []
  end.

Definition trail_line (f : literate) : jsstring :=
  match trail f with
  | Closed a1 a2 => brk a1 ++ close ++ brk a2
  | Unclosed z => brk z
  end.

(** The text of the file. *)
Definition source (f : literate) : jsstring :=
  lead_line f ++ flat (first f) (map piece_of (blocks f)) ++ trail_line f.

(** A region, prose ([true]) or code, as Markdown: the code between a
    fence line with the tag and a fence line. *)
Definition render (tag : jsstring) (r : bool * jsstring) : jsstring :=
  if fst r then snd r else wrapped eol tag (snd r).

Definition render_all (lang tag : jsstring) (rs : list (bool * jsstring)) : list jsstring :=
  match rs with
  | [] => []
  | r :: rs' => render lang r :: map (render tag) rs'
  end.

(** The Markdown of the file: its regions in order, a blank line between
    them; [lang] is the tag of the first region, [tag] that of the
    others. *)
Definition markdown_tags (lang tag : jsstring) (f : literate) : jsstring :=
  join (eol ++ eol) (render_all lang tag (regions f)).

Definition markdown (lang : jsstring) (f : literate) : jsstring :=
  join (eol ++ eol) (map (render lang) (regions f)).

Definition text_ok (x : jsstring) : Prop :=
  solid x /\ never_own_line open x /\ never_own_line close x.

(** Every delimiter has line breaks on both sides, but for the first at
    the very start and the last at the very end, and the texts are texts. *)
Definition laid_out (f : literate) : Prop :=
  match lead f with Some (_, b2) => b2 <> [] | None => True end /\
  match trail f with Closed a1 _ => a1 <> [] | Unclosed _ => True end /\
  Forall (fun b => upper b <> [] /\ lower b <> []) (blocks f) /\
  Forall text_ok (first f :: map content (blocks f)).

Definition well_formed (f : literate) : Prop :=
  alternates (starts_in_prose f) (blocks f) (ends_in_prose f) /\ laid_out f.

(** What the delimiter lines between the texts become. *)
Definition middle (tag : jsstring) (bs : list block) : jsstring :=
  flat_map (fun b =>
              (if is_prose b then eol ++ fence ++ eol ++ eol
               else eol ++ eol ++ fence ++ tag ++ eol) ++ content b) bs.

(** The text of the file with a fence line for every delimiter line: the
    fence line with the tag where code starts, the bare fence line where
    it ends, whichever way the delimiters follow each other. *)
Definition fenced (lang tag : jsstring) (f : literate) : jsstring :=
  (if starts_in_prose f then first f else fence ++ lang ++ eol ++ first f)
  ++ middle tag (blocks f)
  ++ last_breaks f ++ (if ends_in_prose f then [] else eol ++ fence).

Lemma render_all_same (tag : jsstring) (rs : list (bool * jsstring)) :
  render_all tag tag rs = map (render tag) rs.
Proof. now destruct rs. Qed.

Lemma close_last_some (z : jsstring) (r : bool * jsstring) (rs : list (bool * jsstring)) :
  close_last z r rs <> [].
Proof. destruct rs; discriminate. Qed.

Lemma markdown_middle (tag z : jsstring) (bs : list block) :
  forall (lang : jsstring) (k : bool) (x : jsstring) (e : bool),
    alternates k bs e ->
    join (eol ++ eol)
      (render_all lang tag
         (close_last z (k, x) (map (fun b => (is_prose b, content b)) bs)))
    = (if k then x else fence ++ lang ++ eol ++ x) ++ middle tag bs
      ++ z ++ (if e then [] else eol ++ fence).
Proof.
  induction bs as [|b bs IH]; intros lang k x e H.
  - cbn in H. subst e. cbn [map close_last render_all join].
    unfold render, wrapped, middle. cbn [flat_map fst snd app].
    destruct k; rewrite ?app_nil_r, <- ?app_assoc; reflexivity.
  - destruct H as [Hb H].
    cbn [map close_last render_all]. rewrite <- render_all_same.
    rewrite join_cons, (IH tag _ _ _ H).
    + unfold middle. cbn [flat_map]. fold (middle tag bs). unfold render, wrapped. cbn [fst snd].
      rewrite Hb. destruct k; cbn [negb]; rewrite <- ?app_assoc; reflexivity.
    + destruct (close_last z (is_prose b, content b)
                  (map (fun b => (is_prose b, content b)) bs)) eqn:E; [|discriminate].
      now apply close_last_some in E.
Qed.

Lemma markdown_fenced (lang tag : jsstring) (f : literate) :
  alternates (starts_in_prose f) (blocks f) (ends_in_prose f) ->
  markdown_tags lang tag f = fenced lang tag f.
Proof. intros H. unfold markdown_tags, fenced, regions. now apply markdown_middle. Qed.

Lemma markdown_one_tag (lang : jsstring) (f : literate) :
  markdown lang f = markdown_tags lang lang f.
Proof. unfold markdown, markdown_tags. now rewrite render_all_same. Qed.

End Literate.

(** ** Line breaks, one kind at a time *)

Section Strips.

Lemma eat_break_variant (s s' : jsstring) :
  eat_break s = Some s' -> exists v, s = break_of v ++ s'.
Proof.
  intros E. destruct (eat_break_shape s E) as (b & -> & [-> | ->]);
    [now exists Unix | now exists Dos].
Qed.

Lemma skip_breaks_variants (s : jsstring) :
  exists vs, s = brk vs ++ skip_breaks s /\ eat_break (skip_breaks s) = None.
Proof.
  induction s as [s IH] using (induction_ltof1 _ (@length ascii)). unfold ltof in IH.
  rewrite skip_breaks_eq.
  destruct (eat_break s) as [s'|] eqn:E.
  - destruct (eat_break_variant s s' E) as (v & ->).
    destruct (IH s' (eat_break_shorter _ E)) as (vs & Hs & Hn).
    exists (v :: vs). split; [|assumption].
    cbn [brk flat_map]. fold (brk vs). rewrite <- app_assoc. now rewrite <- Hs.
  - exists []. now split.
Qed.

Lemma brk_app (vs1 vs2 : list variant) : brk (vs1 ++ vs2) = brk vs1 ++ brk vs2.
Proof. apply flat_map_app. Qed.

Lemma start_at_variants (d s rest : jsstring) :
  start_at d s = Some rest ->
  exists vs1 v vs2, s = brk vs1 ++ d ++ brk (v :: vs2) ++ rest /\ eat_break rest = None.
Proof.
  unfold start_at. destruct (skip_breaks_variants s) as (vs1 & Hs & _).
  destruct (starts_with d (skip_breaks s)) eqn:Hd; [|discriminate].
  destruct (eat_break _) as [s2|] eqn:E; [|discriminate]. intros [= <-].
  destruct (eat_break_variant _ _ E) as (v & Hv).
  destruct (skip_breaks_variants s2) as (vs2 & Hs2 & Hn).
  exists vs1, v, vs2. split; [|assumption].
  rewrite Hs at 1. rewrite (starts_with_shape _ _ Hd) at 1. rewrite Hv.
  cbn [brk flat_map]. fold (brk vs2). rewrite <- !app_assoc. now rewrite <- Hs2.
Qed.

Lemma end_at_variants (d s : jsstring) :
  end_at d s = true -> exists v vs1 vs2, s = brk (v :: vs1) ++ d ++ brk vs2.
Proof.
  unfold end_at. destruct (eat_break s) as [s0|] eqn:E; [|discriminate].
  destruct (eat_break_variant _ _ E) as (v & ->).
  destruct (skip_breaks_variants s0) as (vs1 & Hs0 & _).
  intros H. apply andb_prop in H as [Hd Hz].
  destruct (skip_breaks_variants (skipn (length d) (skip_breaks s0))) as (vs2 & Hz2 & _).
  destruct (skip_breaks (skipn (length d) (skip_breaks s0))); [|discriminate].
  rewrite app_nil_r in Hz2.
  exists v, vs1, vs2. cbn [brk flat_map]. fold (brk vs1). rewrite <- app_assoc.
  rewrite Hs0 at 1. rewrite (starts_with_shape _ _ Hd) at 1. now rewrite Hz2 at 1.
Qed.

Lemma find_none (at_ : jsstring -> option jsstring) (s u s' : jsstring) :
  find at_ s = None -> s = u ++ s' -> at_ s' = None.
Proof.
  revert s. induction u as [|x u IH]; intros s F ->; cbn [app] in F.
  - destruct s'; cbn [find] in F; destruct (at_ _); [discriminate | reflexivity |
      discriminate | reflexivity].
  - cbn [find] in F. destruct (at_ (x :: u ++ s')); [discriminate|].
    destruct (find at_ (u ++ s')) as [[u0 r0]|] eqn:F'; [discriminate|].
    now apply (IH _ F').
Qed.

Lemma find_first (at_ : jsstring -> option jsstring) (s u rest u' s' : jsstring) :
  find at_ s = Some (u, rest) -> s = u' ++ s' -> at_ s' <> None -> length u <= length u'.
Proof.
  revert s u. induction u' as [|x u' IH]; intros s u F -> Hat; cbn [app] in F.
  - destruct s'; cbn [find] in F; destruct (at_ _); try congruence;
      injection F as <- _; cbn; lia.
  - cbn [find] in F. destruct (at_ (x :: u' ++ s')).
    + injection F as <- _. cbn. lia.
    + destruct (find at_ (u' ++ s')) as [[u0 r0]|] eqn:F'; [|discriminate].
      injection F as <- <-. cbn [length]. apply le_n_S. now apply (IH _ _ F').
Qed.

End Strips.

Section Conversion.

(** [lang] is the language tag, [tag] what the substitution of the close
    delimiters makes of it. *)
Variables (eol lang tag open close : jsstring) (v : variant).
Hypothesis eol_native : eol = break_of v.
Hypothesis open_free : break_free open = true.
Hypothesis open_some : open <> [].
Hypothesis close_free : break_free close = true.
Hypothesis close_some : close <> [].
Hypothesis lang_free : break_free lang = true.
Hypothesis tag_free : break_free tag = true.
Hypothesis template_tag :
  forall n m pre,
    GetSubstitution n m pre (eol ++ eol ++ fence ++ lang ++ eol)
    = eol ++ eol ++ fence ++ tag ++ eol.
Hypothesis open_not_close : open <> close.
Hypothesis open_not_fence : open <> fence /\ open <> fence ++ lang /\ open <> fence ++ tag.
Hypothesis close_not_fence : close <> fence /\ close <> fence ++ lang /\ close <> fence ++ tag.

Let gs_of (f : literate) : list piece := map (piece_of open close) (blocks f).

Let t0_of (f : literate) : jsstring :=
  if starts_in_prose f then first f else fence ++ lang ++ eol ++ first f.

Let w_of (f : literate) : jsstring :=
  last_breaks f ++ (if ends_in_prose f then [] else eol ++ fence).

Lemma eol_kind : eol = nl \/ eol = crlf.
Proof. rewrite eol_native. destruct v; auto. Qed.

Lemma eol_brk : eol = brk [v].
Proof. rewrite eol_native. cbn. now rewrite app_nil_r. Qed.

Lemma fence_tag_free (l : jsstring) : break_free l = true -> break_free (fence ++ l) = true.
Proof. intros H. unfold break_free in *. rewrite forallb_app. now rewrite H. Qed.

(** The substitution of a pattern by a text that every match turns into
    the same text. *)
Lemma replace_loop_constant (d : jsstring) (t t' input : jsstring) (fuel : nat) :
  plain_head d = true ->
  (forall n m pre, GetSubstitution n m pre t = t') ->
  forall pre s,
    replace_loop fuel (interior_pattern d) t input pre s = replace_interior fuel d t' s.
Proof.
  intros plain Ht. induction fuel as [|fuel IH]; intros pre s; [reflexivity|].
  cbn [replace_loop replace_interior].
  pose proof (fun s' => @rmatch_interior_at input d s' [] plain) as H.
  destruct (find (interior_at d) s) as [[u rest]|] eqn:F.
  - destruct (@search_some _ _ _ H [] _ _ _ F) as [c ->].
    cbn [before matched after rev app]. rewrite Ht.
    apply find_shape in F as (s' & -> & Hat).
    rewrite skipn_app_length.
    apply interior_at_length in Hat.
    destruct s' as [|x s']; [simpl in Hat; lia|].
    destruct (length (x :: s') - length rest) eqn:El; [lia|].
    cbn [firstn]. now rewrite IH.
  - now rewrite (@search_none _ _ _ H [] _ F).
Qed.

Lemma jseqb_neq (a b : jsstring) : a <> b -> jseqb a b = false.
Proof.
  intros H. destruct (jseqb a b) eqn:E; [|reflexivity]. now apply jseqb_eq in E.
Qed.

Lemma good_pieces (d : jsstring) (bs : list block) :
  (d = open \/ d = close) ->
  Forall (fun b => upper b <> [] /\ lower b <> []) bs ->
  Forall (text_ok open close) (map content bs) ->
  Forall (good d) (map (piece_of open close) bs).
Proof.
  intros Hd. induction bs as [|b bs IH]; intros H1 H2; [constructor|].
  inversion H1 as [|? ? [Hu Hl] H1']; inversion H2 as [|? ? (Hs & Ho & Hc) H2']; subst.
  constructor; [|now apply IH].
  unfold good, piece_of. cbn [above below body text]. repeat split; try assumption;
    try apply Hs.
  - now destruct (is_prose b).
  - now destruct (is_prose b).
  - now destruct Hd as [-> | ->].
Qed.

Lemma flat_last (P : jsstring -> Prop) (gs : list piece) :
  forall t0, Forall P (t0 :: map text gs) -> Forall (fun g => below g <> []) gs ->
             exists b x, flat t0 gs = b ++ x /\ line_start b = true /\ P x.
Proof.
  induction gs as [|g gs IH]; intros t0 HP Hb.
  - exists [], t0. unfold flat. cbn. rewrite app_nil_r. inversion HP; auto.
  - inversion HP as [|? ? _ HP']; inversion Hb as [|? ? Hg Hb']; subst.
    destruct (IH (text g) HP' Hb') as (b & x & E & Hl & Hx).
    exists ((t0 ++ brk (above g) ++ body g ++ brk (below g)) ++ b), x.
    rewrite flat_cons, E. repeat split; [now rewrite <- !app_assoc | | assumption].
    destruct b as [|c b].
    + rewrite app_nil_r, !app_assoc. apply line_start_run; [now apply brk_nonempty | apply brk_breaks].
    + now rewrite line_start_app by discriminate.
Qed.

Lemma flat_line_start (t0 : jsstring) (gs : list piece) :
  Forall solid (t0 :: map text gs) -> Forall (fun g => below g <> []) gs ->
  line_start (flat t0 gs) = false.
Proof.
  intros H1 H2. destruct (flat_last solid gs t0 H1 H2) as (b & x & -> & _ & Hx).
  rewrite line_start_app by now apply solid_some. apply Hx.
Qed.

Lemma flat_length (t0 : jsstring) (gs : list piece) :
  Forall (fun g => above g <> []) gs -> length gs <= length (flat t0 gs).
Proof.
  intros H. unfold flat. rewrite length_app.
  enough (length gs <= length (flat_map piece_text gs)) by lia.
  induction H as [|g gs Hg _ IH]; [cbn; lia|].
  cbn [flat_map length]. rewrite length_app. unfold piece_text at 1. rewrite length_app.
  destruct (above g) as [|[|] vs]; [congruence | cbn; lia | cbn; lia].
Qed.

(** The fence line put at the end makes no line of a delimiter. *)
Lemma tail_quiet (d : jsstring) (z : list variant) (x : jsstring) :
  break_free d = true -> d <> [] -> d <> fence ->
  never_own_line d x -> never_own_line d (x ++ brk z ++ eol ++ fence).
Proof.
  intros Hd Hn Hf Hx.
  replace (x ++ brk z ++ eol ++ fence) with (x ++ (brk z ++ eol) ++ fence)
    by now rewrite <- app_assoc.
  apply never_own_line_join; try assumption.
  - destruct eol_kind as [-> | ->]; now destruct (brk z).
  - rewrite forallb_app, brk_breaks. destruct eol_kind as [-> | ->]; reflexivity.
  - apply never_own_line_other; [reflexivity | congruence].
Qed.

Lemma final_breaks (a a' z z' : jsstring) (k k' : ascii) :
  is_break_char k = false -> is_break_char k' = false ->
  forallb is_break_char z = true -> forallb is_break_char z' = true ->
  a ++ k :: z = a' ++ k' :: z' -> a ++ [k] = a' ++ [k'] /\ z = z'.
Proof.
  intros Hk Hk' Hz Hz' E.
  apply (f_equal (@rev ascii)) in E.
  rewrite !rev_app_distr in E. cbn [rev] in E. rewrite <- !app_assoc in E. cbn [app] in E.
  apply same_tail in E as (Ez & -> & Ea); try assumption; try now rewrite forallb_rev.
  apply (f_equal (@rev ascii)) in Ez, Ea. rewrite !rev_involutive in Ez, Ea.
  now subst.
Qed.

(** A text that ends with a text without a line of the delimiter and
    line breaks does not end with the delimiter line. *)
Lemma end_quiet_run (d b x : jsstring) (z : list variant) :
  break_free d = true -> d <> [] ->
  line_start b = true -> solid x -> never_own_line d x ->
  end_strip d (b ++ x ++ brk z) = None.
Proof.
  intros Hd Hn Hb Hx Hxd.
  pose proof (end_quiet d Hd b x Hb Hx Hxd) as Q. unfold end_strip in *.
  destruct (find (end_here d) (b ++ x ++ brk z)) as [[u r]|] eqn:F; [exfalso | reflexivity].
  destruct (find (end_here d) (b ++ x)) as [[u0 r0]|] eqn:F0; [discriminate|]. clear Q.
  destruct (find_shape _ _ F) as (s' & E & Hat). unfold end_here in Hat.
  destruct (end_at d s') eqn:He; [|discriminate].
  destruct (end_at_variants _ _ He) as (v1 & vs1 & vs2 & ->).
  assert (b ++ x = u ++ brk (v1 :: vs1) ++ d) as E'.
  { destruct (exists_last (solid_some x Hx)) as (x' & kx & Ex).
    destruct (exists_last Hn) as (w & k & Ek).
    assert (is_break_char kx = false) as Hkx.
    { destruct Hx as [_ H]. unfold line_start in H. rewrite Ex in H.
      now rewrite last_last in H. }
    assert (is_break_char k = false) as Hk
      by (apply (break_free_last w k); now rewrite <- Ek).
    rewrite Ex, Ek in E |- *.
    replace (b ++ (x' ++ [kx]) ++ brk z) with ((b ++ x') ++ kx :: brk z) in E
      by now rewrite <- !app_assoc.
    replace (u ++ brk (v1 :: vs1) ++ (w ++ [k]) ++ brk vs2)
      with ((u ++ brk (v1 :: vs1) ++ w) ++ k :: brk vs2) in E
      by now rewrite <- !app_assoc.
    apply final_breaks in E as [E _]; try assumption; try apply brk_breaks.
    rewrite <- ?app_assoc in E. now rewrite <- ?app_assoc. }
  pose proof (find_none _ _ _ _ F0 E') as N. unfold end_here in N.
  pose proof (end_at_line d v1 vs1 [] (plain_head_break_free Hd Hn)) as T.
  change (brk []) with (@nil ascii) in T. rewrite app_nil_r in T.
  rewrite T in N. discriminate.
Qed.

Lemma no_dollar_app (a b : jsstring) : no_dollar (a ++ b) = no_dollar a && no_dollar b.
Proof. apply forallb_app. Qed.

Lemma eol_plain : no_dollar eol = true.
Proof. destruct eol_kind as [-> | ->]; reflexivity. Qed.

Section File.

Variable f : literate.
Hypothesis f_ok : laid_out open close f.

Lemma lead_ok : match lead f with Some (_, b2) => b2 <> [] | None => True end.
Proof. apply f_ok. Qed.

Lemma trail_ok : match trail f with Closed a1 _ => a1 <> [] | Unclosed _ => True end.
Proof. apply f_ok. Qed.

Lemma runs_ok : Forall (fun b => upper b <> [] /\ lower b <> []) (blocks f).
Proof. apply f_ok. Qed.

Lemma texts_ok : Forall (text_ok open close) (first f :: map content (blocks f)).
Proof. apply f_ok. Qed.

Lemma first_ok : text_ok open close (first f).
Proof. pose proof texts_ok as H. now inversion H. Qed.

Lemma contents_ok : Forall (text_ok open close) (map content (blocks f)).
Proof. pose proof texts_ok as H. now inversion H. Qed.

Lemma pieces_text : map text (gs_of f) = map content (blocks f).
Proof. unfold gs_of. rewrite map_map. reflexivity. Qed.

Lemma pieces_below : Forall (fun g => below g <> []) (gs_of f).
Proof.
  unfold gs_of. rewrite Forall_map. eapply Forall_impl; [|exact runs_ok]. now intros b [_ H].
Qed.

Lemma pieces_above : Forall (fun g => above g <> []) (gs_of f).
Proof.
  unfold gs_of. rewrite Forall_map. eapply Forall_impl; [|exact runs_ok]. now intros b [H _].
Qed.

Lemma t0_solid : solid (t0_of f).
Proof.
  destruct first_ok as ((H1 & H2) & _). unfold t0_of.
  destruct (starts_in_prose f); [now split|]. split; [reflexivity|].
  rewrite !app_assoc. rewrite line_start_app; [assumption|]. intros E. rewrite E in H2. discriminate.
Qed.

Lemma t0_quiet (d : jsstring) :
  (d = open /\ never_own_line open (first f) \/ d = close /\ never_own_line close (first f)) ->
  never_own_line d (t0_of f).
Proof.
  intros Hd. unfold t0_of.
  assert (break_free d = true /\ d <> [] /\ d <> fence ++ lang /\ never_own_line d (first f))
    as (Hf & Hn & Hne & Hx).
  { destruct Hd as [[-> H] | [-> H]]; repeat split; try assumption;
      [apply open_not_fence | apply close_not_fence]. }
  destruct (starts_in_prose f); [assumption|].
  rewrite app_assoc. apply never_own_line_join; try assumption.
  - destruct eol_kind as [-> | ->]; discriminate.
  - destruct eol_kind as [-> | ->]; reflexivity.
  - apply never_own_line_other; [now apply fence_tag_free | congruence].
Qed.

Lemma solid_texts : Forall solid (t0_of f :: map text (gs_of f)).
Proof.
  constructor; [apply t0_solid|]. rewrite pieces_text.
  eapply Forall_impl; [|exact contents_ok]. now intros x [H _].
Qed.

Lemma after_start_source :
  after_start eol lang open (source open close f) = flat (t0_of f) (gs_of f) ++ trail_line close f.
Proof.
  rewrite (after_start_spec eol lang open open_free open_some).
  unfold source, lead_line, t0_of, starts_in_prose. fold (gs_of f).
  destruct first_ok as (Hs & Ho & _).
  destruct (lead f) as [[b1 b2]|] eqn:EL.
  - pose proof lead_ok as Hb2. rewrite EL in Hb2. destruct b2 as [|v2 vs2]; [now destruct Hb2|].
    rewrite <- !app_assoc.
    rewrite start_at_line; [reflexivity | now apply plain_head_break_free |].
    apply eat_break_text. unfold flat. rewrite <- app_assoc.
    rewrite starts_break_app by now apply solid_some. apply Hs.
  - cbn [app]. unfold flat at 1. rewrite <- app_assoc.
    rewrite start_quiet; try assumption.
    + unfold flat. now rewrite <- !app_assoc.
    + pose proof pieces_above as Ha.
      destruct (gs_of f) as [|g gs].
      * cbn [flat_map app]. unfold trail_line.
        pose proof trail_ok as Ht.
        destruct (trail f) as [a1 a2|z]; [now apply brk_line_end|].
        destruct z as [|[|] z]; reflexivity.
      * inversion Ha; subst. cbn [flat_map]. unfold piece_text. rewrite <- !app_assoc.
        now apply brk_line_end.
Qed.

Lemma after_end_source :
  after_end eol close (flat (t0_of f) (gs_of f) ++ trail_line close f)
  = flat (t0_of f) (gs_of f) ++ w_of f.
Proof.
  rewrite (after_end_spec eol close close_free close_some).
  unfold trail_line, w_of, ends_in_prose, last_breaks.
  destruct (trail f) as [a1 a2|z] eqn:ET.
  - pose proof trail_ok as Ha1. rewrite ET in Ha1. destruct a1 as [|v1 vs1]; [now destruct Ha1|].
    rewrite end_strip_line; try assumption; [now rewrite app_nil_r|].
    apply flat_line_start; [apply solid_texts | apply pieces_below].
  - destruct (flat_last (fun x => solid x /\ never_own_line close x) (gs_of f) (t0_of f))
      as (b & x & E & Hb & Hx & Hc).
    + constructor.
      * split; [apply t0_solid | apply t0_quiet; right; split; [reflexivity | apply first_ok]].
      * rewrite pieces_text. eapply Forall_impl; [|exact contents_ok].
        intros y (H1 & _ & H3). now split.
    + apply pieces_below.
    + rewrite E at 1. rewrite <- app_assoc.
      rewrite (end_quiet_run close b x z close_free close_some Hb Hx Hc).
      now rewrite <- !app_assoc.
Qed.

Lemma w_quiet (d : jsstring) :
  break_free d = true -> d <> [] -> d <> fence ->
  forall x, never_own_line d x -> x = [] \/ line_start x = false ->
            never_own_line d (x ++ w_of f).
Proof.
  intros Hd Hn Hf x Hx _. unfold w_of, last_breaks, ends_in_prose.
  destruct (trail f) as [a1 a2|z]; [now rewrite !app_nil_r|].
  now apply tail_quiet.
Qed.

Lemma t0_start : t0_of f = [] \/ line_start (t0_of f) = false.
Proof. right. apply t0_solid. Qed.

Lemma pieces_good (d : jsstring) :
  d = open \/ d = close -> Forall (good d) (gs_of f).
Proof.
  intros Hd. apply good_pieces; [assumption | apply runs_ok | apply contents_ok].
Qed.

(** After the closing delimiters have become fences, the pieces are
    still well formed for the opening delimiter. *)
Lemma pieces_good_again :
  Forall (good open) (map (retarget close [v; v] (fence ++ tag) [v]) (gs_of f)).
Proof.
  rewrite Forall_map. eapply Forall_impl; [|apply (pieces_good open); now left].
  intros g (H1 & H2 & H3 & H4 & H5 & H6). unfold retarget.
  destruct (jseqb (body g) close);
    [|exact (conj H1 (conj H2 (conj H3 (conj H4 (conj H5 H6)))))].
  unfold good. cbn [above below body text].
  repeat split; try assumption; try discriminate; try apply H5;
    try (now apply fence_tag_free).
Qed.

Lemma close_template : eol ++ eol ++ fence ++ tag ++ eol = brk [v; v] ++ (fence ++ tag) ++ brk [v].
Proof. rewrite eol_native. unfold brk. cbn [flat_map]. rewrite !app_nil_r. now rewrite <- ?app_assoc. Qed.

Lemma open_template : eol ++ fence ++ eol ++ eol = brk [v] ++ fence ++ brk [v; v].
Proof. rewrite eol_native. unfold brk. cbn [flat_map]. rewrite !app_nil_r. now rewrite <- ?app_assoc. Qed.

Lemma open_template_plain : no_dollar (eol ++ fence ++ eol ++ eol) = true.
Proof. now rewrite !no_dollar_app, eol_plain. Qed.

Lemma pieces_length (gs : list piece) (t0 w : jsstring) :
  Forall (fun g => above g <> []) gs -> length gs < S (length (flat t0 gs ++ w)).
Proof. intros H. rewrite length_app. pose proof (flat_length t0 gs H). lia. Qed.

Lemma pieces_above_again :
  Forall (fun g => above g <> []) (map (retarget close [v; v] (fence ++ tag) [v]) (gs_of f)).
Proof.
  eapply Forall_impl; [|apply pieces_good_again]. now intros g [H _].
Qed.

Lemma piece_final (b : block) :
  piece_text (retarget open [v] fence [v; v]
                (retarget close [v; v] (fence ++ tag) [v] (piece_of open close b)))
  = (if is_prose b then eol ++ fence ++ eol ++ eol else eol ++ eol ++ fence ++ tag ++ eol)
    ++ content b.
Proof.
  unfold piece_of. destruct (is_prose b).
  - unfold retarget at 2. cbn [body]. rewrite (jseqb_neq _ _ open_not_close).
    unfold retarget. cbn [body]. rewrite (proj2 (jseqb_eq open open) eq_refl).
    unfold piece_text. cbn [above below body text]. rewrite open_template.
    now rewrite <- !app_assoc.
  - unfold retarget at 2. cbn [body]. rewrite (proj2 (jseqb_eq close close) eq_refl).
    unfold retarget. cbn [body].
    rewrite jseqb_neq by (intros E; now apply (proj2 (proj2 open_not_fence))).
    unfold piece_text. cbn [above below body text]. rewrite close_template.
    now rewrite <- !app_assoc.
Qed.

Lemma pieces_final (bs : list block) :
  flat_map piece_text
    (map (retarget open [v] fence [v; v])
       (map (retarget close [v; v] (fence ++ tag) [v]) (map (piece_of open close) bs)))
  = middle eol tag bs.
Proof.
  induction bs as [|b bs IH]; [reflexivity|].
  cbn [map flat_map]. rewrite piece_final, IH. unfold middle. cbn [flat_map].
  now rewrite <- !app_assoc.
Qed.

Lemma rewrite_source_tags :
  rewrite eol lang open close (source open close f) = Some (fenced eol lang tag f).
Proof.
  rewrite rewrite_total, rewrite_with_steps. f_equal.
  rewrite after_start_source, after_end_source.
  unfold replace at 2. cbn [global source].
  rewrite (replace_loop_constant close _ _ _ _
             (plain_head_break_free close_free close_some) template_tag).
  rewrite close_template.
  rewrite (pass close close_free close_some [v; v] (fence ++ tag) [v] (w_of f)).
  - rewrite (@replace_interior_spec open (plain_head_break_free open_free open_some))
      by apply open_template_plain.
    rewrite open_template.
    rewrite (pass open open_free open_some [v] fence [v; v] (w_of f)).
    + unfold flat, gs_of. rewrite pieces_final.
      unfold fenced, t0_of, w_of. now rewrite <- !app_assoc.
    + apply (w_quiet open open_free open_some (proj1 open_not_fence)).
    + apply t0_quiet. left. split; [reflexivity | apply first_ok].
    + apply t0_start.
    + apply pieces_good_again.
    + apply pieces_length. apply pieces_above_again.
  - apply (w_quiet close close_free close_some (proj1 close_not_fence)).
  - apply t0_quiet. right. split; [reflexivity | apply first_ok].
  - apply t0_start.
  - apply pieces_good. now right.
  - apply pieces_length. apply pieces_above.
Qed.

End File.

(** *** Nothing between two delimiter lines *)

Lemma text_end (x d : jsstring) :
  break_free d = true -> d <> [] -> line_start (x ++ d) = false.
Proof.
  intros Hd Hn. rewrite line_start_app by assumption.
  destruct (exists_last Hn) as (a & c & ->). unfold line_start. rewrite last_last.
  now apply (break_free_last a c).
Qed.

(** One line of [d] between a text and a text. *)
Lemma one_line (d : jsstring) (r1 : list variant) (rb : jsstring) (r2 u l : list variant)
  (t0 x w : jsstring) :
  break_free d = true -> d <> [] ->
  (forall y, never_own_line d y -> y = [] \/ line_start y = false -> never_own_line d (y ++ w)) ->
  never_own_line d t0 -> line_start t0 = false ->
  u <> [] -> l <> [] -> solid x -> never_own_line d x ->
  forall fuel, 0 < fuel ->
  replace_interior (S fuel) d (brk r1 ++ rb ++ brk r2) (t0 ++ brk u ++ d ++ brk l ++ x ++ w)
  = t0 ++ brk r1 ++ rb ++ brk r2 ++ x ++ w.
Proof.
  intros Hd Hn Hw Ht0 Hl0 Hu Hl Hx Hxd fuel Hfuel.
  pose proof (pass d Hd Hn r1 rb r2 w Hw [Piece u d l x] t0 (S fuel) Ht0 (or_intror Hl0)) as H.
  unfold flat, retarget, piece_text in H.
  cbn [map flat_map above body below text] in H.
  rewrite (proj2 (jseqb_eq d d) eq_refl) in H.
  cbn [above body below text] in H.
  rewrite !app_nil_r, <- !app_assoc in H. apply H.
  - constructor; [|constructor]. unfold good. cbn [above body below text]. tauto.
  - cbn. lia.
Qed.

(** Two lines of [d] with nothing but line breaks between them: the
    second is not preceded by a line break of its own any more once the
    first has been matched. *)
Lemma line_after_line (d t t0 rest : jsstring) (u m : list variant) :
  break_free d = true -> d <> [] ->
  never_own_line d t0 -> line_start t0 = false ->
  u <> [] -> m <> [] ->
  find (interior_at d) (d ++ rest) = None ->
  forall fuel,
    replace_interior (S (S fuel)) d t (t0 ++ brk u ++ d ++ brk m ++ d ++ rest)
    = t0 ++ t ++ d ++ rest.
Proof.
  intros Hd Hn Ht0 Hl0 Hu Hm Hrest fuel.
  pose proof (plain_head_break_free Hd Hn) as Hp.
  cbn [replace_interior].
  rewrite (interior_skip d Hd t0 _ Ht0 Hl0 (brk_line_end u _ Hu)).
  destruct u as [|vu u']; [congruence|]. destruct m as [|vm m']; [congruence|].
  rewrite (find_here (interior_at d) _ (d ++ rest)
             (interior_at_line d vu u' vm m' _ Hp (eat_break_plain d rest Hp))).
  now rewrite Hrest, app_nil_r.
Qed.

(** No line of [d] starts in [d] followed by line breaks and a text
    without a line of [d]. *)
Lemma after_line_quiet (d y : jsstring) (l : list variant) :
  break_free d = true -> d <> [] -> l <> [] -> never_own_line d y ->
  find (interior_at d) (d ++ brk l ++ y) = None.
Proof.
  intros Hd Hn Hl Hy. rewrite find_skip.
  - rewrite (interior_quiet d (brk l ++ y)); [reflexivity|].
    change (brk l ++ y) with ([] ++ brk l ++ y).
    apply never_own_line_join; try assumption.
    + now apply brk_nonempty.
    + apply brk_breaks.
    + now apply never_own_line_nil.
  - intros d1 d2 E Hd2. unfold interior_at.
    destruct d2 as [|c d2]; [congruence|].
    assert (is_break_char c = false) as Hc.
    { rewrite E in Hd. apply break_free_app in Hd as [_ Hd].
      now apply break_free_head in Hd. }
    cbn [app eat_break]. unfold is_break_char in Hc.
    apply orb_false_elim in Hc as [Hc1 Hc2]. now rewrite Hc1, Hc2.
Qed.

Lemma fence_line_quiet (d l x : jsstring) :
  break_free d = true -> d <> [] -> break_free l = true -> d <> fence ++ l ->
  never_own_line d x -> never_own_line d (fence ++ l ++ eol ++ x).
Proof.
  intros Hd Hn Hl Hne Hx. rewrite app_assoc.
  apply never_own_line_join; try assumption.
  - destruct eol_kind as [-> | ->]; discriminate.
  - destruct eol_kind as [-> | ->]; reflexivity.
  - apply never_own_line_other; [now apply fence_tag_free | congruence].
Qed.

Lemma fence_line_solid (l x : jsstring) : solid x -> solid (fence ++ l ++ eol ++ x).
Proof.
  intros [H1 H2]. split; [reflexivity|].
  rewrite !app_assoc. rewrite line_start_app; [assumption|].
  intros E. rewrite E in H2. discriminate.
Qed.

Section Adjacent.

Variables (x1 x2 : jsstring) (u m l : list variant).
Hypothesis x1_ok : text_ok open close x1.
Hypothesis x2_ok : text_ok open close x2.
Hypothesis u_some : u <> [].
Hypothesis m_some : m <> [].
Hypothesis l_some : l <> [].

(** Code, an open delimiter line, a close delimiter line, code: the
    prose between the two code texts is empty. *)
Lemma rewrite_empty_prose :
  rewrite eol lang open close (x1 ++ brk u ++ open ++ brk m ++ close ++ brk l ++ x2)
  = Some (fence ++ lang ++ eol ++ x1 ++ eol ++ fence ++ eol ++ eol
            ++ fence ++ tag ++ eol ++ x2 ++ eol ++ fence).
Proof.
  destruct x1_ok as (S1 & O1 & C1). destruct x2_ok as (S2 & O2 & C2).
  rewrite rewrite_total, rewrite_with_steps. f_equal.
  rewrite (after_start_spec eol lang open open_free open_some).
  assert (line_end (brk u ++ open ++ brk m ++ close ++ brk l ++ x2) = true) as E1
    by now apply brk_line_end.
  rewrite (start_quiet open open_free x1 _ S1 O1 E1).
  rewrite (after_end_spec eol close close_free close_some).
  replace (fence ++ lang ++ eol ++ x1 ++ brk u ++ open ++ brk m ++ close ++ brk l ++ x2)
    with ((fence ++ lang ++ eol ++ x1 ++ brk u ++ open ++ brk m ++ close ++ brk l) ++ x2)
    by now rewrite <- !app_assoc.
  assert (line_start (fence ++ lang ++ eol ++ x1 ++ brk u ++ open ++ brk m ++ close ++ brk l)
          = true) as E2.
  { rewrite !app_assoc. apply line_start_run; [now apply brk_nonempty | apply brk_breaks]. }
  rewrite (end_quiet close close_free _ x2 E2 S2 C2).
  unfold replace at 2. cbn [global source].
  rewrite (replace_loop_constant close _ _ _ _
             (plain_head_break_free close_free close_some) template_tag).
  rewrite close_template.
  replace (((fence ++ lang ++ eol ++ x1 ++ brk u ++ open ++ brk m ++ close ++ brk l) ++ x2)
             ++ eol ++ fence)
    with ((fence ++ lang ++ eol ++ x1 ++ brk u ++ open)
            ++ brk m ++ close ++ brk l ++ x2 ++ eol ++ fence)
    by now rewrite <- !app_assoc.
  assert (never_own_line close (fence ++ lang ++ eol ++ x1 ++ brk u ++ open)) as Q1.
  { replace (fence ++ lang ++ eol ++ x1 ++ brk u ++ open)
      with ((fence ++ lang ++ eol ++ x1) ++ brk u ++ open) by now rewrite <- !app_assoc.
    apply never_own_line_join; try assumption.
    - now apply brk_nonempty.
    - apply brk_breaks.
    - apply fence_line_quiet; try assumption. apply close_not_fence.
    - now apply never_own_line_other. }
  assert (line_start (fence ++ lang ++ eol ++ x1 ++ brk u ++ open) = false) as L1
    by (rewrite !app_assoc; now apply text_end).
  rewrite (one_line close [v; v] (fence ++ tag) [v] m l _ x2 (eol ++ fence)
             close_free close_some
             (fun y Hy Hl => tail_quiet close [] y close_free close_some
                               (proj1 close_not_fence) Hy)
             Q1 L1 m_some l_some S2 C2)
    by (rewrite !length_app; destruct m as [|[|] m']; [congruence | cbn; lia | cbn; lia]).
  rewrite (@replace_interior_spec open (plain_head_break_free open_free open_some))
    by apply open_template_plain.
  rewrite open_template.
  replace ((fence ++ lang ++ eol ++ x1 ++ brk u ++ open)
             ++ brk [v; v] ++ (fence ++ tag) ++ brk [v] ++ x2 ++ eol ++ fence)
    with ((fence ++ lang ++ eol ++ x1)
            ++ brk u ++ open ++ brk [v; v] ++ (fence ++ tag ++ eol ++ x2) ++ eol ++ fence)
    by (rewrite eol_brk; now rewrite <- !app_assoc).
  assert (never_own_line open (fence ++ lang ++ eol ++ x1)) as Q2
    by (apply fence_line_quiet; try assumption; apply open_not_fence).
  assert (line_start (fence ++ lang ++ eol ++ x1) = false) as L2
    by apply (fence_line_solid lang x1 S1).
  assert (never_own_line open (fence ++ tag ++ eol ++ x2)) as Q3
    by (apply fence_line_quiet; try assumption; apply open_not_fence).
  rewrite (one_line open [v] fence [v; v] u [v; v] _ (fence ++ tag ++ eol ++ x2) (eol ++ fence)
             open_free open_some
             (fun y Hy Hl => tail_quiet open [] y open_free open_some
                               (proj1 open_not_fence) Hy)
             Q2 L2 u_some ltac:(discriminate) (fence_line_solid tag x2 S2) Q3)
    by (rewrite !length_app; destruct u as [|[|] u']; [congruence | cbn; lia | cbn; lia]).
  rewrite eol_native. cbn [brk flat_map]. now rewrite ?app_nil_r, <- ?app_assoc.
Qed.

(** Code, a close delimiter line, a close delimiter line, code. *)
Lemma rewrite_close_twice :
  rewrite eol lang open close (x1 ++ brk u ++ close ++ brk m ++ close ++ brk l ++ x2)
  = Some (fence ++ lang ++ eol ++ x1 ++ eol ++ eol ++ fence ++ tag ++ eol
            ++ close ++ brk l ++ x2 ++ eol ++ fence).
Proof.
  destruct x1_ok as (S1 & O1 & C1). destruct x2_ok as (S2 & O2 & C2).
  rewrite rewrite_total, rewrite_with_steps. f_equal.
  rewrite (after_start_spec eol lang open open_free open_some).
  assert (line_end (brk u ++ close ++ brk m ++ close ++ brk l ++ x2) = true) as E1
    by now apply brk_line_end.
  rewrite (start_quiet open open_free x1 _ S1 O1 E1).
  rewrite (after_end_spec eol close close_free close_some).
  replace (fence ++ lang ++ eol ++ x1 ++ brk u ++ close ++ brk m ++ close ++ brk l ++ x2)
    with ((fence ++ lang ++ eol ++ x1 ++ brk u ++ close ++ brk m ++ close ++ brk l) ++ x2)
    by now rewrite <- !app_assoc.
  assert (line_start (fence ++ lang ++ eol ++ x1 ++ brk u ++ close ++ brk m ++ close ++ brk l)
          = true) as E2.
  { rewrite !app_assoc. apply line_start_run; [now apply brk_nonempty | apply brk_breaks]. }
  rewrite (end_quiet close close_free _ x2 E2 S2 C2).
  unfold replace at 2. cbn [global source].
  rewrite (replace_loop_constant close _ _ _ _
             (plain_head_break_free close_free close_some) template_tag).
  replace (((fence ++ lang ++ eol ++ x1 ++ brk u ++ close ++ brk m ++ close ++ brk l) ++ x2)
             ++ eol ++ fence)
    with ((fence ++ lang ++ eol ++ x1)
            ++ brk u ++ close ++ brk m ++ close ++ brk l ++ x2 ++ eol ++ fence)
    by now rewrite <- !app_assoc.
  assert (never_own_line close (fence ++ lang ++ eol ++ x1)) as Q1
    by (apply fence_line_quiet; try assumption; apply close_not_fence).
  assert (line_start (fence ++ lang ++ eol ++ x1) = false) as L1
    by apply (fence_line_solid lang x1 S1).
  assert (find (interior_at close) (close ++ brk l ++ x2 ++ eol ++ fence) = None) as N1.
  { apply after_line_quiet; try assumption.
    change (x2 ++ eol ++ fence) with (x2 ++ brk [] ++ eol ++ fence).
    apply tail_quiet; try assumption. apply close_not_fence. }
  rewrite length_app.
  destruct (length (fence ++ lang ++ eol ++ x1)
            + length (brk u ++ close ++ brk m ++ close ++ brk l ++ x2 ++ eol ++ fence))
    as [|fuel] eqn:Ef.
  { rewrite !length_app in Ef. destruct u as [|[|] u']; [congruence | cbn in Ef; lia |
      cbn in Ef; lia]. }
  rewrite (line_after_line close _ _ _ u m close_free close_some Q1 L1 u_some m_some N1).
  rewrite replace_interior_none;
    [now rewrite <- !app_assoc | now apply plain_head_break_free |].
  apply interior_quiet.
  replace ((fence ++ lang ++ eol ++ x1) ++ (eol ++ eol ++ fence ++ tag ++ eol)
             ++ close ++ brk l ++ x2 ++ eol ++ fence)
    with ((fence ++ lang ++ eol ++ x1) ++ (eol ++ eol)
            ++ (fence ++ tag) ++ eol ++ close ++ brk l ++ x2 ++ brk [] ++ eol ++ fence)
    by now rewrite <- !app_assoc.
  assert (eol <> [] /\ forallb is_break_char eol = true) as [Hen Heb]
    by (destruct eol_kind as [-> | ->]; split; (discriminate || reflexivity)).
  apply never_own_line_join; try assumption.
  - destruct eol; [congruence | discriminate].
  - now rewrite forallb_app, Heb.
  - apply fence_line_quiet; try assumption. apply open_not_fence.
  - apply never_own_line_join; try assumption.
    + apply never_own_line_other; [now apply fence_tag_free|].
      intros E. symmetry in E. now apply (proj2 (proj2 open_not_fence)).
    + apply never_own_line_join; try assumption.
      * now apply brk_nonempty.
      * apply brk_breaks.
      * apply never_own_line_other; [assumption | congruence].
      * apply tail_quiet; try assumption. apply open_not_fence.
Qed.

Variables (b1 b2 a1 a2 : list variant).
Hypothesis b2_some : b2 <> [].
Hypothesis a1_some : a1 <> [].

(** Prose, a close delimiter line, an open delimiter line, prose: the
    code between the two prose texts is empty. *)
Lemma rewrite_empty_code :
  rewrite eol lang open close
    (brk b1 ++ open ++ brk b2 ++ x1 ++ brk u ++ close ++ brk m ++ open ++ brk l ++ x2
       ++ brk a1 ++ close ++ brk a2)
  = Some (x1 ++ eol ++ eol ++ fence ++ tag ++ eol ++ fence ++ eol ++ eol ++ x2).
Proof.
  destruct x1_ok as (S1 & O1 & C1). destruct x2_ok as (S2 & O2 & C2).
  rewrite rewrite_total, rewrite_with_steps. f_equal.
  rewrite (after_start_spec eol lang open open_free open_some).
  destruct b2 as [|vb b2']; [congruence|].
  assert (eat_break (x1 ++ brk u ++ close ++ brk m ++ open ++ brk l ++ x2
                       ++ brk a1 ++ close ++ brk a2) = None) as E1.
  { apply eat_break_text. rewrite starts_break_app by (now apply solid_some). apply S1. }
  rewrite (start_at_line open b1 vb b2' _ (plain_head_break_free open_free open_some) E1).
  rewrite (after_end_spec eol close close_free close_some).
  destruct a1 as [|va a1']; [congruence|].
  replace (x1 ++ brk u ++ close ++ brk m ++ open ++ brk l ++ x2
             ++ brk (va :: a1') ++ close ++ brk a2)
    with ((x1 ++ brk u ++ close ++ brk m ++ open ++ brk l ++ x2)
            ++ brk (va :: a1') ++ close ++ brk a2)
    by now rewrite <- !app_assoc.
  assert (line_start (x1 ++ brk u ++ close ++ brk m ++ open ++ brk l ++ x2) = false) as E2.
  { rewrite !app_assoc. rewrite line_start_app by (now apply solid_some). apply S2. }
  rewrite (end_strip_line close close_free close_some _ va a1' a2 E2).
  unfold replace at 2. cbn [global source].
  rewrite (replace_loop_constant close _ _ _ _
             (plain_head_break_free close_free close_some) template_tag).
  rewrite close_template.
  replace (x1 ++ brk u ++ close ++ brk m ++ open ++ brk l ++ x2)
    with (x1 ++ brk u ++ close ++ brk m ++ (open ++ brk l ++ x2) ++ [])
    by now rewrite app_nil_r, <- ?app_assoc.
  assert (solid (open ++ brk l ++ x2)) as So.
  { split.
    - destruct open as [|c o]; [congruence|]. cbn [app starts_break].
      now apply (break_free_head o c).
    - rewrite !app_assoc. rewrite line_start_app by (now apply solid_some). apply S2. }
  assert (never_own_line close (open ++ brk l ++ x2)) as Q1.
  { apply never_own_line_join; try assumption.
    - now apply brk_nonempty.
    - apply brk_breaks.
    - now apply never_own_line_other. }
  assert (forall d y, never_own_line d y -> y = [] \/ line_start y = false ->
                      never_own_line d (y ++ [])) as W
    by (intros d y Hy _; now rewrite app_nil_r).
  rewrite (one_line close [v; v] (fence ++ tag) [v] u m x1 (open ++ brk l ++ x2) []
             close_free close_some (W close) C1 (proj2 S1) u_some m_some So Q1)
    by (rewrite !length_app; destruct u as [|[|] u']; [congruence | cbn; lia | cbn; lia]).
  rewrite (@replace_interior_spec open (plain_head_break_free open_free open_some))
    by apply open_template_plain.
  rewrite open_template.
  replace (x1 ++ brk [v; v] ++ (fence ++ tag) ++ brk [v] ++ (open ++ brk l ++ x2) ++ [])
    with ((x1 ++ brk [v; v] ++ fence ++ tag) ++ brk [v] ++ open ++ brk l ++ x2 ++ [])
    by now rewrite <- !app_assoc.
  assert (never_own_line open (x1 ++ brk [v; v] ++ fence ++ tag)) as Q2.
  { apply never_own_line_join; try assumption.
    - apply brk_some.
    - apply brk_breaks.
    - apply never_own_line_other; [now apply fence_tag_free|].
      intros E. symmetry in E. now apply (proj2 (proj2 open_not_fence)). }
  assert (line_start (x1 ++ brk [v; v] ++ fence ++ tag) = false) as L2.
  { rewrite !app_assoc, <- app_assoc.
    apply text_end; [now apply fence_tag_free | discriminate]. }
  rewrite (one_line open [v] fence [v; v] [v] l _ x2 []
             open_free open_some (W open) Q2 L2 ltac:(discriminate) l_some S2 O2)
    by (rewrite !length_app; cbn; lia).
  rewrite eol_native. cbn [brk flat_map]. now rewrite ?app_nil_r, <- ?app_assoc.
Qed.

End Adjacent.

End Conversion.

Lemma eol_no_dollar (v : variant) : no_dollar (break_of v) = true.
Proof. now destruct v. Qed.

(** With a language tag that has no [$], the substitution leaves the tag
    as it is. *)
Lemma rewrite_fenced (eol lang open close : jsstring) (v : variant) :
  eol = break_of v ->
  break_free open = true -> open <> [] ->
  break_free close = true -> close <> [] ->
  break_free lang = true -> no_dollar lang = true ->
  open <> close ->
  open <> fence /\ open <> fence ++ lang ->
  close <> fence /\ close <> fence ++ lang ->
  forall f, laid_out open close f ->
            rewrite eol lang open close (source open close f) = Some (fenced eol lang lang f).
Proof.
  intros He Ho Hon Hc Hcn Hl Hd Hoc [Hof Hol] [Hcf Hcl] f Hf.
  apply (rewrite_source_tags eol lang lang open close v); auto.
  intros n m pre. apply GetSubstitution_plain.
  rewrite !no_dollar_app, Hd, He, (eol_no_dollar v). reflexivity.
Qed.

(** ** What the patterns recognize, for any delimiter *)

Section Recognition.

Variable input : jsstring.

(** One more line break of a quantified group. *)
Definition step_break (n : nat) : cont -> cont :=
  fun k' s' c' => rmatch input (Group n line_break) k' s' (clear [n] c').

(** A continuation that succeeds at [s] whatever the captures are. *)
Definition succeeds (k : cont) (s : jsstring) : Prop := forall c, k s c <> None.

Lemma length_brk (vs : list variant) : length vs <= length (brk vs).
Proof.
  induction vs as [|[|] vs IH]; cbn [brk flat_map length]; [lia | |];
    rewrite length_app; fold (brk vs); cbn; lia.
Qed.

Lemma iterate_step (n : nat) (k : cont) (fuel : nat) (s : jsstring) (c : caps) :
  iterate (step_break n) k (S fuel) s c
  = match eat_break s with
    | Some s1 =>
        match iterate (step_break n) k fuel s1
                ((n, firstn (length s - length s1) s) :: clear [n] c) with
        | Some res => Some res
        | None => k s c
        end
    | None => k s c
    end.
Proof.
  cbn [iterate]. unfold step_break at 1. rewrite (@rmatch_break input).
  destruct (eat_break s) as [s1|] eqn:E; [|reflexivity].
  pose proof (@eat_break_shorter _ _ E) as Hs.
  destruct (Nat.ltb_spec (length s1) (length s)) as [_|]; [reflexivity | lia].
Qed.

Lemma iterate_sound (n : nat) (k : cont) (fuel : nat) :
  forall s c res,
    iterate (step_break n) k fuel s c = Some res ->
    exists vs s' c', s = brk vs ++ s' /\ k s' c' = Some res.
Proof.
  induction fuel as [|fuel IH]; intros s c res H.
  - exists [], s, c. now split.
  - rewrite iterate_step in H.
    destruct (eat_break s) as [s1|] eqn:E; [|exists [], s, c; now split].
    destruct (iterate (step_break n) k fuel s1 _) as [res'|] eqn:I;
      [|exists [], s, c; now split].
    injection H as <-. apply IH in I as (vs & s' & c' & -> & Hk).
    destruct (eat_break_variant _ _ E) as (v & ->).
    exists (v :: vs), s', c'. split; [|assumption].
    cbn [brk flat_map]. fold (brk vs). now rewrite <- app_assoc.
Qed.

Lemma iterate_complete (n : nat) (k : cont) (s' : jsstring) (vs : list variant) :
  succeeds k s' ->
  forall fuel c, length vs <= fuel -> iterate (step_break n) k fuel (brk vs ++ s') c <> None.
Proof.
  intros Hk. induction vs as [|v vs IH]; intros fuel c Hf.
  - cbn [brk flat_map app]. destruct fuel as [|fuel]; [apply Hk|].
    rewrite iterate_step. destruct (eat_break s'); [|apply Hk].
    destruct (iterate _ _ _ _ _); [discriminate | apply Hk].
  - destruct fuel as [|fuel]; [cbn in Hf; lia|].
    rewrite iterate_step, eat_break_brk.
    destruct (iterate (step_break n) k fuel (brk vs ++ s') _) eqn:I; [discriminate|].
    exfalso. revert I. apply IH. cbn in Hf. lia.
Qed.



Lemma plus_sound (n : nat) (k : cont) (s : jsstring) (c : caps) (res : mresult) :
  rmatch input (Plus (Group n line_break)) k s c = Some res ->
  exists v vs s' c', s = brk (v :: vs) ++ s' /\ k s' c' = Some res.
Proof.
  rewrite (@rmatch_plus_eq input). change (groups (Group n line_break)) with [n].
  rewrite (@rmatch_break input).
  destruct (eat_break s) as [s1|] eqn:E; [|discriminate].
  intros H. apply iterate_sound in H as (vs & s' & c' & -> & Hk).
  destruct (eat_break_variant _ _ E) as (v & ->).
  exists v, vs, s', c'. split; [|assumption].
  cbn [brk flat_map]. fold (brk vs). now rewrite <- app_assoc.
Qed.

Lemma plus_complete (n : nat) (k : cont) (s' : jsstring) (v : variant) (vs : list variant)
  (c : caps) :
  succeeds k s' -> rmatch input (Plus (Group n line_break)) k (brk (v :: vs) ++ s') c <> None.
Proof.
  intros Hk. rewrite (@rmatch_plus_eq input). change (groups (Group n line_break)) with [n].
  rewrite (@rmatch_break input), eat_break_brk.
  apply (iterate_complete n k s' vs Hk).
  rewrite length_app. pose proof (length_brk vs). lia.
Qed.

Lemma succeeds_accept (s : jsstring) : succeeds accept s.
Proof. intros c. discriminate. Qed.

(** The delimiter and the line breaks after it. *)
Lemma tail_plus_sound (d s : jsstring) (c : caps) (r : jsstring) (c' : caps) :
  rmatch input (seq_of (map Chr d ++ [Plus (Group 2 line_break)])) accept s c = Some (r, c') ->
  exists v vs, s = d ++ brk (v :: vs) ++ r.
Proof.
  rewrite rmatch_chars. destruct (starts_with d s) eqn:Hd; [|discriminate].
  change (rmatch input (seq_of [Plus (Group 2 line_break)]) accept)
    with (rmatch input (Plus (Group 2 line_break)) accept).
  intros H. apply plus_sound in H as (v & vs & s' & c1 & E & Hk).
  injection Hk as -> _. exists v, vs.
  rewrite (starts_with_shape _ _ Hd) at 1. now rewrite E.
Qed.

Lemma tail_plus_complete (d r : jsstring) (v : variant) (vs : list variant) :
  succeeds (fun s c => rmatch input (seq_of (map Chr d ++ [Plus (Group 2 line_break)])) accept s c)
    (d ++ brk (v :: vs) ++ r).
Proof.
  intros c. rewrite rmatch_chars, starts_with_app, skipn_app_length.
  change (rmatch input (seq_of [Plus (Group 2 line_break)]) accept)
    with (rmatch input (Plus (Group 2 line_break)) accept).
  apply plus_complete, succeeds_accept.
Qed.





Lemma interior_sound (d s : jsstring) (c : caps) (r : jsstring) (c' : caps) :
  rmatch input (interior_pattern d) accept s c = Some (r, c') ->
  exists v1 vs1 v2 vs2, s = brk (v1 :: vs1) ++ d ++ brk (v2 :: vs2) ++ r.
Proof.
  unfold interior_pattern. cbn [app seq_of].
  change (rmatch input (Cat ?a ?b) accept s c)
    with (rmatch input a (fun s' c' => rmatch input b accept s' c') s c).
  intros H. apply plus_sound in H as (v1 & vs1 & s' & c1 & -> & Hk).
  apply tail_plus_sound in Hk as (v2 & vs2 & ->).
  now exists v1, vs1, v2, vs2.
Qed.

Lemma interior_complete (d r : jsstring) (v1 : variant) (vs1 : list variant) (v2 : variant)
  (vs2 : list variant) (c : caps) :
  rmatch input (interior_pattern d) accept (brk (v1 :: vs1) ++ d ++ brk (v2 :: vs2) ++ r) c
  <> None.
Proof.
  unfold interior_pattern. cbn [app seq_of].
  change (rmatch input (Cat ?a ?b) accept ?s c)
    with (rmatch input a (fun s' c' => rmatch input b accept s' c') s c).
  apply plus_complete, tail_plus_complete.
Qed.



(** The first position at which a pattern matches. *)
Lemma search_sound (r : regex) (s : jsstring) :
  forall pre m,
    search input r pre s = Some m ->
    exists u s',
      s = u ++ s' /\ before m = rev pre ++ u /\
      rmatch input r accept s' [] = Some (after m, captures m) /\
      matched m = firstn (length s' - length (after m)) s'.
Proof.
  induction s as [|x s IH]; intros pre m; cbn [search].
  - destruct (rmatch input r accept [] []) as [[s' c']|] eqn:E; [|discriminate].
    intros [= <-]. exists [], []. cbn [before after captures matched].
    rewrite ?app_nil_r. repeat split; solve [assumption | reflexivity].
  - destruct (rmatch input r accept (x :: s) []) as [[s' c']|] eqn:E.
    + intros [= <-]. exists [], (x :: s). cbn [before after captures matched].
      rewrite ?app_nil_r. repeat split; solve [assumption | reflexivity].
    + intros H. apply IH in H as (u & s' & -> & Hb & Hm & Hd).
      exists (x :: u), s'. repeat split; try assumption.
      rewrite Hb. cbn [rev]. now rewrite <- app_assoc.
Qed.

Lemma search_complete (r : regex) (u s' : jsstring) :
  rmatch input r accept s' [] <> None -> forall pre, search input r pre (u ++ s') <> None.
Proof.
  intros H. induction u as [|x u IH]; intros pre.
  - cbn [app]. destruct s' as [|y s']; cbn [search];
      destruct (rmatch input r accept _ []) as [[? ?]|]; congruence.
  - cbn [app search]. destruct (rmatch input r accept (x :: u ++ s') []) as [[? ?]|];
      [discriminate | apply IH].
Qed.

End Recognition.

Lemma firstn_matched (a r : jsstring) : firstn (length (a ++ r) - length r) (a ++ r) = a.
Proof.
  rewrite length_app. replace (length a + length r - length r) with (length a) by lia.
  now rewrite firstn_app, Nat.sub_diag, firstn_all, app_nil_r.
Qed.



Lemma search_interior_shape (d input s : jsstring) (m : rmatched) :
  search input (interior_pattern d) [] s = Some m ->
  s = before m ++ matched m ++ after m /\
  exists v1 vs1 v2 vs2, matched m = brk (v1 :: vs1) ++ d ++ brk (v2 :: vs2).
Proof.
  intros H. apply search_sound in H as (u & s' & E & Hb & Hm & Hd).
  apply interior_sound in Hm as (v1 & vs1 & v2 & vs2 & Es).
  cbn [rev app] in Hb.
  assert (matched m = brk (v1 :: vs1) ++ d ++ brk (v2 :: vs2)) as Em.
  { rewrite Hd, Es.
    replace (brk (v1 :: vs1) ++ d ++ brk (v2 :: vs2) ++ after m)
      with ((brk (v1 :: vs1) ++ d ++ brk (v2 :: vs2)) ++ after m) by now rewrite <- !app_assoc.
    apply firstn_matched. }
  split; [|now exists v1, vs1, v2, vs2].
  rewrite E, Hb, Em, Es. now rewrite <- !app_assoc.
Qed.

Lemma test_interior_iff (d s : jsstring) :
  test (interior_pattern d) s = true <->
  exists u v1 vs1 v2 vs2 rest, s = u ++ brk (v1 :: vs1) ++ d ++ brk (v2 :: vs2) ++ rest.
Proof.
  unfold test, exec. split.
  - destruct (search s (interior_pattern d) [] s) as [m|] eqn:E; [|discriminate]. intros _.
    apply search_interior_shape in E as (Es & v1 & vs1 & v2 & vs2 & Em).
    exists (before m), v1, vs1, v2, vs2, (after m). rewrite Es at 1. rewrite Em.
    now rewrite <- !app_assoc.
  - intros (u & v1 & vs1 & v2 & vs2 & rest & E).
    destruct (search _ _ _ _) eqn:F; [reflexivity | exfalso]. revert F. rewrite E at 2.
    apply search_complete, interior_complete.
Qed.



(** ** What is recognized as a delimiter *)












(** X1: a literate file made of texts, prose and code in turn, between
    delimiter lines is written as its Markdown: the prose as it is, the
    code between a fence line with the language tag and a fence line, a
    blank line between the regions, every line break that was beside a
    delimiter replaced by [os.EOL].  The file may start with the open
    delimiter line (it starts with prose then, with code otherwise); it
    ends with the close delimiter line after prose, or after code with
    line breaks that stay in front of the last fence line.  The
    conditions: [os.EOL] is [\n] or [\r\n]; the delimiters are not
    empty, have no line-break character, differ from each other and
    from the two fence lines; the tag has no line-break character and no
    [$]; every text is not empty, has no line-break character at either
    end and holds no delimiter on a line of its own; the directory of
    the output can be made and the output written. *)
Theorem literate_file_to_markdown (env : environment) (c : LanguageConfig) (v : variant)
  (input output : jsstring) (f : literate) :
  eol env = break_of v ->
  get (config env) (substr1 (Path.ext (Path.parse output))) = Some (Entry c) ->
  break_free (open c) = true -> open c <> [] ->
  break_free (close c) = true -> close c <> [] ->
  break_free (lang_or (lang c) (substr1 (Path.ext (Path.parse output)))) = true ->
  no_dollar (lang_or (lang c) (substr1 (Path.ext (Path.parse output)))) = true ->
  open c <> close c ->
  open c <> fence ->
  open c <> fence ++ lang_or (lang c) (substr1 (Path.ext (Path.parse output))) ->
  close c <> fence ->
  close c <> fence ++ lang_or (lang c) (substr1 (Path.ext (Path.parse output))) ->
  well_formed (open c) (close c) f ->
  can_mkdir env (Path.dir (Path.parse output)) = true ->
  can_write env (md_path output) = true ->
  literateToMdFile env (File (source (open c) (close c) f)) input output
  = converted input output
      (markdown (eol env) (lang_or (lang c) (substr1 (Path.ext (Path.parse output)))) f).
Proof.
  intros He Hg Ho Hon Hc Hcn Hl Hd Hoc Hof Hol Hcf Hcl Hf Hm Hw.
  rewrite (@literateToMdFile_entry env c input output _ Hg Hm Hw). f_equal.
  pose proof (rewrite_fenced (eol env) _ (open c) (close c) v He Ho Hon Hc Hcn Hl Hd Hoc
                (conj Hof Hol) (conj Hcf Hcl) f (proj2 Hf)) as H.
  rewrite rewrite_total in H. injection H as ->.
  rewrite markdown_one_tag. symmetry. apply markdown_fenced. apply Hf.
Qed.

(** A file of two prose texts around one code text, with line breaks of
    both kinds and a blank line. *)
Definition two_prose_one_code : literate :=
  Literate (Some ([], [Unix])) (js "Hello prose.")
    [Block false [Unix] [Dos] (js "int x = 1;" ++ nl ++ js "int y = 2;");
     Block true [Unix; Unix] [Dos] (js "More prose.")]
    (Closed [Unix] []).

Lemma two_prose_one_code_ok : well_formed (js "/*") (js "*/") two_prose_one_code.
Proof.
  unfold well_formed, two_prose_one_code. cbn.
  repeat split; try discriminate;
    repeat (constructor; try discriminate; try (split; discriminate));
    try (unfold text_ok, solid; repeat split; try reflexivity;
         apply own_line_in_never; reflexivity).
Qed.

Lemma literate_file_to_markdown_witness :
  literateToMdFile posix_env
    (File (js "/*" ++ nl ++ js "Hello prose." ++ nl ++ js "*/" ++ crlf
             ++ js "int x = 1;" ++ nl ++ js "int y = 2;" ++ nl ++ nl ++ js "/*" ++ crlf
             ++ js "More prose." ++ nl ++ js "*/"))
    (js "src/a.foo") (js "md/a.foo")
  = converted (js "src/a.foo") (js "md/a.foo")
      (js "Hello prose." ++ nl ++ nl ++ js "```c" ++ nl ++ js "int x = 1;" ++ nl
         ++ js "int y = 2;" ++ nl ++ js "```" ++ nl ++ nl ++ js "More prose.").
Proof.
  exact (literate_file_to_markdown posix_env
           (MkLanguageConfig (js "/*") (js "*/") (Some (js "c"))) Unix
           (js "src/a.foo") (js "md/a.foo") two_prose_one_code
           eq_refl eq_refl eq_refl ltac:(discriminate) eq_refl ltac:(discriminate)
           eq_refl eq_refl ltac:(discriminate) ltac:(discriminate) ltac:(discriminate)
           ltac:(discriminate) ltac:(discriminate) two_prose_one_code_ok eq_refl eq_refl).
Defined.

(** ** A language tag with dollar signs *)

Lemma GetSubstitution_app_plain (n : nat) (m : rmatched) (pre a t : jsstring) :
  no_dollar a = true -> GetSubstitution n m pre (a ++ t) = a ++ GetSubstitution n m pre t.
Proof.
  induction a as [|x a IH]; [reflexivity|]. cbn [no_dollar forallb app GetSubstitution].
  intros H. apply andb_prop in H as [Hx Ha].
  destruct (Ascii.eqb x "$"); [discriminate|]. now rewrite (IH Ha).
Qed.

Lemma GetSubstitution_two_dollars (n : nat) (m : rmatched) (pre t : jsstring) :
  GetSubstitution n m pre ("$" :: "$" :: t) = "$" :: GetSubstitution n m pre t.
Proof. reflexivity. Qed.

(** X13: a [$$] in the language tag is written as it is in the fence line
    that the conversion puts at the start of a file that starts with
    code, and as a single [$] in the fence line of every later code
    region: the first is put there as a string, the others as the
    replacement of a pattern, in which [$$] stands for [$]. *)
Theorem dollars_in_language_tag (env : environment) (c : LanguageConfig) (v : variant)
  (input output l1 l2 : jsstring) (f : literate) :
  eol env = break_of v ->
  get (config env) (substr1 (Path.ext (Path.parse output))) = Some (Entry c) ->
  lang_or (lang c) (substr1 (Path.ext (Path.parse output))) = l1 ++ js "$$" ++ l2 ->
  break_free l1 = true -> no_dollar l1 = true ->
  break_free l2 = true -> no_dollar l2 = true ->
  break_free (open c) = true -> open c <> [] ->
  break_free (close c) = true -> close c <> [] ->
  open c <> close c ->
  ~ In (open c) [fence; fence ++ l1 ++ js "$$" ++ l2; fence ++ l1 ++ js "$" ++ l2] ->
  ~ In (close c) [fence; fence ++ l1 ++ js "$$" ++ l2; fence ++ l1 ++ js "$" ++ l2] ->
  well_formed (open c) (close c) f ->
  can_mkdir env (Path.dir (Path.parse output)) = true ->
  can_write env (md_path output) = true ->
  literateToMdFile env (File (source (open c) (close c) f)) input output
  = converted input output
      (markdown_tags (eol env) (l1 ++ js "$$" ++ l2) (l1 ++ js "$" ++ l2) f).
Proof.
  intros He Hg Hlang H1 D1 H2 D2 Ho Hon Hc Hcn Hoc Hof Hcf Hf Hm Hw.
  rewrite (@literateToMdFile_entry env c input output _ Hg Hm Hw). f_equal.
  rewrite Hlang.
  assert (forall a, break_free (l1 ++ a ++ l2) = break_free a) as Hfree.
  { intros a. unfold break_free in *. now rewrite !forallb_app, H1, H2, andb_true_r. }
  assert (rewrite (eol env) (l1 ++ js "$$" ++ l2) (open c) (close c)
            (source (open c) (close c) f)
          = Some (markdown_tags (eol env) (l1 ++ js "$$" ++ l2) (l1 ++ js "$" ++ l2) f))
    as E; [|rewrite rewrite_total in E; now injection E].
  rewrite (markdown_fenced _ _ _ _ (proj1 Hf)).
  apply (rewrite_source_tags (eol env) (l1 ++ js "$$" ++ l2) (l1 ++ js "$" ++ l2)
           (open c) (close c) v); try assumption; try apply Hf.
  - now rewrite Hfree.
  - now rewrite Hfree.
  - intros n m pre. rewrite He, <- !app_assoc.
    rewrite !(GetSubstitution_app_plain n m pre (break_of v)) by apply eol_no_dollar.
    rewrite (GetSubstitution_app_plain n m pre fence) by reflexivity.
    rewrite (GetSubstitution_app_plain n m pre l1) by assumption.
    change (js "$$" ++ l2 ++ break_of v) with ("$" :: "$" :: l2 ++ break_of v).
    rewrite GetSubstitution_two_dollars.
    rewrite (GetSubstitution_plain n m pre (l2 ++ break_of v))
      by (rewrite no_dollar_app, D2; apply eol_no_dollar).
    reflexivity.
  - repeat split; intros E; apply Hof; rewrite E; cbn [In]; tauto.
  - repeat split; intros E; apply Hcf; rewrite E; cbn [In]; tauto.
Qed.

Definition dollar_config : Config :=
  [(js "foo", MkLanguageConfig (js "/*") (js "*/") (Some (js "c$$")))].

Definition code_prose_code : literate :=
  Literate None (js "int x = 1;")
    [Block true [Unix] [Unix] (js "Text.");
     Block false [Unix] [Unix] (js "int y = 2;")]
    (Unclosed [Unix]).

Lemma code_prose_code_ok : well_formed (js "/*") (js "*/") code_prose_code.
Proof.
  unfold well_formed, code_prose_code. cbn.
  repeat split; try discriminate;
    repeat (constructor; try discriminate; try (split; discriminate));
    try (unfold text_ok, solid; repeat split; try reflexivity;
         apply own_line_in_never; reflexivity).
Qed.

Lemma dollars_in_language_tag_witness :
  literateToMdFile (env_with nl dollar_config)
    (File (js "int x = 1;" ++ nl ++ js "/*" ++ nl ++ js "Text." ++ nl ++ js "*/" ++ nl
             ++ js "int y = 2;" ++ nl))
    (js "src/a.foo") (js "md/a.foo")
  = converted (js "src/a.foo") (js "md/a.foo")
      (js "```c$$" ++ nl ++ js "int x = 1;" ++ nl ++ js "```" ++ nl ++ nl ++ js "Text."
         ++ nl ++ nl ++ js "```c$" ++ nl ++ js "int y = 2;" ++ nl ++ nl ++ js "```").
Proof.
  refine (dollars_in_language_tag (env_with nl dollar_config)
            (MkLanguageConfig (js "/*") (js "*/") (Some (js "c$$"))) Unix
            (js "src/a.foo") (js "md/a.foo") (js "c") [] code_prose_code
            eq_refl eq_refl eq_refl eq_refl eq_refl eq_refl eq_refl
            eq_refl ltac:(discriminate) eq_refl ltac:(discriminate) ltac:(discriminate)
            _ _ code_prose_code_ok eq_refl eq_refl);
    cbn [In]; intuition discriminate.
Defined.

(** ** Fences in pairs *)









(** ** Delimiter lines in any order *)

(** X14: the delimiter lines of a file become fence lines one by one,
    whether they take turns or not: a line of the open delimiter becomes
    a fence line with a blank line after it, a line of the close
    delimiter a fence line with the language tag and a blank line before
    it; a file that does not start with the open delimiter line gets the
    fence line with the tag in front, one that does not end with the
    close delimiter line a fence line at its end.  Nothing checks that
    the fences of the output are paired.  The file is made of texts
    between delimiter lines, each delimiter with at least one line break
    on each side but for the first at the very start and the last at
    the very end.  The conditions: [os.EOL] is [\n] or [\r\n]; the
    delimiters are not empty, have no line-break character, differ from
    each other and from the two fence lines; the tag has no line-break
    character and no [$]; every text is not empty, has no line-break
    character at either end and holds no delimiter on a line of its
    own. *)
Theorem delimiter_lines_become_fences (eol lang open close : jsstring) (v : variant)
  (f : literate) :
  eol = break_of v ->
  break_free open = true -> open <> [] ->
  break_free close = true -> close <> [] ->
  break_free lang = true -> no_dollar lang = true ->
  open <> close ->
  open <> fence -> open <> fence ++ lang ->
  close <> fence -> close <> fence ++ lang ->
  laid_out open close f ->
  rewrite eol lang open close (source open close f) = Some (fenced eol lang lang f).
Proof.
  intros He Ho Hon Hc Hcn Hl Hd Hoc Hof Hol Hcf Hcl Hf.
  now apply (rewrite_fenced eol lang open close v).
Qed.

(** Two prose texts, each after an open delimiter line, and no close
    delimiter line. *)
Definition open_twice : literate :=
  Literate (Some ([], [Unix])) (js "One.") [Block true [Unix] [Unix] (js "Two.")]
    (Unclosed []).

Lemma open_twice_ok : laid_out (js "/*") (js "*/") open_twice.
Proof.
  unfold laid_out, open_twice. cbn.
  repeat split; try discriminate;
    repeat (constructor; try discriminate; try (split; discriminate));
    try (unfold text_ok, solid; repeat split; try reflexivity;
         apply own_line_in_never; reflexivity).
Qed.

Lemma delimiter_lines_become_fences_witness :
  rewrite nl (js "c") (js "/*") (js "*/")
    (js "/*" ++ nl ++ js "One." ++ nl ++ js "/*" ++ nl ++ js "Two.")
  = Some (js "One." ++ nl ++ js "```" ++ nl ++ nl ++ js "Two." ++ nl ++ js "```").
Proof.
  exact (delimiter_lines_become_fences nl (js "c") (js "/*") (js "*/") Unix open_twice
           eq_refl eq_refl ltac:(discriminate) eq_refl ltac:(discriminate) eq_refl eq_refl
           ltac:(discriminate) ltac:(discriminate) ltac:(discriminate) ltac:(discriminate)
           ltac:(discriminate) open_twice_ok).
Defined.

(** ** Nothing between two delimiter lines *)

Lemma template_plain (eol lang : jsstring) (v : variant) :
  eol = break_of v -> no_dollar lang = true ->
  forall n m pre,
    GetSubstitution n m pre (eol ++ eol ++ fence ++ lang ++ eol)
    = eol ++ eol ++ fence ++ lang ++ eol.
Proof.
  intros He Hd n m pre. apply GetSubstitution_plain.
  rewrite !no_dollar_app, Hd, He, (eol_no_dollar v). reflexivity.
Qed.

(** X15: two code texts with an open delimiter line and then a close
    delimiter line between them, and no prose between these, stay two
    code regions: the first is closed by a fence line, a blank line
    follows, and a fence line with the tag opens the second.  The conditions: [os.EOL] is [\n] or [\r\n]; the
    delimiters are not empty, have no line-break character, differ from
    each other and from the two fence lines; the tag has no line-break
    character and no [$]; every text is not empty, has no line-break
    character at either end and holds no delimiter on a line of its
    own. *)
Theorem empty_prose_between_code (eol lang open close : jsstring) (v : variant)
  (x1 x2 : jsstring) (u m l : list variant) :
  eol = break_of v ->
  break_free open = true -> open <> [] ->
  break_free close = true -> close <> [] ->
  break_free lang = true -> no_dollar lang = true ->
  open <> close ->
  open <> fence -> open <> fence ++ lang ->
  close <> fence -> close <> fence ++ lang ->
  text_ok open close x1 -> text_ok open close x2 ->
  u <> [] -> m <> [] -> l <> [] ->
  rewrite eol lang open close (x1 ++ brk u ++ open ++ brk m ++ close ++ brk l ++ x2)
  = Some (fence ++ lang ++ eol ++ x1 ++ eol ++ fence ++ eol ++ eol
            ++ fence ++ lang ++ eol ++ x2 ++ eol ++ fence).
Proof.
  intros He Ho Hon Hc Hcn Hl Hd Hoc Hof Hol Hcf Hcl H1 H2 Hu Hm Hl'.
  apply (rewrite_empty_prose eol lang lang open close v); auto.
  now apply (template_plain eol lang v).
Qed.

Lemma two_code_texts_ok :
  text_ok (js "/*") (js "*/") (js "int x = 1;") /\ text_ok (js "/*") (js "*/") (js "int y = 2;").
Proof.
  split; unfold text_ok, solid; repeat split; try reflexivity;
    apply own_line_in_never; reflexivity.
Qed.

Lemma empty_prose_between_code_witness :
  rewrite nl (js "c") (js "/*") (js "*/")
    (js "int x = 1;" ++ nl ++ js "/*" ++ nl ++ js "*/" ++ nl ++ js "int y = 2;")
  = Some (js "```c" ++ nl ++ js "int x = 1;" ++ nl ++ js "```" ++ nl ++ nl
            ++ js "```c" ++ nl ++ js "int y = 2;" ++ nl ++ js "```").
Proof.
  exact (empty_prose_between_code nl (js "c") (js "/*") (js "*/") Unix
           (js "int x = 1;") (js "int y = 2;") [Unix] [Unix] [Unix]
           eq_refl eq_refl ltac:(discriminate) eq_refl ltac:(discriminate) eq_refl eq_refl
           ltac:(discriminate) ltac:(discriminate) ltac:(discriminate) ltac:(discriminate)
           ltac:(discriminate) (proj1 two_code_texts_ok) (proj2 two_code_texts_ok)
           ltac:(discriminate) ltac:(discriminate) ltac:(discriminate)).
Defined.

(** X16: two prose texts with a close delimiter line and then an open
    delimiter line between them, and no code between these, are written
    with an empty code region between them: the fence line with the tag
    and, on the next line, the fence line.  The conditions: [os.EOL] is [\n] or [\r\n]; the
    delimiters are not empty, have no line-break character, differ from
    each other and from the two fence lines; the tag has no line-break
    character and no [$]; every text is not empty, has no line-break
    character at either end and holds no delimiter on a line of its
    own. *)
Theorem empty_code_between_prose (eol lang open close : jsstring) (v : variant)
  (x1 x2 : jsstring) (b1 b2 u m l a1 a2 : list variant) :
  eol = break_of v ->
  break_free open = true -> open <> [] ->
  break_free close = true -> close <> [] ->
  break_free lang = true -> no_dollar lang = true ->
  open <> close ->
  open <> fence -> open <> fence ++ lang ->
  close <> fence -> close <> fence ++ lang ->
  text_ok open close x1 -> text_ok open close x2 ->
  b2 <> [] -> u <> [] -> m <> [] -> l <> [] -> a1 <> [] ->
  rewrite eol lang open close
    (brk b1 ++ open ++ brk b2 ++ x1 ++ brk u ++ close ++ brk m ++ open ++ brk l ++ x2
       ++ brk a1 ++ close ++ brk a2)
  = Some (x1 ++ eol ++ eol ++ fence ++ lang ++ eol ++ fence ++ eol ++ eol ++ x2).
Proof.
  intros He Ho Hon Hc Hcn Hl Hd Hoc Hof Hol Hcf Hcl H1 H2 Hb Hu Hm Hl' Ha.
  apply (rewrite_empty_code eol lang lang open close v); auto.
  now apply (template_plain eol lang v).
Qed.

Lemma two_prose_texts_ok :
  text_ok (js "/*") (js "*/") (js "One.") /\ text_ok (js "/*") (js "*/") (js "Two.").
Proof.
  split; unfold text_ok, solid; repeat split; try reflexivity;
    apply own_line_in_never; reflexivity.
Qed.

Lemma empty_code_between_prose_witness :
  rewrite nl (js "c") (js "/*") (js "*/")
    (js "/*" ++ nl ++ js "One." ++ nl ++ js "*/" ++ nl ++ js "/*" ++ nl ++ js "Two."
       ++ nl ++ js "*/" ++ nl)
  = Some (js "One." ++ nl ++ nl ++ js "```c" ++ nl ++ js "```" ++ nl ++ nl ++ js "Two.").
Proof.
  exact (empty_code_between_prose nl (js "c") (js "/*") (js "*/") Unix
           (js "One.") (js "Two.") [] [Unix] [Unix] [Unix] [Unix] [Unix] [Unix]
           eq_refl eq_refl ltac:(discriminate) eq_refl ltac:(discriminate) eq_refl eq_refl
           ltac:(discriminate) ltac:(discriminate) ltac:(discriminate) ltac:(discriminate)
           ltac:(discriminate) (proj1 two_prose_texts_ok) (proj2 two_prose_texts_ok)
           ltac:(discriminate) ltac:(discriminate) ltac:(discriminate) ltac:(discriminate)
           ltac:(discriminate)).
Defined.

(** X17: of two close delimiter lines with nothing but line breaks
    between them only the first becomes a fence line: the line breaks
    between the two go with the first match, the second delimiter has no
    line break left in front of it and stays in the output as it is, at
    the start of the code region.  The conditions: [os.EOL] is [\n] or [\r\n]; the
    delimiters are not empty, have no line-break character, differ from
    each other and from the two fence lines; the tag has no line-break
    character and no [$]; every text is not empty, has no line-break
    character at either end and holds no delimiter on a line of its
    own. *)
Theorem delimiter_line_after_delimiter_line (eol lang open close : jsstring) (v : variant)
  (x1 x2 : jsstring) (u m l : list variant) :
  eol = break_of v ->
  break_free open = true -> open <> [] ->
  break_free close = true -> close <> [] ->
  break_free lang = true -> no_dollar lang = true ->
  open <> close ->
  open <> fence -> open <> fence ++ lang ->
  close <> fence -> close <> fence ++ lang ->
  text_ok open close x1 -> text_ok open close x2 ->
  u <> [] -> m <> [] -> l <> [] ->
  rewrite eol lang open close (x1 ++ brk u ++ close ++ brk m ++ close ++ brk l ++ x2)
  = Some (fence ++ lang ++ eol ++ x1 ++ eol ++ eol ++ fence ++ lang ++ eol
            ++ close ++ brk l ++ x2 ++ eol ++ fence).
Proof.
  intros He Ho Hon Hc Hcn Hl Hd Hoc Hof Hol Hcf Hcl H1 H2 Hu Hm Hl'.
  apply (rewrite_close_twice eol lang lang open close v); auto.
  now apply (template_plain eol lang v).
Qed.

Lemma two_statements_ok :
  text_ok (js "/*") (js "*/") (js "x = 1;") /\ text_ok (js "/*") (js "*/") (js "y = 2;").
Proof.
  split; unfold text_ok, solid; repeat split; try reflexivity;
    apply own_line_in_never; reflexivity.
Qed.

Lemma delimiter_line_after_delimiter_line_witness :
  rewrite nl (js "c") (js "/*") (js "*/")
    (js "x = 1;" ++ nl ++ js "*/" ++ nl ++ js "*/" ++ nl ++ js "y = 2;")
  = Some (js "```c" ++ nl ++ js "x = 1;" ++ nl ++ nl ++ js "```c" ++ nl
            ++ js "*/" ++ nl ++ js "y = 2;" ++ nl ++ js "```").
Proof.
  exact (delimiter_line_after_delimiter_line nl (js "c") (js "/*") (js "*/") Unix
           (js "x = 1;") (js "y = 2;") [Unix] [Unix] [Unix]
           eq_refl eq_refl ltac:(discriminate) eq_refl ltac:(discriminate) eq_refl eq_refl
           ltac:(discriminate) ltac:(discriminate) ltac:(discriminate) ltac:(discriminate)
           ltac:(discriminate) (proj1 two_statements_ok) (proj2 two_statements_ok)
           ltac:(discriminate) ltac:(discriminate) ltac:(discriminate)).
Defined.

(** ** The walk over a tree *)

(** The node of a tree at a list of names, one for each directory on the
    way. *)
Inductive node_at : node -> list jsstring -> node -> Prop :=
| at_here (n : node) : node_at n [] n
| at_child (es : list (jsstring * node)) (i : jsstring) (child : node)
    (names : list jsstring) (n : node) :
    In (i, child) es -> node_at child names n -> node_at (Dir es) (i :: names) n.

Definition is_leaf (n : node) : bool :=
  match n with
  | File _ | Unreadable => true
  | _ => false
  end.

Definition written_paths (es : list effect) : list jsstring :=
  flat_map (fun e => match e with WriteFile p _ => [p] | _ => [] end) es.

Definition logged_paths (es : list effect) : list jsstring :=
  flat_map (fun e => match e with Log _ o => [o] | _ => [] end) es.


Section Walk.

Variable env : environment.


Lemma walk_leaf (n : node) (input output : jsstring) :
  is_leaf n = true ->
  literateToMd env n input output
  = (Stat input :: effects (literateToMdFile env n input output),
     match rejection (literateToMdFile env n input output) with
     | Some e => Some (clock env input, e)
     | None => None
     end).
Proof. destruct n; try discriminate; reflexivity. Qed.

Lemma flat_map_concat {A B : Type} (f : A -> list B) (ls : list (list A)) :
  flat_map f (concat ls) = concat (map (flat_map f) ls).
Proof.
  induction ls as [|l ls IH]; [reflexivity|].
  cbn [concat map]. now rewrite flat_map_app, IH.
Qed.

Lemma file_logs_what_it_writes (file : node) (input output : jsstring) :
  logged_paths (effects (literateToMdFile env file input output))
  = written_paths (effects (literateToMdFile env file input output)).
Proof.
  unfold literateToMdFile.
  destruct (get _ _) as [[c|]|]; [| |reflexivity];
    destruct (can_mkdir _ _); cbn [negb]; try reflexivity;
    destruct file; try reflexivity.
  destruct (rewrite _ _ _ _ _); [|reflexivity].
  destruct (can_write _ _); reflexivity.
Qed.

End Walk.






Lemma log_of_file (env : environment) (file : node) (input output i o : jsstring) :
  In (Log i o) (effects (literateToMdFile env file input output)) ->
  exists contents out,
    file = File contents /\ i = input /\ o = md_path output /\
    literateToMdFile env file input output = converted input output out.
Proof.
  unfold literateToMdFile, converted. fold (md_path output).
  destruct (get _ _) as [p|]; [|intros []].
  destruct (can_mkdir _ _); cbn [negb]; [|intros []].
  destruct file as [c| | | |es]; try (cbn; intros [H | []]; discriminate H).
  destruct p as [lc|].
  - destruct (rewrite _ _ _ _ _) as [out|].
    + destruct (can_write _ _); cbn [effects In].
      * intros [H | [H | [H | [H | []]]]]; try discriminate H.
        injection H as <- <-. now exists c, out.
      * intros [H | [H | []]]; discriminate H.
    + cbn [effects In]. intros [H | [H | []]]; discriminate H.
  - cbn [effects In]. intros [H | [H | []]]; discriminate H.
Qed.

Lemma walk_logs (env : environment) (tree : node) :
  forall input output i o,
    In (Log i o) (fst (literateToMd env tree input output)) ->
    exists names contents out,
      node_at tree names (File contents) /\
      i = descend input names /\ o = md_path (descend output names) /\
      literateToMdFile env (File contents) (descend input names) (descend output names)
      = converted (descend input names) (descend output names) out.
Proof.
  induction tree as [c| | | |es IH] using node_induction; intros input output i o.
  - cbn [literateToMd fst]. intros [H | H]; [discriminate H|].
    apply log_of_file in H as (c' & out & [= <-] & -> & -> & E).
    exists [], c, out. repeat split; [constructor | exact E].
  - cbn [literateToMd fst]. intros [H | H]; [discriminate H|].
    apply log_of_file in H as (c' & out & F & _). discriminate F.
  - intros [].
  - cbn [literateToMd fst]. intros [H | []]. discriminate H.
  - rewrite literateToMd_dir. cbn [fst]. intros [H | [H | H]]; try discriminate H.
    apply in_concat in H as (l & Hl & He).
    apply in_map_iff in Hl as (r & <- & Hr).
    apply in_map_iff in Hr as ([j child] & <- & Hc).
    rewrite Forall_forall in IH.
    destruct (IH _ Hc _ _ _ _ He) as (names & c & out & Hat & -> & -> & E).
    exists (j :: names), c, out.
    repeat split; [now apply at_child with (child := child) | exact E].
Qed.

Lemma walk_logs_writes (env : environment) (tree : node) :
  forall input output,
    logged_paths (fst (literateToMd env tree input output))
    = written_paths (fst (literateToMd env tree input output)).
Proof.
  induction tree as [c| | | |es IH] using node_induction; intros input output;
    try reflexivity.
  - cbn [literateToMd fst]. apply (file_logs_what_it_writes env (File c)).
  - cbn [literateToMd fst]. apply (file_logs_what_it_writes env Unreadable).
  - rewrite literateToMd_dir. cbn [fst].
    unfold logged_paths, written_paths. cbn [flat_map app].
    rewrite !flat_map_concat. f_equal. rewrite !map_map.
    apply map_ext_Forall. eapply Forall_impl; [|exact IH].
    intros [i child] H. apply H.
Qed.

(** X4: every line of the log is the last step of the conversion of a
    file of the tree, after the making of its directory, the reading of
    the file and the writing of the path that the line names, in this
    order; and when no call of the walk fails, every path that is
    written is logged. *)
Theorem log_lists_written_files (env : environment) (tree : node) (input output : jsstring) :
  (forall i o,
     In (Log i o) (fst (run env tree input output)) ->
     exists names contents out,
       node_at tree names (File contents) /\
       effects (literateToMdFile env (File contents) (descend input names)
                  (descend output names))
       = [Mkdir (Path.dir (Path.parse (descend output names))); ReadFile i;
          WriteFile o out; Log i o]) /\
  (snd (run env tree input output) = None ->
   forall o, In o (written_paths (fst (run env tree input output))) ->
             In o (logged_paths (fst (run env tree input output)))).
Proof.
  unfold run. split.
  - intros i o H. apply walk_logs in H as (names & c & out & Hat & -> & -> & E).
    exists names, c, out. split; [exact Hat|]. now rewrite E.
  - intros _ o. now rewrite walk_logs_writes.
Qed.

(** X5: no call of the walk fails for a pattern that cannot be read:
    whatever the delimiters of the table are made of, once escaped they
    make patterns. *)
Theorem no_syntax_error (env : environment) (tree : node) (input output : jsstring) :
  ~ In SyntaxError (failures env tree input output) /\
  ~ In SyntaxError (reported (run env tree input output)).
Proof.
  assert (forall n i o, is_leaf n = true ->
                        rejection (literateToMdFile env n i o) <> Some SyntaxError) as Hleaf.
  { intros n i o _. unfold literateToMdFile.
    destruct (get _ _) as [[c|]|]; [| |discriminate];
      destruct (can_mkdir _ _); cbn [negb]; try discriminate;
      destruct n; try discriminate.
    rewrite rewrite_total. destruct (can_write _ _); discriminate. }
  assert (forall tree input output, ~ In SyntaxError (failures env tree input output)) as H.
  { clear tree input output.
    induction tree as [c| | | |es IH] using node_induction; intros input output.
    - cbn [failures]. pose proof (Hleaf (File c) input output eq_refl) as H.
      destruct (rejection _) as [e|]; [|intros []]. intros [-> | []]. now apply H.
    - cbn [failures]. pose proof (Hleaf Unreadable input output eq_refl) as H.
      destruct (rejection _) as [e|]; [|intros []]. intros [-> | []]. now apply H.
    - cbn. intros [H | []]. discriminate.
    - cbn. intros [H | []]. discriminate.
    - rewrite failures_dir. rewrite in_flat_map. intros ([i child] & Hi & He).
      rewrite Forall_forall in IH. exact (IH _ Hi _ _ He). }
  split; [apply H|].
  intros Hr. unfold reported, run in Hr.
  destruct (walk_rejection env tree input output) as [Hs _].
  destruct (snd (literateToMd env tree input output)) as [[t e]|]; [|destruct Hr].
  destruct Hr as [-> | []]. exact (H _ _ _ (Hs _ _ eq_refl)).
Qed.



(** ** Files of either line-break kind *)

(** X2: a file and the file it becomes when some of its line breaks are
    changed from [\n] to [\r\n] or back are both converted, and the two
    outputs differ only by the kind of the line breaks they took from
    their inputs. *)
Theorem dos_and_unix_files_written_alike (env : environment) (c : LanguageConfig)
  (input output s s' : jsstring) :
  eol env = nl \/ eol env = crlf ->
  get (config env) (substr1 (Path.ext (Path.parse output))) = Some (Entry c) ->
  break_free (open c) = true -> open c <> [] ->
  break_free (close c) = true -> close c <> [] ->
  no_dollar (lang_or (lang c) (substr1 (Path.ext (Path.parse output)))) = true ->
  can_mkdir env (Path.dir (Path.parse output)) = true ->
  can_write env (md_path output) = true ->
  same_lines s s' ->
  exists out out',
    literateToMdFile env (File s) input output = converted input output out /\
    literateToMdFile env (File s') input output = converted input output out' /\
    same_lines out out'.
Proof.
  intros He Hg Ho Hon Hc Hcn Hl Hm Hw Hs.
  eexists. eexists. split; [|split].
  - exact (@literateToMdFile_entry env c input output s Hg Hm Hw).
  - exact (@literateToMdFile_entry env c input output s' Hg Hm Hw).
  - now apply rewrite_same_lines.
Qed.

Lemma dos_and_unix_files_written_alike_witness :
  exists out out',
    literateToMdFile posix_env (File (scenario_input nl nl nl)) (js "src/a.foo")
      (js "md/a.foo") = converted (js "src/a.foo") (js "md/a.foo") out /\
    literateToMdFile posix_env (File (scenario_input crlf nl crlf)) (js "src/a.foo")
      (js "md/a.foo") = converted (js "src/a.foo") (js "md/a.foo") out' /\
    same_lines out out'.
Proof.
  assert (same_lines (scenario_input nl nl nl) (scenario_input crlf nl crlf)) as H
    by (vm_compute; reflexivity).
  exact (dos_and_unix_files_written_alike posix_env
           (MkLanguageConfig (js "/*") (js "*/") (Some (js "c")))
           (js "src/a.foo") (js "md/a.foo")
           (scenario_input nl nl nl) (scenario_input crlf nl crlf)
           (or_introl eq_refl) eq_refl eq_refl ltac:(discriminate) eq_refl
           ltac:(discriminate) eq_refl eq_refl eq_refl H).
Defined.

(** ** Extensions that name a member of [Object.prototype] *)

(** X7: the conversion of a readable file ends in a [TypeError] exactly
    when the extension is no key of the table but names a member of
    [Object.prototype] and the directory of the output can be made; the
    directory has been made and the file read by then, and nothing is
    written. *)
Theorem type_error_iff_inherited (env : environment) (contents input output : jsstring) :
  (rejection (literateToMdFile env (File contents) input output) = Some TypeError <->
   own_property (config env) (substr1 (Path.ext (Path.parse output))) = None /\
   In (substr1 (Path.ext (Path.parse output))) object_prototype /\
   can_mkdir env (Path.dir (Path.parse output)) = true) /\
  (rejection (literateToMdFile env (File contents) input output) = Some TypeError ->
   effects (literateToMdFile env (File contents) input output)
   = [Mkdir (Path.dir (Path.parse output)); ReadFile input]).
Proof.
  unfold literateToMdFile, get.
  destruct (own_property _ _) as [c|] eqn:Hown.
  - destruct (can_mkdir _ _); cbn [negb].
    + rewrite rewrite_total. destruct (can_write _ _); cbn [rejection];
        (split; [split; [discriminate | intros [H _]; discriminate] | discriminate]).
    + cbn [rejection]. split; [split; [discriminate | intros [H _]; discriminate] | discriminate].
  - destruct (existsb _ _) eqn:Hex.
    + apply existsb_exists in Hex as (k & Hk & Hj). apply jseqb_eq in Hj. subst k.
      destruct (can_mkdir _ _); cbn [negb rejection effects].
      * split; [split; auto | reflexivity].
      * split; [split; [discriminate | intros (_ & _ & H); discriminate] | discriminate].
    + cbn [rejection]. split; [split; [discriminate|] | discriminate].
      intros (_ & Hin & _). exfalso.
      assert (existsb (jseqb (substr1 (Path.ext (Path.parse output)))) object_prototype = true)
        as H; [|congruence].
      apply existsb_exists. exists (substr1 (Path.ext (Path.parse output))).
      split; [assumption | now apply jseqb_eq].
Qed.

(** ** The path of the output *)

Section OutputPath.

Lemma split_last_none (c : ascii) (s : jsstring) : ~ In c s -> Path.split_last c s = None.
Proof.
  induction s as [|x s IH]; [reflexivity|]. intros H. cbn [Path.split_last].
  rewrite IH by (intros Hc; apply H; now right).
  destruct (Ascii.eqb x c) eqn:E; [|reflexivity].
  apply Ascii.eqb_eq in E. exfalso. apply H. now left.
Qed.

Lemma split_last_app (c : ascii) (l r : jsstring) :
  ~ In c r -> Path.split_last c (l ++ c :: r) = Some (l, r).
Proof.
  intros H. induction l as [|x l IH]; cbn [app Path.split_last].
  - now rewrite (split_last_none c r H), Ascii.eqb_refl.
  - now rewrite IH.
Qed.

Lemma drop_slashes_rev (s : jsstring) (x : ascii) :
  Path.is_slash x = false -> rev (Path.drop_slashes (rev (s ++ [x]))) = s ++ [x].
Proof.
  intros H. rewrite rev_app_distr. cbn [rev app Path.drop_slashes]. rewrite H.
  change (x :: rev s) with ([x] ++ rev s). now rewrite rev_app_distr, rev_involutive.
Qed.

Lemma name_ext_dot (n e : jsstring) :
  n <> [] -> ~ In "." e -> n ++ "." :: e <> js ".." ->
  Path.name_ext (n ++ "." :: e) = (n, "." :: e).
Proof.
  intros Hn He Hdd. unfold Path.name_ext. rewrite (split_last_app "." n e He).
  destruct n as [|x n]; [congruence|]. cbn [jseqb orb].
  destruct (jseqb ((x :: n) ++ "." :: e) (js "..")) eqn:E; [|reflexivity].
  apply jseqb_eq in E. congruence.
Qed.

Variables (d n e : jsstring).
Hypothesis d_some : d <> [].
Hypothesis n_some : n <> [].
Hypothesis n_name : ~ In "/" n.
Hypothesis e_plain : ~ In "/" e /\ ~ In "." e.
Hypothesis not_parent : n ++ "." :: e <> js "..".

Lemma base_no_slash : ~ In "/" (n ++ "." :: e).
Proof.
  rewrite in_app_iff. intros [H | [H | H]]; [now apply n_name | discriminate | now apply e_plain].
Qed.

Lemma trimmed_path (p : jsstring) :
  rev (Path.drop_slashes (rev (p ++ n ++ "." :: e))) = p ++ n ++ "." :: e.
Proof.
  destruct (rev e) as [|x e'] eqn:E.
  - apply (f_equal (@rev ascii)) in E. rewrite rev_involutive in E. cbn in E. subst e.
    rewrite !app_assoc. now apply drop_slashes_rev.
  - apply (f_equal (@rev ascii)) in E. rewrite rev_involutive in E. cbn [rev] in E.
    assert (Path.is_slash x = false) as Hx.
    { unfold Path.is_slash. destruct (Ascii.eqb x "/") eqn:Ex; [|reflexivity].
      apply Ascii.eqb_eq in Ex. subst x. exfalso. apply (proj1 e_plain).
      rewrite E. apply in_or_app. right. now left. }
    rewrite E.
    replace (p ++ n ++ "." :: rev e' ++ [x]) with ((p ++ n ++ "." :: rev e') ++ [x])
      by now rewrite <- !app_assoc.
    now apply drop_slashes_rev.
Qed.

Lemma parse_output : Path.parse (d ++ "/" :: n ++ "." :: e) = Path.Parsed d n ("." :: e).
Proof.
  unfold Path.parse. destruct d as [|x d'] eqn:Ed; [congruence|].
  cbn [app]. destruct (Path.is_slash x) eqn:Hx.
  - cbn [tl].
    replace (d' ++ "/" :: n ++ "." :: e) with ((d' ++ ["/"]) ++ n ++ "." :: e)
      by now rewrite <- app_assoc.
    rewrite trimmed_path. rewrite <- app_assoc. cbn [app].
    rewrite (split_last_app "/" d' _ base_no_slash).
    rewrite (name_ext_dot n e n_some (proj2 e_plain) not_parent).
    unfold Path.is_slash in Hx. apply Ascii.eqb_eq in Hx. now subst x.
  - replace (x :: d' ++ "/" :: n ++ "." :: e) with (((x :: d') ++ ["/"]) ++ n ++ "." :: e)
      by now rewrite <- app_assoc.
    rewrite trimmed_path. rewrite <- app_assoc. cbn [app].
    change (x :: d' ++ "/" :: n ++ "." :: e) with ((x :: d') ++ "/" :: n ++ "." :: e).
    rewrite (split_last_app "/" (x :: d') _ base_no_slash).
    now rewrite (name_ext_dot n e n_some (proj2 e_plain) not_parent).
Qed.

End OutputPath.

(** X8: for an output path made of a directory, a slash, a name, a dot
    and an extension, the entry of the table is looked up under the
    extension, and the output goes to the name with [.md] in the same
    directory.  The name may have dots of its own: only what follows the
    last dot is replaced. *)
Theorem output_path_md (d n e : jsstring) :
  d <> [] -> n <> [] -> ~ In "/" n -> ~ In "/" e -> ~ In "." e -> n ++ "." :: e <> js ".." ->
  substr1 (Path.ext (Path.parse (d ++ "/" :: n ++ "." :: e))) = e /\
  Path.dir (Path.parse (d ++ "/" :: n ++ "." :: e)) = d /\
  md_path (d ++ "/" :: n ++ "." :: e) = d ++ "/" :: n ++ js ".md".
Proof.
  intros Hd Hn Hns Hes Hed Hp. unfold md_path.
  rewrite (parse_output d n e Hd Hn Hns (conj Hes Hed) Hp).
  cbn [Path.ext Path.dir Path.name substr1 tl]. unfold Path.format.
  destruct d; [congruence|]. auto.
Qed.

Lemma output_path_md_witness :
  substr1 (Path.ext (Path.parse (js "md/sub" ++ "/" :: js "a.b" ++ "." :: js "foo"))) = js "foo" /\
  Path.dir (Path.parse (js "md/sub" ++ "/" :: js "a.b" ++ "." :: js "foo")) = js "md/sub" /\
  md_path (js "md/sub" ++ "/" :: js "a.b" ++ "." :: js "foo")
  = js "md/sub" ++ "/" :: js "a.b" ++ js ".md".
Proof.
  apply (output_path_md (js "md/sub") (js "a.b") (js "foo")); try discriminate;
    cbn; intuition discriminate.
Defined.

(** X9: two files of a directory that have the same name before their
    extensions are written to the same path: when both extensions have
    entries in the table, each conversion writes the file of that name
    with [.md], and the one that is written last is what stays. *)
Theorem same_name_files_collide (env : environment) (c1 c2 : LanguageConfig)
  (d n e1 e2 input1 input2 s1 s2 : jsstring) :
  d <> [] -> n <> [] -> ~ In "/" n ->
  ~ In "/" e1 -> ~ In "." e1 -> ~ In "/" e2 -> ~ In "." e2 ->
  n ++ "." :: e1 <> js ".." -> n ++ "." :: e2 <> js ".." ->
  get (config env) e1 = Some (Entry c1) ->
  get (config env) e2 = Some (Entry c2) ->
  can_mkdir env d = true ->
  can_write env (d ++ "/" :: n ++ js ".md") = true ->
  exists out1 out2,
    In (WriteFile (d ++ "/" :: n ++ js ".md") out1)
      (effects (literateToMdFile env (File s1) input1 (d ++ "/" :: n ++ "." :: e1))) /\
    In (WriteFile (d ++ "/" :: n ++ js ".md") out2)
      (effects (literateToMdFile env (File s2) input2 (d ++ "/" :: n ++ "." :: e2))).
Proof.
  intros Hd Hn Hns H1s H1d H2s H2d Hp1 Hp2 Hg1 Hg2 Hm Hw.
  pose proof (parse_output d n e1 Hd Hn Hns (conj H1s H1d) Hp1) as P1.
  pose proof (parse_output d n e2 Hd Hn Hns (conj H2s H2d) Hp2) as P2.
  assert (Path.format d n (js ".md") = d ++ "/" :: n ++ js ".md") as Hf
    by (unfold Path.format; destruct d; [congruence | reflexivity]).
  eexists. eexists. split.
  - rewrite (@literateToMdFile_entry env c1 input1 _ s1);
      unfold md_path; rewrite ?P1; cbn [Path.ext Path.dir Path.name substr1 tl];
      rewrite ?Hf; try assumption.
    unfold converted, md_path. rewrite P1. cbn [Path.ext Path.dir Path.name effects In].
    rewrite Hf. auto.
  - rewrite (@literateToMdFile_entry env c2 input2 _ s2);
      unfold md_path; rewrite ?P2; cbn [Path.ext Path.dir Path.name substr1 tl];
      rewrite ?Hf; try assumption.
    unfold converted, md_path. rewrite P2. cbn [Path.ext Path.dir Path.name effects In].
    rewrite Hf. auto.
Qed.

Definition two_languages : Config :=
  [(js "foo", MkLanguageConfig (js "/*") (js "*/") (Some (js "c")));
   (js "bar", MkLanguageConfig (js "(*") (js "*)") None)].

Lemma same_name_files_collide_witness :
  exists out1 out2,
    In (WriteFile (js "md/a.md") out1)
      (effects (literateToMdFile (env_with nl two_languages) (File (js "x"))
                  (js "src/a.foo") (js "md/a.foo"))) /\
    In (WriteFile (js "md/a.md") out2)
      (effects (literateToMdFile (env_with nl two_languages) (File (js "y"))
                  (js "src/a.bar") (js "md/a.bar"))).
Proof.
  apply (same_name_files_collide (env_with nl two_languages)
           (MkLanguageConfig (js "/*") (js "*/") (Some (js "c")))
           (MkLanguageConfig (js "(*") (js "*)") None)
           (js "md") (js "a") (js "foo") (js "bar") (js "src/a.foo") (js "src/a.bar")
           (js "x") (js "y")); try discriminate; try reflexivity;
    cbn; intuition discriminate.
Defined.

(** ** Where the walk reads and writes *)

(** A name of a directory entry, as [readdir] gives it: not empty,
    without slash, neither [.] nor [..]. *)
Definition entry_name (i : jsstring) : bool :=
  negb (jseqb i []) && forallb (fun c => negb (Path.is_slash c)) i &&
  negb (jseqb i (js ".")) && negb (jseqb i (js "..")).

(** Every directory of the tree lists entry names. *)
Fixpoint well_named (n : node) : bool :=
  match n with
  | Dir es =>
      (fix each (es : list (jsstring * node)) : bool :=
         match es with
         | [] => true
         | (i, child) :: es' => entry_name i && well_named child && each es'
         end) es
  | _ => true
  end.

(** A path in normal form: entry names with a slash between them, after
    a slash or not. *)
Definition clean (p : jsstring) : bool :=
  forallb entry_name
    (Path.segments (match p with
                    | c :: q => if Path.is_slash c then q else p
                    | [] => []
                    end)).

(** The path at [names] under [root], written out. *)
Definition under (root : jsstring) (names : list jsstring) : jsstring :=
  root ++ flat_map (fun i => "/" :: i) names.

(** The directory that is made for the node at [names], and the file
    that is written for it: the name of the node without its extension,
    with [.md], in the directory at the same names under the output
    root; for the root itself, what [path.parse] makes of the output
    path. *)
Definition folder (output : jsstring) (names : list jsstring) : jsstring :=
  match rev names with
  | [] => Path.dir (Path.parse output)
  | _ :: ds => under output (rev ds)
  end.

Definition target (output : jsstring) (names : list jsstring) : jsstring :=
  match rev names with
  | [] => md_path output
  | i :: ds => under output (rev ds) ++ "/" :: Path.name (Path.parse i) ++ js ".md"
  end.

(** What an effect of the walk of [tree] from [input] to [output] may
    be: a read at the names of a node of the tree under the input root,
    the making of the directory of a file of the tree, or the writing
    and the logging of the [.md] file of a file of the tree, under the
    output root. *)
Definition framed (tree : node) (input output : jsstring) (e : effect) : Prop :=
  match e with
  | Stat p | Readdir p => exists names n, node_at tree names n /\ p = under input names
  | ReadFile p =>
      exists names contents, node_at tree names (File contents) /\ p = under input names
  | Mkdir p =>
      exists names n, node_at tree names n /\ is_leaf n = true /\ p = folder output names
  | WriteFile p _ =>
      exists names contents,
        node_at tree names (File contents) /\ p = target output names /\
        ends_with (js ".md") p
  | Log i o =>
      exists names contents,
        node_at tree names (File contents) /\ i = under input names /\
        o = target output names
  end.

Section Paths.

Lemma segments_some (p : jsstring) : Path.segments p <> [].
Proof.
  induction p as [|c p IH]; cbn [Path.segments]; [discriminate|].
  destruct (Path.is_slash c); [discriminate|].
  destruct (Path.segments p); discriminate.
Qed.

Lemma segments_app (a b : jsstring) :
  Path.segments (a ++ "/" :: b) = Path.segments a ++ Path.segments b.
Proof.
  induction a as [|c a IH]; [reflexivity|].
  cbn [app Path.segments]. rewrite IH.
  destruct (Path.is_slash c); [reflexivity|].
  pose proof (segments_some a) as Ha.
  destruct (Path.segments a) as [|seg segs]; [congruence | reflexivity].
Qed.

Lemma segments_name (i : jsstring) :
  forallb (fun c => negb (Path.is_slash c)) i = true -> Path.segments i = [i].
Proof.
  induction i as [|c i IH]; [reflexivity|]. cbn [forallb Path.segments].
  intros H. apply andb_prop in H as [Hc Hi]. rewrite (IH Hi).
  now destruct (Path.is_slash c).
Qed.

Lemma unsegments_cons (seg : jsstring) (segs : list jsstring) :
  segs <> [] -> Path.unsegments (seg :: segs) = seg ++ "/" :: Path.unsegments segs.
Proof. destruct segs; [congruence | reflexivity]. Qed.

Lemma unsegments_segments (p : jsstring) : Path.unsegments (Path.segments p) = p.
Proof.
  induction p as [|c p IH]; [reflexivity|]. cbn [Path.segments].
  pose proof (segments_some p) as Hp.
  destruct (Path.is_slash c) eqn:Hc.
  - rewrite unsegments_cons by assumption. rewrite IH.
    unfold Path.is_slash in Hc. apply Ascii.eqb_eq in Hc. now subst c.
  - destruct (Path.segments p) as [|seg segs]; [congruence|].
    destruct segs as [|seg' segs].
    + cbn [Path.unsegments] in *. now rewrite IH.
    + rewrite unsegments_cons in * by discriminate. cbn [app]. now rewrite IH.
Qed.

Lemma entry_name_spec (i : jsstring) :
  entry_name i = true ->
  i <> [] /\ forallb (fun c => negb (Path.is_slash c)) i = true /\
  jseqb i [] = false /\ jseqb i (js ".") = false /\ jseqb i (js "..") = false.
Proof.
  unfold entry_name. rewrite !andb_true_iff, !negb_true_iff.
  intros [[[H1 H2] H3] H4]. repeat split; try assumption.
  intros ->. discriminate.
Qed.

Lemma normalize_names (above : bool) (segs stack : list jsstring) :
  forallb entry_name segs = true ->
  fold_left (Path.normalize_step above) segs stack = rev segs ++ stack.
Proof.
  revert stack. induction segs as [|seg segs IH]; intros stack; [reflexivity|].
  cbn [forallb fold_left rev]. intros H. apply andb_prop in H as [Hs Hl].
  rewrite (IH _ Hl), <- app_assoc. f_equal.
  apply entry_name_spec in Hs as (_ & _ & E1 & E2 & E3).
  unfold Path.normalize_step. now rewrite E1, E2, E3.
Qed.

Lemma names_no_trailing (q : jsstring) :
  forallb entry_name (Path.segments q) = true ->
  match rev q with x :: _ => Path.is_slash x | [] => false end = false.
Proof.
  intros H. destruct (rev q) as [|x r] eqn:E; [reflexivity|].
  destruct (Path.is_slash x) eqn:Hx; [exfalso | reflexivity].
  apply (f_equal (@rev ascii)) in E. rewrite rev_involutive in E. cbn [rev] in E.
  unfold Path.is_slash in Hx. apply Ascii.eqb_eq in Hx. subst x q.
  rewrite segments_app, forallb_app in H. apply andb_prop in H as [_ H]. discriminate H.
Qed.

Lemma names_some (q : jsstring) : forallb entry_name (Path.segments q) = true -> q <> [].
Proof. intros H ->. discriminate H. Qed.

Lemma normalize_clean (p : jsstring) : clean p = true -> Path.normalize p = p.
Proof.
  unfold clean, Path.normalize. destruct p as [|c q]; [discriminate|].
  destruct (Path.is_slash c) eqn:Hc; intros H.
  - assert (c = "/") as -> by (unfold Path.is_slash in Hc; now apply Ascii.eqb_eq in Hc).
    change (Path.segments ("/" :: q)) with ([] :: Path.segments q).
    cbn [fold_left]. change (Path.normalize_step (negb true) [] []) with (@nil jsstring).
    rewrite (normalize_names _ _ _ H), app_nil_r, rev_involutive, unsegments_segments.
    pose proof (names_some q H) as Hq. pose proof (names_no_trailing q H) as Ht.
    assert (match rev ("/" :: q) with x :: _ => Path.is_slash x | [] => false end = false)
      as ->.
    { cbn [rev]. destruct (rev q) as [|x r] eqn:E; [|exact Ht].
      apply (f_equal (@rev ascii)) in E. rewrite rev_involutive in E. now subst q. }
    destruct q; [congruence|]. cbn [app]. now rewrite app_nil_r.
  - rewrite (normalize_names _ _ _ H), app_nil_r, rev_involutive, unsegments_segments.
    rewrite (names_no_trailing _ H). cbn [negb app]. now rewrite app_nil_r.
Qed.

Lemma clean_some (p : jsstring) : clean p = true -> p <> [].
Proof. intros H ->. discriminate H. Qed.

Lemma clean_child (p i : jsstring) :
  clean p = true -> entry_name i = true -> clean (p ++ "/" :: i) = true.
Proof.
  unfold clean. intros Hp Hi. destruct p as [|c q]; [discriminate|]. cbn [app].
  pose proof (entry_name_spec i Hi) as (_ & Hs & _).
  destruct (Path.is_slash c).
  - now rewrite segments_app, forallb_app, Hp, (segments_name i Hs); cbn; rewrite Hi.
  - change (c :: q ++ "/" :: i) with ((c :: q) ++ "/" :: i).
    now rewrite segments_app, forallb_app, Hp, (segments_name i Hs); cbn; rewrite Hi.
Qed.

Lemma join_clean (p i : jsstring) :
  clean p = true -> entry_name i = true -> Path.join p i = p ++ "/" :: i.
Proof.
  intros Hp Hi. pose proof (clean_some p Hp) as Hn.
  pose proof (entry_name_spec i Hi) as (Hin & _).
  unfold Path.join. destruct p as [|c q]; [congruence|]. destruct i as [|x i]; [congruence|].
  apply normalize_clean. now apply (clean_child (c :: q) (x :: i)).
Qed.

Lemma under_child (root i : jsstring) (names : list jsstring) :
  under (root ++ "/" :: i) names = under root (i :: names).
Proof. unfold under. cbn [flat_map]. now rewrite <- app_assoc. Qed.

Lemma under_root (root : jsstring) : under root [] = root.
Proof. unfold under. apply app_nil_r. Qed.

(** [path.parse] of an entry in a directory. *)
Lemma trimmed_name (p i : jsstring) :
  entry_name i = true -> rev (Path.drop_slashes (rev (p ++ i))) = p ++ i.
Proof.
  intros Hi. apply entry_name_spec in Hi as (Hn & Hs & _).
  destruct (exists_last Hn) as (i' & x & ->).
  rewrite forallb_app in Hs. apply andb_prop in Hs as [_ Hx]. cbn in Hx.
  rewrite app_assoc. apply drop_slashes_rev. now destruct (Path.is_slash x).
Qed.

Lemma name_no_slash (i : jsstring) : entry_name i = true -> ~ In "/" i.
Proof.
  intros Hi. apply entry_name_spec in Hi as (_ & Hs & _).
  rewrite forallb_forall in Hs. intros H. now specialize (Hs _ H).
Qed.

Lemma parse_name (i : jsstring) :
  entry_name i = true ->
  Path.parse i = Path.Parsed [] (fst (Path.name_ext i)) (snd (Path.name_ext i)).
Proof.
  intros Hi. pose proof (entry_name_spec i Hi) as (Hn & Hs & _).
  unfold Path.parse. destruct i as [|x i]; [congruence|].
  cbn [forallb] in Hs. apply andb_prop in Hs as [Hx _]. apply negb_true_iff in Hx.
  rewrite Hx. cbv beta iota zeta.
  pose proof (trimmed_name [] _ Hi) as T. cbn [app] in T. rewrite T.
  rewrite (split_last_none "/" _ (name_no_slash _ Hi)).
  now destruct (Path.name_ext (x :: i)).
Qed.

Lemma parse_in_dir (d i : jsstring) :
  d <> [] -> entry_name i = true ->
  Path.parse (d ++ "/" :: i)
  = Path.Parsed d (Path.name (Path.parse i)) (Path.ext (Path.parse i)).
Proof.
  intros Hd Hi. rewrite (parse_name i Hi). cbn [Path.name Path.ext].
  unfold Path.parse. destruct d as [|x d']; [congruence|].
  cbn [app]. destruct (Path.is_slash x) eqn:Hx.
  - cbn [tl].
    replace (d' ++ "/" :: i) with ((d' ++ ["/"]) ++ i) by now rewrite <- app_assoc.
    rewrite (trimmed_name _ _ Hi). rewrite <- app_assoc. cbn [app].
    rewrite (split_last_app "/" d' _ (name_no_slash _ Hi)).
    unfold Path.is_slash in Hx. apply Ascii.eqb_eq in Hx. subst x.
    now destruct (Path.name_ext i).
  - replace (x :: d' ++ "/" :: i) with (((x :: d') ++ ["/"]) ++ i)
      by now rewrite <- app_assoc.
    rewrite (trimmed_name _ _ Hi). rewrite <- app_assoc. cbn [app].
    change (x :: d' ++ "/" :: i) with ((x :: d') ++ "/" :: i).
    rewrite (split_last_app "/" (x :: d') _ (name_no_slash _ Hi)).
    now destruct (Path.name_ext i).
Qed.

Lemma md_path_in_dir (d i : jsstring) :
  d <> [] -> entry_name i = true ->
  md_path (d ++ "/" :: i) = d ++ "/" :: Path.name (Path.parse i) ++ js ".md".
Proof.
  intros Hd Hi. unfold md_path. rewrite (parse_in_dir d i Hd Hi).
  cbn [Path.dir Path.name]. unfold Path.format. destruct d; [congruence | reflexivity].
Qed.

Lemma folder_child (output i : jsstring) (names : list jsstring) :
  output <> [] -> entry_name i = true ->
  folder (output ++ "/" :: i) names = folder output (i :: names).
Proof.
  intros Ho Hi. unfold folder. cbn [rev].
  destruct (rev names) as [|j ds] eqn:E; cbn [app].
  - rewrite (parse_in_dir output i Ho Hi). cbn [Path.dir rev]. now rewrite under_root.
  - rewrite rev_app_distr. cbn [rev app]. apply under_child.
Qed.

Lemma target_child (output i : jsstring) (names : list jsstring) :
  output <> [] -> entry_name i = true ->
  target (output ++ "/" :: i) names = target output (i :: names).
Proof.
  intros Ho Hi. unfold target. cbn [rev].
  destruct (rev names) as [|j ds] eqn:E; cbn [app].
  - rewrite (md_path_in_dir output i Ho Hi). cbn [rev]. now rewrite under_root.
  - rewrite rev_app_distr. cbn [rev app]. now rewrite under_child.
Qed.

Lemma target_md (output : jsstring) (names : list jsstring) :
  ends_with (js ".md") (target output names).
Proof.
  unfold target. destruct (rev names) as [|i ds]; [apply md_path_ends|].
  exists (under output (rev ds) ++ "/" :: Path.name (Path.parse i)).
  rewrite <- app_assoc. reflexivity.
Qed.

Lemma well_named_child (es : list (jsstring * node)) (i : jsstring) (child : node) :
  well_named (Dir es) = true -> In (i, child) es ->
  entry_name i = true /\ well_named child = true.
Proof.
  cbn [well_named]. induction es as [|[j c] es IH]; [intros _ []|].
  intros H. apply andb_prop in H as [H Hes]. apply andb_prop in H as [Hj Hc].
  intros [[= <- <-] | Hin]; [now split | now apply IH].
Qed.

End Paths.

Section Frame.

Variable env : environment.

(** What one conversion does. *)
Lemma file_effects (file : node) (input output : jsstring) (e : effect) :
  In e (effects (literateToMdFile env file input output)) ->
  e = Mkdir (Path.dir (Path.parse output)) \/
  exists contents,
    file = File contents /\
    (e = ReadFile input \/ (exists out, e = WriteFile (md_path output) out) \/
     e = Log input (md_path output)).
Proof.
  unfold literateToMdFile. fold (md_path output).
  destruct (get _ _) as [p|]; [|intros []].
  destruct (can_mkdir _ _); cbn [negb]; [|intros []].
  destruct file as [c| | | |es]; try (cbn; intros [<- | []]; now left).
  destruct p as [lc|].
  - destruct (rewrite _ _ _ _ _) as [out|].
    + destruct (can_write _ _); cbn [effects In];
        intros H; repeat destruct H as [<- | H]; try destruct H; eauto 8.
    + cbn [effects In]; intros H; repeat destruct H as [<- | H]; try destruct H; eauto 8.
  - cbn [effects In]; intros H; repeat destruct H as [<- | H]; try destruct H; eauto 8.
Qed.

Lemma framed_leaf (file : node) (input output : jsstring) (e : effect) :
  is_leaf file = true ->
  In e (Stat input :: effects (literateToMdFile env file input output)) ->
  framed file input output e.
Proof.
  intros Hl [<- | H].
  - exists [], file. split; [constructor | now rewrite under_root].
  - apply file_effects in H as [-> | (c & -> & [-> | [(out & ->) | ->]])]; cbn [framed].
    + exists [], file. repeat split; [constructor | assumption].
    + exists [], c. split; [constructor | now rewrite under_root].
    + exists [], c. repeat split; [constructor | apply md_path_ends].
    + exists [], c. repeat split; [constructor | now rewrite under_root].
Qed.

Lemma framed_child (es : list (jsstring * node)) (i : jsstring) (child : node)
  (input output : jsstring) (e : effect) :
  output <> [] -> entry_name i = true -> In (i, child) es ->
  framed child (input ++ "/" :: i) (output ++ "/" :: i) e ->
  framed (Dir es) input output e.
Proof.
  intros Ho Hi Hin. destruct e; cbn [framed].
  - intros (names & n & Hat & ->). exists (i :: names), n.
    split; [now apply at_child with (child := child) | apply under_child].
  - intros (names & n & Hat & ->). exists (i :: names), n.
    split; [now apply at_child with (child := child) | apply under_child].
  - intros (names & n & Hat & Hl & ->). exists (i :: names), n.
    repeat split; [now apply at_child with (child := child) | assumption |
                    now apply folder_child].
  - intros (names & c & Hat & ->). exists (i :: names), c.
    split; [now apply at_child with (child := child) | apply under_child].
  - intros (names & c & Hat & -> & Hmd). exists (i :: names), c.
    rewrite <- (target_child output i names Ho Hi).
    repeat split; [now apply at_child with (child := child) | assumption].
  - intros (names & c & Hat & -> & ->). exists (i :: names), c.
    repeat split; [now apply at_child with (child := child) | apply under_child |
                    now apply target_child].
Qed.

End Frame.

(** C9, as the code has it.  The roots are written in normal form
    (names with a slash between them) and the directories list names of
    entries.  The walk then only reads at the paths of the nodes of the
    input tree, the input root followed by the names on the way; the
    directory it makes for a file of the tree and the file it writes
    and logs for it are under the output root at the same names, the
    file with [.md] in place of the extension of its name; for an input
    root that is itself a file they are the directory and the name of
    the output path.  The program calls nothing that deletes. *)
Theorem C9_frame (env : environment) (tree : node) (input output : jsstring) (e : effect) :
  well_named tree = true -> clean input = true -> clean output = true ->
  In e (fst (run env tree input output)) ->
  framed tree input output e.
Proof.
  unfold run. revert input output e.
  induction tree as [c| | | |es IH] using node_induction; intros input output e Hw Hi Ho.
  - cbn [literateToMd fst]. now apply framed_leaf.
  - cbn [literateToMd fst]. now apply framed_leaf.
  - intros [].
  - cbn [literateToMd fst]. intros [<- | []].
    exists [], Locked. split; [constructor | now rewrite under_root].
  - rewrite literateToMd_dir. cbn [fst]. intros [<- | [<- | H]].
    + exists [], (Dir es). split; [constructor | now rewrite under_root].
    + exists [], (Dir es). split; [constructor | now rewrite under_root].
    + apply in_concat in H as (l & Hl & He).
      apply in_map_iff in Hl as (r & <- & Hr).
      apply in_map_iff in Hr as ([i child] & <- & Hc).
      destruct (well_named_child es i child Hw Hc) as [Hn Hwc].
      rewrite Forall_forall in IH. unfold walk_child in He. cbn [fst snd] in He.
      rewrite (join_clean input i Hi Hn), (join_clean output i Ho Hn) in He.
      apply (framed_child es i child input output e (clean_some _ Ho) Hn Hc).
      apply (IH _ Hc); try assumption; now apply clean_child.
Qed.

Definition nested_tree : node :=
  Dir [(js "a.md", File (js "old"));
       (js "sub", Dir [(js "b.x.foo", File (js "x"))])].

Lemma C9_frame_witness :
  exists names contents,
    node_at nested_tree names (File contents) /\
    js "md/sub/b.x.md" = target (js "md") names /\
    ends_with (js ".md") (js "md/sub/b.x.md").
Proof.
  apply (C9_frame posix_env nested_tree (js "src") (js "md")
           (WriteFile (js "md/sub/b.x.md") (wrapped nl (js "c") (js "x")))
           eq_refl eq_refl eq_refl).
  vm_compute. auto 10.
Defined.

(** ** What is stripped at the ends *)


(** X10: the start of the text is stripped exactly when the text is, after
    blank lines if any, a line of the open delimiter: the blank lines,
    the delimiter and every line break after it are taken away, the rest
    is kept as it is; any other text gets the fence line with the
    language tag in front of it. *)
Theorem leading_delimiter_line (eol lang open s : jsstring) :
  break_free open = true -> open <> [] ->
  (exists vs1 v vs2 rest,
     s = brk vs1 ++ open ++ brk (v :: vs2) ++ rest /\ eat_break rest = None /\
     after_start eol lang open s = rest) \/
  ((forall vs1 v vs2 rest, s <> brk vs1 ++ open ++ brk (v :: vs2) ++ rest) /\
   after_start eol lang open s = fence ++ lang ++ eol ++ s).
Proof.
  intros Ho Hon. rewrite (after_start_spec eol lang open Ho Hon).
  pose proof (plain_head_break_free Ho Hon) as Hp.
  destruct (start_at open s) as [r|] eqn:E.
  - left. destruct (start_at_variants _ _ _ E) as (vs1 & v & vs2 & Hs & Hr).
    now exists vs1, v, vs2, r.
  - right. split; [|reflexivity]. intros vs1 v vs2 rest Hs.
    destruct (skip_breaks_variants rest) as (vs3 & Hr & Hn).
    rewrite Hr in Hs.
    replace (brk (v :: vs2) ++ brk vs3 ++ skip_breaks rest)
      with (brk (v :: vs2 ++ vs3) ++ skip_breaks rest) in Hs
      by (rewrite app_comm_cons, brk_app; now rewrite <- app_assoc).
    rewrite Hs, (start_at_line open vs1 v (vs2 ++ vs3) _ Hp Hn) in E. discriminate.
Qed.

Lemma leading_delimiter_line_witness :
  (exists vs1 v vs2 rest,
     nl ++ js "/*" ++ crlf ++ nl ++ js "Hello." = brk vs1 ++ js "/*" ++ brk (v :: vs2) ++ rest /\
     eat_break rest = None /\
     after_start nl (js "c") (js "/*") (nl ++ js "/*" ++ crlf ++ nl ++ js "Hello.") = rest) \/
  ((forall vs1 v vs2 rest,
      nl ++ js "/*" ++ crlf ++ nl ++ js "Hello." <> brk vs1 ++ js "/*" ++ brk (v :: vs2) ++ rest) /\
   after_start nl (js "c") (js "/*") (nl ++ js "/*" ++ crlf ++ nl ++ js "Hello.")
   = fence ++ js "c" ++ nl ++ nl ++ js "/*" ++ crlf ++ nl ++ js "Hello.").
Proof.
  apply (leading_delimiter_line nl (js "c") (js "/*")
           (nl ++ js "/*" ++ crlf ++ nl ++ js "Hello.")); [reflexivity | discriminate].
Defined.

(** X11: the end of the text is stripped exactly when the text ends with
    a line break, the close delimiter and nothing but line breaks after
    it: the text is cut at the first place from which that is all there
    is, so that the line breaks before the delimiter go with it; any
    other text gets a line break and the fence line after it. *)
Theorem trailing_delimiter_line (eol close c : jsstring) :
  break_free close = true -> close <> [] ->
  (exists u v vs1 vs2,
     c = u ++ brk (v :: vs1) ++ close ++ brk vs2 /\
     (forall u' v' vs1' vs2',
        c = u' ++ brk (v' :: vs1') ++ close ++ brk vs2' -> length u <= length u') /\
     after_end eol close c = u) \/
  ((forall u v vs1 vs2, c <> u ++ brk (v :: vs1) ++ close ++ brk vs2) /\
   after_end eol close c = c ++ eol ++ fence).
Proof.
  intros Hc Hcn. rewrite (after_end_spec eol close Hc Hcn).
  pose proof (plain_head_break_free Hc Hcn) as Hp.
  unfold end_strip.
  destruct (find (end_here close) c) as [[u r]|] eqn:F; cbn [option_map fst].
  - left. destruct (find_shape _ _ F) as (s' & Hs & Hat).
    unfold end_here in Hat. destruct (end_at close s') eqn:He; [|discriminate].
    destruct (end_at_variants _ _ He) as (v & vs1 & vs2 & ->).
    exists u, v, vs1, vs2. repeat split; [assumption|].
    intros u' v' vs1' vs2' Hc'. apply (find_first _ _ _ _ _ _ F Hc').
    unfold end_here. now rewrite (end_at_line close v' vs1' vs2' Hp).
  - right. split; [|reflexivity]. intros u v vs1 vs2 Hs.
    pose proof (find_none _ _ _ _ F Hs) as Hn. unfold end_here in Hn.
    rewrite (end_at_line close v vs1 vs2 Hp) in Hn. discriminate.
Qed.

Lemma trailing_delimiter_line_witness :
  (exists u v vs1 vs2,
     js "x;" ++ nl ++ crlf ++ js "*/" ++ nl = u ++ brk (v :: vs1) ++ js "*/" ++ brk vs2 /\
     (forall u' v' vs1' vs2',
        js "x;" ++ nl ++ crlf ++ js "*/" ++ nl = u' ++ brk (v' :: vs1') ++ js "*/" ++ brk vs2' ->
        length u <= length u') /\
     after_end nl (js "*/") (js "x;" ++ nl ++ crlf ++ js "*/" ++ nl) = u) \/
  ((forall u v vs1 vs2,
      js "x;" ++ nl ++ crlf ++ js "*/" ++ nl <> u ++ brk (v :: vs1) ++ js "*/" ++ brk vs2) /\
   after_end nl (js "*/") (js "x;" ++ nl ++ crlf ++ js "*/" ++ nl)
   = (js "x;" ++ nl ++ crlf ++ js "*/" ++ nl) ++ nl ++ fence).
Proof.
  apply (trailing_delimiter_line nl (js "*/") (js "x;" ++ nl ++ crlf ++ js "*/" ++ nl));
    [reflexivity | discriminate].
Defined.

(** ** The failure that is reported *)

(** The failures of the calls of the walk, each with the time at which
    its promise is rejected. *)
Fixpoint timed_failures (env : environment) (n : node) (input output : jsstring) {struct n}
  : list (nat * error) :=
  match n with
  | Absent => [(clock env input, StatFailure input)]
  | Locked => [(clock env input, ReaddirFailure input)]
  | Dir es =>
      (fix each (es : list (jsstring * node)) : list (nat * error) :=
         match es with
         | [] => []
         | (i, child) :: es' =>
             timed_failures env child (Path.join input i) (Path.join output i) ++ each es'
         end) es
  | File _ | Unreadable =>
      match rejection (literateToMdFile env n input output) with
      | Some e => [(clock env input, e)]
      | None => []
      end
  end.

Section Earliest.

Lemma timed_failures_dir (env : environment) (es : list (jsstring * node))
  (input output : jsstring) :
  timed_failures env (Dir es) input output
  = flat_map (fun e => timed_failures env (snd e) (Path.join input (fst e))
                         (Path.join output (fst e))) es.
Proof.
  cbn [timed_failures]. induction es as [|[i child] es IH]; [reflexivity|].
  cbn [flat_map fst snd]. now rewrite IH.
Qed.

Lemma earlier_le (a x : option (nat * error)) (t : nat) (e : error) :
  a = Some (t, e) \/ x = Some (t, e) ->
  exists t0 e0, earlier a x = Some (t0, e0) /\ t0 <= t.
Proof.
  destruct a as [[ta ea]|], x as [[tx ex]|]; unfold earlier;
    intros [H | H]; try discriminate; injection H as -> ->;
    try (destruct (_ <? _) eqn:E; [apply Nat.ltb_lt in E | apply Nat.ltb_ge in E]);
    do 2 eexists; (split; [reflexivity | lia]).
Qed.

Lemma fold_earlier_min (l : list (option (nat * error))) :
  forall (a : option (nat * error)) (t : nat) (e : error),
    fold_left earlier l a = Some (t, e) ->
    forall t' e', a = Some (t', e') \/ In (Some (t', e')) l -> t <= t'.
Proof.
  induction l as [|x l IH]; intros a t e F t' e' H; cbn [fold_left] in F.
  - destruct H as [H | []]. rewrite F in H. injection H as -> _. lia.
  - cbn [In] in H.
    assert (a = Some (t', e') \/ x = Some (t', e') \/ In (Some (t', e')) l) as H' by tauto.
    destruct H' as [H' | [H' | H']].
    + destruct (earlier_le a x t' e' (or_introl H')) as (t0 & e0 & E & Hle).
      pose proof (IH _ _ _ F t0 e0 (or_introl E)). lia.
    + destruct (earlier_le a x t' e' (or_intror H')) as (t0 & e0 & E & Hle).
      pose proof (IH _ _ _ F t0 e0 (or_introl E)). lia.
    + exact (IH _ _ _ F t' e' (or_intror H')).
Qed.

Variable env : environment.

Lemma walk_earliest (tree : node) :
  forall input output,
    (snd (literateToMd env tree input output) = None ->
     timed_failures env tree input output = []) /\
    (forall t e, snd (literateToMd env tree input output) = Some (t, e) ->
                 In (t, e) (timed_failures env tree input output) /\
                 forall t' e', In (t', e') (timed_failures env tree input output) -> t <= t').
Proof.
  induction tree as [c| | | |es IH] using node_induction; intros input output.
  - cbn [literateToMd timed_failures snd].
    destruct (rejection _) as [e|]; split; try discriminate; try reflexivity.
    intros t e' [= <- <-]. split; [now left|]. intros t' e'' [[= <- _] | []]. lia.
  - cbn [literateToMd timed_failures snd].
    destruct (rejection _) as [e|]; split; try discriminate; try reflexivity.
    intros t e' [= <- <-]. split; [now left|]. intros t' e'' [[= <- _] | []]. lia.
  - cbn. split; [discriminate|].
    intros t e [= <- <-]. split; [now left|]. intros t' e'' [[= <- _] | []]. lia.
  - cbn. split; [discriminate|].
    intros t e [= <- <-]. split; [now left|]. intros t' e'' [[= <- _] | []]. lia.
  - rewrite literateToMd_dir, timed_failures_dir. cbn [snd]. unfold Promise_all.
    rewrite Forall_forall in IH. split.
    + intros H. apply fold_earlier_none in H as [_ H]. rewrite Forall_forall in H.
      apply flat_map_nil. rewrite Forall_forall. intros child Hc.
      apply (IH _ Hc). apply H.
      apply in_map, (in_map (walk_child env input output)), Hc.
    + intros t e H. split.
      * pose proof H as H1. apply fold_earlier_some in H1 as [H1 | H1]; [discriminate|].
        apply in_map_iff in H1 as (r & Hr & Hin).
        apply in_map_iff in Hin as (child & <- & Hc).
        apply in_flat_map. exists child. split; [assumption|].
        exact (proj1 (proj2 (IH _ Hc _ _) _ _ Hr)).
      * intros t' e' Hin. apply in_flat_map in Hin as (child & Hc & Hin).
        destruct (snd (walk_child env input output child)) as [[tc ec]|] eqn:Ec.
        -- destruct (proj2 (IH _ Hc _ _) _ _ Ec) as [_ Hmin].
           pose proof (Hmin _ _ Hin) as Hle.
           assert (t <= tc); [|lia].
           apply (fold_earlier_min _ _ _ _ H tc ec). right.
           rewrite <- Ec. apply in_map, (in_map (walk_child env input output)), Hc.
        -- rewrite (proj1 (IH _ Hc _ _) Ec) in Hin. destruct Hin.
Qed.

End Earliest.

Lemma timed_failures_errors (env : environment) (tree : node) :
  forall input output,
    map snd (timed_failures env tree input output) = failures env tree input output.
Proof.
  induction tree as [c| | | |es IH] using node_induction; intros input output;
    try reflexivity.
  - cbn [timed_failures failures]. now destruct (rejection _).
  - cbn [timed_failures failures]. now destruct (rejection _).
  - rewrite timed_failures_dir, failures_dir.
    induction es as [|[i child] es IHes]; [reflexivity|].
    cbn [flat_map fst snd]. rewrite map_app. inversion IH as [|? ? Hc Hes]; subst.
    cbn [snd] in Hc. now rewrite Hc, IHes.
Qed.

(** C5, as the code has it: the walk fails exactly when one of its
    calls fails; what the run has to show is then a single failure, that
    of the call whose promise is rejected first, and the failures of the
    other calls are dropped.  Nothing of the program collects them. *)
Theorem C5_one_rejection (env : environment) (tree : node) (input output : jsstring) :
  (reported (run env tree input output) = [] <-> failures env tree input output = []) /\
  (forall e,
     In e (reported (run env tree input output)) ->
     reported (run env tree input output) = [e] /\
     In e (failures env tree input output) /\
     exists t,
       snd (run env tree input output) = Some (t, e) /\
       In (t, e) (timed_failures env tree input output) /\
       forall t' e', In (t', e') (timed_failures env tree input output) -> t <= t') /\
  map snd (timed_failures env tree input output) = failures env tree input output.
Proof.
  unfold reported, run.
  destruct (walk_rejection env tree input output) as [Hs Hn].
  pose proof (proj2 (walk_earliest env tree input output)) as He.
  split; [|split; [|apply timed_failures_errors]].
  - destruct (snd (literateToMd env tree input output)) as [[t e]|] eqn:E.
    + split; [discriminate|]. intros H. apply Hn in H. discriminate.
    + split; [intros _; now apply Hn | reflexivity].
  - intros e. destruct (snd (literateToMd env tree input output)) as [[t e0]|] eqn:E;
      [|intros []].
    intros [<- | []]. split; [reflexivity|]. split; [now apply (Hs t)|].
    exists t. split; [reflexivity|]. now apply He.
Qed.

(** X12: when calls of the walk fail, the rejection of the run is that
    of the call that fails first: it is one of the failures, and none of
    them is earlier. *)
Theorem earliest_failure_is_reported (env : environment) (tree : node)
  (input output : jsstring) (t : nat) (e : error) :
  snd (run env tree input output) = Some (t, e) ->
  In (t, e) (timed_failures env tree input output) /\
  forall t' e', In (t', e') (timed_failures env tree input output) -> t <= t'.
Proof. unfold run. apply walk_earliest. Qed.

Definition second_first_env : environment :=
  MkEnvironment nl foo_config (fun _ => true) (fun _ => true)
    (fun p => if jseqb p (js "src/b.foo") then 1 else 2).

Lemma earliest_failure_is_reported_witness :
  In (1, ReadFailure (js "src/b.foo"))
    (timed_failures second_first_env
       (Dir [(js "a.foo", Unreadable); (js "b.foo", Unreadable)]) (js "src") (js "md")) /\
  forall t' e',
    In (t', e')
      (timed_failures second_first_env
         (Dir [(js "a.foo", Unreadable); (js "b.foo", Unreadable)]) (js "src") (js "md")) ->
    1 <= t'.
Proof.
  exact (earliest_failure_is_reported second_first_env
           (Dir [(js "a.foo", Unreadable); (js "b.foo", Unreadable)]) (js "src") (js "md")
           1 (ReadFailure (js "src/b.foo")) eq_refl).
Defined.
